(** * HubSpot deal analyzer: the deal-context aggregation pipeline

    A shallow embedding of the aggregation code of [sidepanel.js]
    (the [HubSpotClient] class, [stripHtml], [formatTimestamp],
    [extractUrlsFromContent], [collectAllUrls], [formatDealForClaude] and the
    document-assembly prefix of [runAnalysis]) together with the properties
    the written specification states about it.

    Conventions of the embedding.
    - A JavaScript string is a list of characters; the model covers the
      code units 0..255 (Latin-1), so the regular-expression classes [\s],
      [\w], [\d] and the line terminators are the ones of that range.
    - A property that may be [undefined] or [null] is an [option]; the
      JavaScript truthiness test of [x || d] and [if (x)] is written out
      ([None] and the empty string are falsy).
    - [parseInt] gives the mathematical integer of [Z] that the digits
      denote; the Number the code works with is that integer rounded to
      the nearest double ([number_value]), which changes nothing up to
      2^53 in magnitude and so for every epoch millisecond a [Date] can
      hold. *)

From Stdlib Require Import List Ascii String ZArith Lia Bool Arith PeanoNat.
From Stdlib Require Import Sorting.Sorted Sorting.Permutation DecimalString.
Import ListNotations.

Set Implicit Arguments.
Open Scope list_scope.

(* ------------------------------------------------------------------ *)
(** ** JavaScript strings *)

Definition jsstring := list ascii.

Definition js (s : string) : jsstring := list_ascii_of_string s.

Definition code (c : ascii) : nat := nat_of_ascii c.

Definition jsstring_eqb (a b : jsstring) : bool :=
  if list_eq_dec ascii_dec a b then true else false.

(** [x] is truthy: neither [undefined]/[null] nor the empty string. *)
Definition truthy (x : option jsstring) : bool :=
  match x with
  | Some (_ :: _) => true
  | _ => false
  end.

(** [x || d] on a string-valued property. *)
Definition or_else (x : option jsstring) (d : jsstring) : jsstring :=
  match x with
  | Some (c :: s) => c :: s
  | _ => d
  end.

(** [x || y] where [y] may itself be absent. *)
Definition or_opt (x y : option jsstring) : option jsstring :=
  if truthy x then x else y.

(** Character classes of ECMAScript regular expressions (Latin-1 range). *)
Definition is_space (c : ascii) : bool :=
  let n := code c in
  ((9 <=? n) && (n <=? 13)) || (n =? 32) || (n =? 160).

Definition is_line_terminator (c : ascii) : bool :=
  let n := code c in (n =? 10) || (n =? 13).

Definition is_digit (c : ascii) : bool :=
  let n := code c in (48 <=? n) && (n <=? 57).

Definition is_upper (c : ascii) : bool :=
  let n := code c in (65 <=? n) && (n <=? 90).

Definition is_lower (c : ascii) : bool :=
  let n := code c in (97 <=? n) && (n <=? 122).

Definition is_word (c : ascii) : bool :=
  is_digit c || is_upper c || is_lower c || (code c =? 95).

Definition one_of (s : string) (c : ascii) : bool :=
  existsb (Ascii.eqb c) (js s).

Definition none_of (s : string) (c : ascii) : bool := negb (one_of s c).

(** [String.prototype.trim]. *)
Fixpoint trimStart (s : jsstring) : jsstring :=
  match s with
  | c :: t => if is_space c then trimStart t else s
  | [] => []
  end.

Definition trim (s : jsstring) : jsstring :=
  rev (trimStart (rev (trimStart s))).

(** [String.prototype.toLowerCase] on the Latin-1 range. *)
Definition lower_char (c : ascii) : ascii :=
  let n := code c in
  if is_upper c then ascii_of_nat (n + 32)
  else if (192 <=? n) && (n <=? 222) && negb (n =? 215) then ascii_of_nat (n + 32)
  else c.

Definition toLowerCase (s : jsstring) : jsstring := map lower_char s.

(** [String.prototype.includes]. *)
Fixpoint starts_with (p s : jsstring) : bool :=
  match p, s with
  | [], _ => true
  | a :: p', b :: s' => Ascii.eqb a b && starts_with p' s'
  | _ :: _, [] => false
  end.

Fixpoint includes (s p : jsstring) : bool :=
  starts_with p s ||
  match s with
  | [] => false
  | _ :: t => includes t p
  end.

(** [Array.prototype.join]. *)
Fixpoint join (sep : jsstring) (l : list jsstring) : jsstring :=
  match l with
  | [] => []
  | [x] => x
  | x :: t => x ++ sep ++ join sep t
  end.

(** [String(n)] for a non-negative integer. *)
Definition string_of_nat (n : nat) : jsstring :=
  js (NilEmpty.string_of_uint (Nat.to_uint n)).

(** [String.prototype.slice(0, n)]. *)
Definition slice0 (n : nat) (s : jsstring) : jsstring := firstn n s.

(** [String.prototype.replace(a, b)] with a one-character string pattern:
    only the first occurrence is replaced. *)
Fixpoint replace_char (a b : ascii) (s : jsstring) : jsstring :=
  match s with
  | [] => []
  | c :: t => if Ascii.eqb c a then b :: t else c :: replace_char a b t
  end.

(* ------------------------------------------------------------------ *)
(** ** Regular expressions

    A backtracking matcher with the priorities of ECMAScript: the matches
    of a pattern at a position are listed in the order in which the
    engine would try them, so that the head of the list is the match the
    engine reports.  Every quantifier of the patterns in the source ranges
    over a single character class, which is what [Star] takes. *)

Record cursor := Cursor { before : option ascii; rest : jsstring }.

Inductive regex :=
| Eps
| Cls (p : ascii -> bool)
| Seq (r1 r2 : regex)
| Alt (r1 r2 : regex)
| Star (p : ascii -> bool)        (* [p*], greedy *)
| StarLazy (p : ascii -> bool)    (* [p*?] *)
| BolM                            (* [^] under the [m] flag *)
| EolM                            (* [$] under the [m] flag *)
| End.                            (* [$] without the [m] flag *)

Fixpoint star_greedy (p : ascii -> bool) (prev : option ascii) (s : jsstring)
  : list cursor :=
  match s with
  | a :: t =>
      if p a then star_greedy p (Some a) t ++ [Cursor prev s]
      else [Cursor prev s]
  | [] => [Cursor prev []]
  end.

Fixpoint star_lazy (p : ascii -> bool) (prev : option ascii) (s : jsstring)
  : list cursor :=
  match s with
  | a :: t => Cursor prev s :: (if p a then star_lazy p (Some a) t else [])
  | [] => [Cursor prev []]
  end.

Definition at_line_start (c : cursor) : bool :=
  match before c with
  | None => true
  | Some a => is_line_terminator a
  end.

Definition at_line_end (c : cursor) : bool :=
  match rest c with
  | [] => true
  | a :: _ => is_line_terminator a
  end.

Definition at_end (c : cursor) : bool :=
  match rest c with
  | [] => true
  | _ :: _ => false
  end.

Fixpoint matches (r : regex) (c : cursor) : list cursor :=
  match r with
  | Eps => [c]
  | Cls p =>
      match rest c with
      | a :: t => if p a then [Cursor (Some a) t] else []
      | [] => []
      end
  | Seq r1 r2 => flat_map (matches r2) (matches r1 c)
  | Alt r1 r2 => matches r1 c ++ matches r2 c
  | Star p => star_greedy p (before c) (rest c)
  | StarLazy p => star_lazy p (before c) (rest c)
  | BolM => if at_line_start c then [c] else []
  | EolM => if at_line_end c then [c] else []
  | End => if at_end c then [c] else []
  end.

(** The match the engine reports at a position, if any. *)
Definition exec (r : regex) (c : cursor) : option cursor :=
  hd_error (matches r c).

(** Number of characters a match starting at [s] consumed. *)
Definition consumed (s : jsstring) (c' : cursor) : nat :=
  List.length s - List.length (rest c').

(** [String.prototype.replace] with a [g] pattern and a replacer [f];
    [skip] counts the characters of the current match still to be dropped. *)
Fixpoint replace_from (r : regex) (f : jsstring -> jsstring)
  (prev : option ascii) (s : jsstring) (skip : nat) {struct s} : jsstring :=
  match skip with
  | S k =>
      match s with
      | [] => []
      | a :: t => replace_from r f (Some a) t k
      end
  | O =>
      match exec r (Cursor prev s) with
      | Some c' =>
          let n := consumed s c' in
          f (firstn n s) ++
          match s with
          | [] => []
          | a :: t =>
              match n with
              | O => a :: replace_from r f (Some a) t 0
              | S k => replace_from r f (Some a) t k
              end
          end
      | None =>
          match s with
          | [] => []
          | a :: t => a :: replace_from r f (Some a) t 0
          end
      end
  end.

Definition replace_all (r : regex) (f : jsstring -> jsstring) (s : jsstring)
  : jsstring :=
  replace_from r f None s 0.

(** [String.prototype.replace] with a pattern without the [g] flag. *)
Fixpoint replace_first_from (r : regex) (f : jsstring -> jsstring)
  (prev : option ascii) (s : jsstring) : jsstring :=
  match exec r (Cursor prev s) with
  | Some c' => f (firstn (consumed s c') s) ++ rest c'
  | None =>
      match s with
      | [] => []
      | a :: t => a :: replace_first_from r f (Some a) t
      end
  end.

Definition replace_first (r : regex) (f : jsstring -> jsstring) (s : jsstring)
  : jsstring :=
  replace_first_from r f None s.

(** [String.prototype.match] with a [g] pattern: the matched texts. *)
Fixpoint match_from (r : regex) (prev : option ascii) (s : jsstring)
  (skip : nat) {struct s} : list jsstring :=
  match skip with
  | S k =>
      match s with
      | [] => []
      | a :: t => match_from r (Some a) t k
      end
  | O =>
      match exec r (Cursor prev s) with
      | Some c' =>
          let n := consumed s c' in
          firstn n s ::
          match s with
          | [] => []
          | a :: t => match_from r (Some a) t (Nat.pred n)
          end
      | None =>
          match s with
          | [] => []
          | a :: t => match_from r (Some a) t 0
          end
      end
  end.

Definition match_all (r : regex) (s : jsstring) : list jsstring :=
  match_from r None s 0.

(** Derived forms. *)
Definition Chr (c : ascii) : regex := Cls (Ascii.eqb c).

Fixpoint Lit_chars (s : jsstring) : regex :=
  match s with
  | [] => Eps
  | [c] => Chr c
  | c :: t => Seq (Chr c) (Lit_chars t)
  end.

Definition Lit (s : string) : regex := Lit_chars (js s).

Definition Plus (p : ascii -> bool) : regex := Seq (Cls p) (Star p).

Definition Opt (r : regex) : regex := Alt r Eps.

Fixpoint Rep (n : nat) (r : regex) : regex :=
  match n with
  | O => Eps
  | 1 => r
  | S k => Seq r (Rep k r)
  end.

Fixpoint Seqs (l : list regex) : regex :=
  match l with
  | [] => Eps
  | [r] => r
  | r :: t => Seq r (Seqs t)
  end.

Definition any_char (c : ascii) : bool := true.

(** [.] without the [s] flag. *)
Definition dot (c : ascii) : bool := negb (is_line_terminator c).

Definition LF : ascii := ascii_of_nat 10.
Definition TAB : ascii := ascii_of_nat 9.
Definition DQUOTE : ascii := ascii_of_nat 34.

(* ------------------------------------------------------------------ *)
(** ** The patterns of [stripHtml] and [extractUrlsFromContent] *)

(** [/<[^>]+>/g] *)
Definition re_tag : regex :=
  Seqs [Chr "<"; Plus (none_of ">"); Chr ">"].

(** [/<https?:\/\/[^>]+>/g], also the pattern of the unwrapping
    [/<(https?:\/\/[^>]+)>/g]. *)
Definition re_wrapped_url : regex :=
  Seqs [Chr "<"; Lit "http"; Opt (Chr "s"); Lit "://"; Plus (none_of ">");
        Chr ">"].

(** [/https?:\/\/\S+/g] *)
Definition re_bare_url : regex :=
  Seqs [Lit "http"; Opt (Chr "s"); Lit "://";
        Plus (fun c => negb (is_space c))].

(** [[\w.-]] *)
Definition is_mail_char (c : ascii) : bool := is_word c || one_of ".-" c.

(** [/^\s*[\w.-]+@[\w.-]+\.\w+\s*$/gm] *)
Definition re_email_line : regex :=
  Seqs [BolM; Star is_space; Plus is_mail_char; Chr "@"; Plus is_mail_char;
        Chr "."; Plus is_word; Star is_space; EolM].

(** [[-.\s]] *)
Definition is_phone_sep (c : ascii) : bool := one_of "-." c || is_space c.

(** [/^\s*\(?\d{3}\)?[-.\s]?\d{3}[-.\s]?\d{4}\s*$/gm] *)
Definition re_phone_line : regex :=
  Seqs [BolM; Star is_space; Opt (Chr "("); Rep 3 (Cls is_digit);
        Opt (Chr ")"); Opt (Cls is_phone_sep); Rep 3 (Cls is_digit);
        Opt (Cls is_phone_sep); Rep 4 (Cls is_digit); Star is_space; EolM].

(** [[\d:]] *)
Definition is_clock_char (c : ascii) : bool := is_digit c || one_of ":" c.

(** [/On\s+\w{3},\s+\w{3}\s+\d{1,2},\s+\d{4}\s+at\s+[\d:]+\s*[AP]M.*?wrote:.*/gs] *)
Definition re_quoted_reply : regex :=
  Seqs [Lit "On"; Plus is_space; Rep 3 (Cls is_word); Chr ","; Plus is_space;
        Rep 3 (Cls is_word); Plus is_space;
        Cls is_digit; Opt (Cls is_digit); Chr ","; Plus is_space;
        Rep 4 (Cls is_digit); Plus is_space; Lit "at"; Plus is_space;
        Plus is_clock_char; Star is_space; Cls (one_of "AP"); Chr "M";
        StarLazy any_char; Lit "wrote:"; Star any_char].

(** [/^\s*>.*$/gm] *)
Definition re_quote_line : regex :=
  Seqs [BolM; Star is_space; Chr ">"; Star dot; EolM].

(** [/^\s*\*?(From|Sent|To|Cc|Subject|Date):\*?\s*.*$/gm] *)
Definition re_header_line : regex :=
  Seqs [BolM; Star is_space; Opt (Chr "*");
        Alt (Lit "From") (Alt (Lit "Sent") (Alt (Lit "To") (Alt (Lit "Cc")
          (Alt (Lit "Subject") (Lit "Date")))));
        Chr ":"; Opt (Chr "*"); Star is_space; Star dot; EolM].

(** [/\n{3,}/g] *)
Definition re_newlines3 : regex :=
  Seqs [Chr LF; Chr LF; Chr LF; Star (Ascii.eqb LF)].

(** [/[ \t]+/g] *)
Definition is_blank (c : ascii) : bool := Ascii.eqb c " " || Ascii.eqb c TAB.

Definition re_blanks : regex := Plus is_blank.

(** [/\n\s*\n/g] *)
Definition re_blank_lines : regex :=
  Seqs [Chr LF; Star is_space; Chr LF].

(** The class excluding white space, angle brackets, the double quote and
    the apostrophe. *)
Definition is_url_char (c : ascii) : bool :=
  negb (is_space c) && negb (Ascii.eqb c "<") && negb (Ascii.eqb c ">")
  && negb (Ascii.eqb c DQUOTE) && negb (Ascii.eqb c "'").

(** The same class without the period and the comma. *)
Definition is_url_last (c : ascii) : bool :=
  is_url_char c && negb (Ascii.eqb c ".") && negb (Ascii.eqb c ",").

(** The [urlPattern] of [extractUrlsFromContent]: [https?:\/\/], one or
    more characters of the first class, one character of the second;
    flag [g]. *)
Definition urlPattern : regex :=
  Seqs [Lit "http"; Opt (Chr "s"); Lit "://"; Plus is_url_char;
        Cls is_url_last].

(** [[.,;:]] *)
Definition is_trailing_punct (c : ascii) : bool := one_of ".,;:" c.

(** [/[.,;:]+$/] *)
Definition re_trailing_punct : regex :=
  Seqs [Plus is_trailing_punct; End].

Definition const_str (r : jsstring) : jsstring -> jsstring := fun _ => r.

(** The replacement ['$1'] of [/<(https?:\/\/[^>]+)>/g]: the group spans the
    match without its first and its last character. *)
Definition group1_unwrap (m : jsstring) : jsstring := removelast (tl m).

(* ------------------------------------------------------------------ *)
(** ** [parseInt], [Date] and [formatTimestamp] *)

Open Scope Z_scope.

Definition digit_value (radix : Z) (c : ascii) : option Z :=
  let n := Z.of_nat (code c) in
  let v := if is_digit c then Some (n - 48)
           else if is_lower c then Some (n - 87)
           else if is_upper c then Some (n - 55)
           else None in
  match v with
  | Some d => if d <? radix then Some d else None
  | None => None
  end.

Fixpoint parse_digits (radix : Z) (acc : option Z) (s : jsstring) : option Z :=
  match s with
  | c :: t =>
      match digit_value radix c with
      | Some d =>
          parse_digits radix
            (Some (match acc with Some a => a * radix + d | None => d end)) t
      | None => acc
      end
  | [] => acc
  end.

(** [parseInt(s)] without a radix argument: the mathematical integer the
    digits denote, before it is rounded to a Number; [None] is [NaN].
    All digits are read (past the twentieth significant decimal digit the
    language lets an engine read zeros instead). *)
Definition parseInt (s : jsstring) : option Z :=
  let s := trimStart s in
  let '(neg, s) :=
    match s with
    | "-"%char :: t => (true, t)
    | "+"%char :: t => (false, t)
    | _ => (false, s)
    end in
  let '(radix, s) :=
    match s with
    | "0"%char :: "x"%char :: t => (16, t)
    | "0"%char :: "X"%char :: t => (16, t)
    | _ => (10, s)
    end in
  match parse_digits radix None s with
  | Some n => Some (if neg then - n else n)
  | None => None
  end.

(** [parseInt(x)] where [x] may be [undefined] or [null]. *)
Definition parseInt_opt (x : option jsstring) : option Z :=
  match x with
  | Some s => parseInt s
  | None => None
  end.

(** The Number nearest to a mathematical integer: 53 significant bits,
    round to nearest, ties to even.  The Number is written as the integer
    it equals; [2^1024], which no finite Number reaches, stands for
    [Infinity]. *)
Definition number_value (n : Z) : Z :=
  let a := Z.abs n in
  if a <? 2 ^ 53 then n
  else
    let e := Z.log2 a - 52 in
    let q := a / 2 ^ e in
    let r := a mod 2 ^ e in
    let half := 2 ^ (e - 1) in
    let q' := if (half <? r) || ((r =? half) && Z.odd q) then q + 1 else q in
    Z.sgn n * Z.min (q' * 2 ^ e) (2 ^ 1024).

Definition digit_char (d : Z) : ascii := ascii_of_nat (48 + Z.to_nat d).

(** The last [w] decimal digits of [n], zero-padded. *)
Fixpoint pad (w : nat) (n : Z) : jsstring :=
  match w with
  | O => []
  | S w' => pad w' (n / 10) ++ [digit_char (n mod 10)]
  end.

(** Year, month and day of a day number counted from 1970-01-01
    (proleptic Gregorian calendar). *)
Definition civil_from_days (days : Z) : Z * Z * Z :=
  let z := days + 719468 in
  let era := z / 146097 in
  let doe := z - era * 146097 in
  let yoe := (doe - doe / 1460 + doe / 36524 - doe / 146096) / 365 in
  let doy := doe - (365 * yoe + yoe / 4 - yoe / 100) in
  let mp := (5 * doy + 2) / 153 in
  let d := doy - (153 * mp + 2) / 5 + 1 in
  let m := if mp <? 10 then mp + 3 else mp - 9 in
  let y := yoe + era * 400 + (if m <=? 2 then 1 else 0) in
  (y, m, d).

(** A time value a [Date] can hold. *)
Definition valid_time (t : Z) : bool := Z.abs t <=? 8640000000000000.

Definition iso_year (y : Z) : jsstring :=
  if (0 <=? y) && (y <=? 9999) then pad 4 y
  else (if y <? 0 then js "-" else js "+") ++ pad 6 (Z.abs y).

(** [Date.prototype.toISOString] of a valid time value. *)
Definition toISOString (t : Z) : jsstring :=
  let days := t / 86400000 in
  let ms := t mod 86400000 in
  let '(y, m, d) := civil_from_days days in
  (iso_year y ++ js "-" ++ pad 2 m ++ js "-" ++ pad 2 d ++ js "T"
   ++ pad 2 (ms / 3600000) ++ js ":" ++ pad 2 (ms / 60000 mod 60) ++ js ":"
   ++ pad 2 (ms / 1000 mod 60) ++ js "." ++ pad 3 (ms mod 1000) ++ js "Z")%list.

Definition formatTimestamp (ts : option jsstring) : jsstring :=
  match ts with
  | Some (c :: s) =>
      let ts := c :: s in
      match parseInt ts with
      | Some t =>
          if valid_time t
          then replace_char "T" " " (slice0 16 (toISOString t))
          else ts                           (* RangeError caught: String(ts) *)
      | None => ts
      end
  | _ => js "Unknown date"
  end.

Close Scope Z_scope.

(* ------------------------------------------------------------------ *)
(** ** URL extraction *)

(** [[...new Set(l)]]: first occurrences, in order. *)
Definition set_add (acc : list jsstring) (x : jsstring) : list jsstring :=
  if existsb (jsstring_eqb x) acc then acc else acc ++ [x].

Definition set_of (l : list jsstring) : list jsstring :=
  fold_left set_add l [].

Definition strip_trailing_punct (url : jsstring) : jsstring :=
  replace_first re_trailing_punct (const_str []) url.

Definition extractUrlsFromContent (content : jsstring) : list jsstring :=
  match content with
  | [] => []
  | _ => set_of (map strip_trailing_punct (match_all urlPattern content))
  end.

(* ------------------------------------------------------------------ *)
(** ** CRM records *)

(** The [properties] object of a CRM record: property name to value,
    [None] where the property is absent or [null]. *)
Definition properties_t := string -> option jsstring.

Record crm_object := CrmObject {
  id : jsstring;
  properties : option properties_t;
  engagement_type : option jsstring      (* the [_engagement_type] stamp *)
}.

(** [(o.properties || {}).name], also [o.properties?.name]. *)
Definition prop (o : crm_object) (name : string) : option jsstring :=
  match properties o with
  | Some p => p name
  | None => None
  end.

(** [Object.entries] order of an object with non-numeric keys: insertion
    order.  The collected URL mapping is such an object. *)
Definition url_map := list (jsstring * list jsstring).

Fixpoint obj_get (m : url_map) (k : jsstring) : option (list jsstring) :=
  match m with
  | [] => None
  | (k', v) :: t => if jsstring_eqb k' k then Some v else obj_get t k
  end.

Fixpoint obj_set (m : url_map) (k : jsstring) (v : list jsstring) : url_map :=
  match m with
  | [] => [(k, v)]
  | (k', v') :: t =>
      if jsstring_eqb k' k then (k', v) :: t else (k', v') :: obj_set t k v
  end.

(* ------------------------------------------------------------------ *)
(** ** [collectAllUrls] *)

(** The [content] and [context] variables of one iteration of the loop. *)
Definition content_and_context (eng : crm_object) : jsstring * jsstring :=
  let engType := or_else (engagement_type eng) (js "unknown") in
  let timestamp := formatTimestamp (prop eng "hs_timestamp") in
  if jsstring_eqb engType (js "emails") then
    (or_else (or_opt (prop eng "hs_email_text") (prop eng "hs_email_html")) [],
     js "Email: " ++ or_else (prop eng "hs_email_subject") (js "(No subject)")
       ++ js " (" ++ timestamp ++ js ")")
  else if jsstring_eqb engType (js "notes") then
    (or_else (prop eng "hs_note_body") [],
     js "Note (" ++ timestamp ++ js ")")
  else if jsstring_eqb engType (js "calls") then
    (or_else (prop eng "hs_call_body") [],
     js "Call: " ++ or_else (prop eng "hs_call_title") (js "Call")
       ++ js " (" ++ timestamp ++ js ")")
  else if jsstring_eqb engType (js "meetings") then
    (or_else (prop eng "hs_meeting_body") [],
     js "Meeting: " ++ or_else (prop eng "hs_meeting_title") (js "Meeting")
       ++ js " (" ++ timestamp ++ js ")")
  else if jsstring_eqb engType (js "tasks") then
    (or_else (prop eng "hs_task_body") [],
     js "Task: " ++ or_else (prop eng "hs_task_subject") (js "Task")
       ++ js " (" ++ timestamp ++ js ")")
  else ([], []).

Definition engContent (eng : crm_object) : jsstring :=
  fst (content_and_context eng).

Definition engContext (eng : crm_object) : jsstring :=
  snd (content_and_context eng).

(** [if (!allUrls[url]) allUrls[url] = []; allUrls[url].push(context)] *)
Definition push_context (context : jsstring) (allUrls : url_map)
  (url : jsstring) : url_map :=
  let allUrls :=
    match obj_get allUrls url with
    | None => obj_set allUrls url []
    | Some _ => allUrls
    end in
  match obj_get allUrls url with
  | Some contexts => obj_set allUrls url (contexts ++ [context])
  | None => allUrls
  end.

Definition collect_step (allUrls : url_map) (eng : crm_object) : url_map :=
  let '(content, context) := content_and_context eng in
  let urls := extractUrlsFromContent content in
  fold_left (push_context context) urls allUrls.

Definition collectAllUrls (engagements : list crm_object) : url_map :=
  fold_left collect_step engagements [].

(* ------------------------------------------------------------------ *)
(** ** [Array.prototype.sort]

    The sort is stable (ECMAScript 2019); with a consistent comparator its
    result is the stable sorted arrangement, computed here by insertion
    from the right. *)

Section ArraySort.
Variable A : Type.
Variable compareFn : A -> A -> Z.

Fixpoint sort_insert (x : A) (l : list A) : list A :=
  match l with
  | [] => [x]
  | y :: t =>
      if (compareFn x y <=? 0)%Z then x :: y :: t
      else y :: sort_insert x t
  end.

Definition array_sort (l : list A) : list A :=
  fold_right sort_insert [] l.
End ArraySort.

(** [parseInt(a.properties?.hs_timestamp) || 0]: the Number read from the
    timestamp, 0 for [NaN]. *)
Definition tsOf (a : crm_object) : Z :=
  match parseInt_opt (prop a "hs_timestamp") with
  | Some n => number_value n
  | None => 0%Z
  end.

(** The comparator [(a, b) => tsA - tsB].  The difference of two Numbers
    has the sign of their exact difference, and [Infinity - Infinity] is
    [NaN], which [sort] takes for 0; so the exact difference orders the
    records as the code does. *)
Definition byTimestamp (a b : crm_object) : Z := (tsOf a - tsOf b)%Z.

(** [[...engagements].sort(...)] *)
Definition sortedEngagements (engagements : list crm_object)
  : list crm_object :=
  array_sort byTimestamp engagements.

(* ------------------------------------------------------------------ *)
(** ** Text cleaning and document assembly

    Three operations of the platform are left abstract: the entity
    decoding the browser performs when [innerHTML] of a [textarea] is set
    and its [value] read back, and the two floating-point expressions that
    render a call duration. *)

Section Assembly.
(** [textarea.innerHTML = text; textarea.value] *)
Variable textareaValue : jsstring -> jsstring.
(** [String(Math.floor(parseFloat(duration) / 60))] *)
Variable floorMinutes : jsstring -> jsstring.
(** [String(Math.floor(parseFloat(duration) % 60))] *)
Variable floorSeconds : jsstring -> jsstring.

Definition decodeHtmlEntities (text : jsstring) : jsstring :=
  textareaValue text.

(** The steps of [stripHtml] after entity decoding. *)
Definition stripHtml_decoded (clean : jsstring) (preserveUrls : bool)
  : jsstring :=
  let clean :=
    if negb preserveUrls then
      let clean := replace_all re_wrapped_url (const_str []) clean in
      replace_all re_bare_url (const_str []) clean
    else
      replace_all re_wrapped_url group1_unwrap clean in
  let clean := replace_all re_email_line (const_str []) clean in
  let clean := replace_all re_phone_line (const_str []) clean in
  let clean := replace_all re_quoted_reply (const_str []) clean in
  let clean := replace_all re_quote_line (const_str []) clean in
  let clean := replace_all re_header_line (const_str []) clean in
  let clean := replace_all re_newlines3 (const_str [LF; LF]) clean in
  let clean := replace_all re_blanks (const_str (js " ")) clean in
  let clean := replace_all re_blank_lines (const_str [LF; LF]) clean in
  trim clean.

Definition stripHtml (htmlContent : option jsstring) (preserveUrls : bool)
  : jsstring :=
  match htmlContent with
  | Some (c :: s) =>
      let clean := replace_all re_tag (const_str (js " ")) (c :: s) in
      let clean := decodeHtmlEntities clean in
      stripHtml_decoded clean preserveUrls
  | _ => []
  end.

(** [a || b] on two strings. *)
Definition or_str (a b : jsstring) : jsstring :=
  match a with
  | [] => b
  | _ => a
  end.

(** The header lines pushed first. *)
Definition header_lines (deal : crm_object) : list jsstring :=
  let dealName := or_else (prop deal "dealname") (js "Unknown Deal") in
  [js "# Deal: " ++ dealName;
   LF :: js "**Amount:** " ++ or_else (prop deal "amount") (js "N/A");
   js "**Stage:** " ++ or_else (prop deal "dealstage") (js "N/A");
   js "**Created:** " ++ or_else (prop deal "createdate") (js "N/A");
   js "**Close Date:** " ++ or_else (prop deal "closedate") (js "N/A")]
  ++ (if truthy (prop deal "description")
      then [js "**Description:** " ++ or_else (prop deal "description") []]
      else [])
  ++ [[]].

Definition contact_line (c : crm_object) : jsstring :=
  let name :=
    or_str (trim (or_else (prop c "firstname") [] ++ js " "
                  ++ or_else (prop c "lastname") []))
           (js "Unknown") in
  let email := or_else (prop c "email") (js "N/A") in
  let company := or_else (prop c "company") [] in
  js "- " ++ name ++ js " (" ++ email ++ js ")"
  ++ match company with [] => [] | _ => js " - " ++ company end.

Definition contacts_lines (contacts : list crm_object) : list jsstring :=
  match contacts with
  | [] => []
  | _ => [js "## Associated Contacts"] ++ map contact_line contacts ++ [[]]
  end.

Definition company_line (c : crm_object) : jsstring :=
  let name := or_else (prop c "name") (js "Unknown") in
  let domain := or_else (prop c "domain") [] in
  let industry := or_else (prop c "industry") [] in
  js "- **" ++ name ++ js "**"
  ++ match domain with [] => [] | _ => js " (" ++ domain ++ js ")" end
  ++ match industry with [] => [] | _ => js " - " ++ industry end.

Definition companies_lines (companies : list crm_object) : list jsstring :=
  match companies with
  | [] => []
  | _ => [js "## Associated Companies"] ++ map company_line companies ++ [[]]
  end.

(** [if (body) lines.push(`\n${stripHtml(body, true)}\n`)] *)
Definition body_lines (body : jsstring) : list jsstring :=
  match body with
  | [] => []
  | _ => [LF :: stripHtml (Some body) true ++ [LF]]
  end.

(** The lines one engagement contributes to the timeline. *)
Definition engagement_lines (eng : crm_object) : list jsstring :=
  let engType := or_else (engagement_type eng) (js "unknown") in
  let timestamp := formatTimestamp (prop eng "hs_timestamp") in
  if jsstring_eqb engType (js "emails") then
    let subject := or_else (prop eng "hs_email_subject") (js "(No subject)") in
    let direction := or_else (prop eng "hs_email_direction") [] in
    let fromEmail := or_else (prop eng "hs_email_from_email") [] in
    let toEmail := or_else (prop eng "hs_email_to_email") [] in
    let body := or_str (stripHtml (prop eng "hs_email_text") true)
                       (stripHtml (prop eng "hs_email_html") true) in
    let dirLabel := if jsstring_eqb direction (js "EMAIL")
                    then js "OUTBOUND" else js "INBOUND" in
    [js "### [" ++ timestamp ++ js "] EMAIL (" ++ dirLabel ++ js ")";
     js "**Subject:** " ++ subject;
     js "**From:** " ++ fromEmail ++ js " -> **To:** " ++ toEmail;
     LF :: body ++ [LF];
     js "---"]
  else if jsstring_eqb engType (js "notes") then
    let body := or_str (stripHtml (prop eng "hs_note_body") true)
                       (or_else (prop eng "hs_body_preview") []) in
    [js "### [" ++ timestamp ++ js "] NOTE";
     LF :: body ++ [LF];
     js "---"]
  else if jsstring_eqb engType (js "calls") then
    let title := or_else (prop eng "hs_call_title") (js "Call") in
    let duration := or_else (prop eng "hs_call_duration") [] in
    let body := or_else (prop eng "hs_call_body") [] in
    let durationStr :=
      match duration with
      | [] => []
      | _ => js " (" ++ floorMinutes duration ++ js "m "
             ++ floorSeconds duration ++ js "s)"
      end in
    [js "### [" ++ timestamp ++ js "] CALL: " ++ title ++ durationStr]
    ++ body_lines body
    ++ [js "---"]
  else if jsstring_eqb engType (js "meetings") then
    let title := or_else (prop eng "hs_meeting_title") (js "Meeting") in
    let body := or_else (prop eng "hs_meeting_body") [] in
    let outcome := or_else (prop eng "hs_meeting_outcome") [] in
    [js "### [" ++ timestamp ++ js "] MEETING: " ++ title]
    ++ match outcome with [] => [] | _ => [js "**Outcome:** " ++ outcome] end
    ++ body_lines body
    ++ [js "---"]
  else if jsstring_eqb engType (js "tasks") then
    let subject := or_else (prop eng "hs_task_subject") (js "Task") in
    let status := or_else (prop eng "hs_task_status") [] in
    let body := or_else (prop eng "hs_task_body") [] in
    [js "### [" ++ timestamp ++ js "] TASK: " ++ subject ++ js " ["
     ++ status ++ js "]"]
    ++ body_lines body
    ++ [js "---"]
  else [].

Definition timeline_lines (engagements : list crm_object) : list jsstring :=
  let sorted := sortedEngagements engagements in
  [js "## Activity Timeline (Chronological)";
   js "*" ++ string_of_nat (List.length sorted) ++ js " total activities*"
     ++ [LF]]
  ++ flat_map engagement_lines sorted.

(** The classification of one URL of the index. *)
Inductive bucket := DocUrl | HubspotUrl | OtherUrl.

Definition doc_hosts : list jsstring :=
  [js "docs.google"; js "drive.google"; js "notion.so"; js "dropbox";
   js "sharepoint"; js "onedrive"].

Definition classify (url : jsstring) : bucket :=
  let urlLower := toLowerCase url in
  if existsb (fun d => includes urlLower d) doc_hosts then DocUrl
  else if includes urlLower (js "hubspot") then HubspotUrl
  else OtherUrl.

Definition is_bucket (b : bucket) (e : jsstring * list jsstring) : bool :=
  match classify (fst e), b with
  | DocUrl, DocUrl | HubspotUrl, HubspotUrl | OtherUrl, OtherUrl => true
  | _, _ => false
  end.

(** [`- ${url}`] *)
Definition url_line (e : jsstring * list jsstring) : jsstring :=
  js "- " ++ fst e.

(** [`  *Found in: ${contexts.slice(0, 3).join(', ')}${contexts.length > 3 ? '...' : ''}*`] *)
Definition found_in_line (contexts : list jsstring) : jsstring :=
  js "  *Found in: " ++ join (js ", ") (firstn 3 contexts)
  ++ (if 3 <? List.length contexts then js "..." else []) ++ js "*".

Definition doc_url_lines (e : jsstring * list jsstring) : list jsstring :=
  [url_line e; found_in_line (snd e)].

(** [if (docUrls.length > 0) { ... }] *)
Definition docs_section (docUrls : url_map) : list jsstring :=
  match docUrls with
  | [] => []
  | _ => js "### Meeting Notes & Documents" :: flat_map doc_url_lines docUrls
  end.

(** [if (hubspotUrls.length > 0) { ... }] *)
Definition hubspot_section (hubspotUrls : url_map) : list jsstring :=
  match hubspotUrls with
  | [] => []
  | _ => (LF :: js "### HubSpot Links") :: map url_line hubspotUrls
  end.

(** [if (otherUrls.length > 0) { ... }] *)
Definition other_section (otherUrls : url_map) : list jsstring :=
  match otherUrls with
  | [] => []
  | _ => (LF :: js "### Other Links")
         :: map url_line (firstn 20 otherUrls)
         ++ (if 20 <? List.length otherUrls
             then [js "*... and "
                   ++ string_of_nat (List.length otherUrls - 20)
                   ++ js " more*"]
             else [])
  end.

Definition url_index_lines (collectedUrls : url_map) : list jsstring :=
  match collectedUrls with
  | [] => []
  | _ =>
      let docUrls := filter (is_bucket DocUrl) collectedUrls in
      let hubspotUrls := filter (is_bucket HubspotUrl) collectedUrls in
      let otherUrls := filter (is_bucket OtherUrl) collectedUrls in
      [LF :: js "## Linked Documents & URLs";
       js "*" ++ string_of_nat (List.length collectedUrls)
         ++ js " unique URLs found in deal activities*" ++ [LF]]
      ++ docs_section docUrls
      ++ hubspot_section hubspotUrls
      ++ other_section otherUrls
      ++ [[]]
  end.

Definition document_lines (deal : crm_object)
  (contacts companies engagements : list crm_object)
  (collectedUrls : url_map) : list jsstring :=
  header_lines deal ++ contacts_lines contacts ++ companies_lines companies
  ++ timeline_lines engagements ++ url_index_lines collectedUrls.

Definition formatDealForClaude (deal : crm_object)
  (contacts companies engagements : list crm_object)
  (collectedUrls : url_map) : jsstring :=
  join [LF] (document_lines deal contacts companies engagements
               collectedUrls).

(* ---------------------------------------------------------------- *)
(** ** The HubSpot client

    A remote answers every request with a success flag and a status;
    the body of a successful answer is read at the shape the calling
    operation expects.  A computation threads the log of the requests
    issued so far and ends with a value, with a thrown [Error] (its
    message), or does not end within the given number of loop turns. *)

Inductive http_method := GET | POST.

(** The body of a batch read: [{ inputs: [{id}], properties }]. *)
Record batch_payload := BatchPayload {
  inputs : list jsstring;
  payload_properties : list string
}.

Record request := Request {
  url : jsstring;
  method : http_method;
  authorization : jsstring;
  body : option batch_payload
}.

Record edge := Edge { toObjectId : option nat }.

Record next_t := Next { link : option jsstring }.
Record paging_t := Paging { next : option next_t }.

Record assoc_page := AssocPage {
  results : option (list edge);
  paging : option paging_t
}.

Record batch_result := BatchResult {
  batch_results : option (list crm_object)
}.

Record remote := Remote {
  response_ok : request -> bool;
  response_status : request -> nat;
  deal_json : request -> option crm_object;
  page_json : request -> assoc_page;
  batch_json : request -> batch_result
}.

Inductive outcome (A : Type) :=
| Done (a : A)
| Throw (message : jsstring)
| Diverge.
Arguments Throw {A} message.
Arguments Diverge {A}.

Definition M (A : Type) : Type := list request -> outcome A * list request.

Definition ret {A} (a : A) : M A := fun log => (Done a, log).

Definition bind {A B} (m : M A) (k : A -> M B) : M B :=
  fun log =>
    match m log with
    | (Done a, log') => k a log'
    | (Throw e, log') => (Throw e, log')
    | (Diverge, log') => (Diverge, log')
    end.

Definition throw {A} (message : jsstring) : M A :=
  fun log => (Throw message, log).

Definition diverge {A} : M A := fun log => (Diverge, log).

Notation "x <- m ;; k" := (bind m (fun x => k))
  (at level 61, m at next level, right associativity).

(** How two operations that were started together proceed, which the
    timing of the answers decides: whose request comes next ([true]: the
    first operation's), and which operation settles first. *)
Record schedule := Schedule {
  turns : list bool;
  first_settles : bool
}.

Fixpoint interleave (turns : list bool) (qa qb : list request)
  : list request :=
  match turns with
  | [] => qa ++ qb
  | true :: turns' =>
      match qa with
      | [] => qb
      | x :: qa' => x :: interleave turns' qa' qb
      end
  | false :: turns' =>
      match qb with
      | [] => qa
      | y :: qb' => y :: interleave turns' qa qb'
      end
  end.

(** The order in which the requests [qa] and [qb] of two operations are
    issued when the first operation is called and then the second: each
    call issues the first request of its operation before it returns, the
    later requests follow the schedule. *)
Definition issue_order (sched : schedule) (qa qb : list request)
  : list request :=
  firstn 1 qa ++ firstn 1 qb
  ++ interleave (turns sched) (skipn 1 qa) (skipn 1 qb).

(** [Promise.all([a, b])].  Both operations are started on the log as it
    is and run to their ends, whatever happens to the other one: an
    operation is not cancelled when the result is rejected, so the requests
    of both are logged, in the order of the schedule.  The result is
    rejected with the error of the operation that throws, of the one that
    settles first if both throw; it stays pending if an operation does not
    end and none throws. *)
Definition promise_all {A B} (sched : schedule) (a : M A) (b : M B)
  : M (A * B) :=
  fun log =>
    let '(ra, loga) := a log in
    let '(rb, logb) := b log in
    let qa := skipn (List.length log) loga in
    let qb := skipn (List.length log) logb in
    (match ra, rb with
     | Throw ea, Throw eb => Throw (if first_settles sched then ea else eb)
     | Throw ea, _ => Throw ea
     | _, Throw eb => Throw eb
     | Done x, Done y => Done (x, y)
     | _, _ => Diverge
     end, log ++ issue_order sched qa qb).

Definition HUBSPOT_BASE_URL : jsstring := js "https://api.hubapi.com".

Definition api_error (status : nat) : jsstring :=
  js "HubSpot API error: " ++ string_of_nat status.

Section Client.
Variable srv : remote.
Variable token : jsstring.
Variable dealId : jsstring.

Definition mk_request (u : jsstring) (m : http_method)
  (b : option batch_payload) : request :=
  Request u m (js "Bearer " ++ token) b.

(** [HubSpotClient.fetch]: one request; a non-success answer throws. *)
Definition client_fetch {A} (json : request -> A) (req : request) : M A :=
  fun log =>
    if response_ok srv req
    then (Done (json req), log ++ [req])
    else (Throw (api_error (response_status srv req)), log ++ [req]).

Definition deal_props : jsstring :=
  js "dealname,amount,dealstage,pipeline,closedate,createdate,hubspot_owner_id,description,hs_lastmodifieddate".

Definition getDeal : M (option crm_object) :=
  let u := HUBSPOT_BASE_URL ++ js "/crm/v3/objects/deals/" ++ dealId
           ++ js "?properties=" ++ deal_props in
  client_fetch (deal_json srv) (mk_request u GET None).

(** [data.paging?.next?.link || null] *)
Definition next_link (data : assoc_page) : option jsstring :=
  match paging data with
  | Some p =>
      match next p with
      | Some n => if truthy (link n) then link n else None
      | None => None
      end
  | None => None
  end.

(** [data.results || []] *)
Definition page_results (data : assoc_page) : list edge :=
  match results data with
  | Some r => r
  | None => []
  end.

(** The [while (nextUrl)] loop of [getAssociations]; [fuel] bounds the
    number of turns. *)
Fixpoint pages_loop (fuel : nat) (nextUrl : option jsstring)
  (allResults : list edge) : M (list edge) :=
  match nextUrl with
  | Some (c :: u) =>
      match fuel with
      | O => diverge
      | S fuel' =>
          data <- client_fetch (page_json srv)
                    (mk_request (c :: u) GET None) ;;
          pages_loop fuel' (next_link data)
            (allResults ++ page_results data)
      end
  | _ => ret allResults
  end.

Definition assoc_url (toObject : jsstring) : jsstring :=
  HUBSPOT_BASE_URL ++ js "/crm/v4/objects/deals/" ++ dealId
  ++ js "/associations/" ++ toObject.

Definition getAssociations (fuel : nat) (toObject : jsstring)
  : M (list edge) :=
  pages_loop fuel (Some (assoc_url toObject)) [].

Definition getObjectBatch (objectType : jsstring) (objectIds : list nat)
  (props : list string) : M (list crm_object) :=
  match objectIds with
  | [] => ret []
  | _ =>
      let u := HUBSPOT_BASE_URL ++ js "/crm/v3/objects/" ++ objectType
               ++ js "/batch/read" in
      let payload := BatchPayload (map string_of_nat objectIds) props in
      data <- client_fetch (batch_json srv)
                (mk_request u POST (Some payload)) ;;
      ret (match batch_results data with Some r => r | None => [] end)
  end.

(** [assocs.map(a => a.toObjectId).filter(Boolean)] *)
Definition target_ids (assocs : list edge) : list nat :=
  flat_map (fun a => match toObjectId a with
                     | Some (S n) => [S n]
                     | _ => []
                     end) assocs.

Definition getContacts (fuel : nat) : M (list crm_object) :=
  assocs <- getAssociations fuel (js "contacts") ;;
  getObjectBatch (js "contacts") (target_ids assocs)
    ["firstname"; "lastname"; "email"; "phone"; "company"]%string.

Definition getCompanies (fuel : nat) : M (list crm_object) :=
  assocs <- getAssociations fuel (js "companies") ;;
  getObjectBatch (js "companies") (target_ids assocs)
    ["name"; "domain"; "industry"]%string.

Definition engagementConfig : list (jsstring * list string) :=
  [(js "emails",
    ["hs_email_subject"; "hs_email_text"; "hs_email_html"; "hs_timestamp";
     "hs_email_direction"; "hs_email_from_email"; "hs_email_to_email";
     "hs_email_from_firstname"; "hs_email_from_lastname"]%string);
   (js "notes",
    ["hs_note_body"; "hs_timestamp"; "hubspot_owner_id";
     "hs_body_preview"]%string);
   (js "calls",
    ["hs_call_body"; "hs_call_title"; "hs_timestamp"; "hs_call_duration";
     "hs_call_direction"; "hs_call_status"; "hs_call_from_number";
     "hs_call_to_number"; "hs_call_recording_url"]%string);
   (js "meetings",
    ["hs_meeting_title"; "hs_meeting_body"; "hs_timestamp";
     "hs_meeting_start_time"; "hs_meeting_end_time";
     "hs_meeting_outcome"]%string);
   (js "tasks",
    ["hs_task_subject"; "hs_task_body"; "hs_timestamp";
     "hs_task_status"; "hs_task_priority"]%string)].

(** [d._engagement_type = engType] *)
Definition stamp (engType : jsstring) (d : crm_object) : crm_object :=
  CrmObject (id d) (properties d) (Some engType).

(** The [for ... of Object.entries(engagementConfig)] loop. *)
Fixpoint engagements_loop (fuel : nat)
  (config : list (jsstring * list string))
  (allEngagements : list crm_object) : M (list crm_object) :=
  match config with
  | [] => ret allEngagements
  | (engType, props) :: config' =>
      associations <- getAssociations fuel engType ;;
      let objectIds := target_ids associations in
      match objectIds with
      | [] => engagements_loop fuel config' allEngagements
      | _ =>
          details <- getObjectBatch engType objectIds props ;;
          engagements_loop fuel config'
            (allEngagements ++ map (stamp engType) details)
      end
  end.

Definition getAllEngagements (fuel : nat) : M (list crm_object) :=
  engagements_loop fuel engagementConfig [].

(** The part of [runAnalysis] that produces [dealContent]: the body of
    its [try] block down to the call of [formatDealForClaude].  A
    thrown error reaches the [catch] block, which shows its message.
    The schedule is that of the two operations [Promise.all] starts. *)
Definition runAnalysis_dealContent (sched : schedule) (fuel : nat)
  : M jsstring :=
  deal <- getDeal ;;
  match deal with
  | None =>
      throw (js "Could not fetch deal. Please check the URL and your access permissions.")
  | Some deal =>
      cc <- promise_all sched (getContacts fuel) (getCompanies fuel) ;;
      let '(contacts, companies) := cc in
      engagements <- getAllEngagements fuel ;;
      let collectedUrls := collectAllUrls engagements in
      ret (formatDealForClaude deal contacts companies engagements
             collectedUrls)
  end.
End Client.
End Assembly.

Arguments Throw {A} message.
Arguments Diverge {A}.

(* ------------------------------------------------------------------ *)
(** ** Notions used by the statements *)

(** A listing of association pages as the remote serves it from [u]: each
    page is answered successfully at its address and carries the address of
    the next one; the last page carries none. *)
Inductive paged_listing (srv : remote) (token : jsstring)
  : jsstring -> list (jsstring * assoc_page) -> Prop :=
| listing_last : forall u pg,
    u <> [] ->
    response_ok srv (mk_request token u GET None) = true ->
    page_json srv (mk_request token u GET None) = pg ->
    next_link pg = None ->
    paged_listing srv token u [(u, pg)]
| listing_more : forall u pg u' pgs,
    u <> [] ->
    response_ok srv (mk_request token u GET None) = true ->
    page_json srv (mk_request token u GET None) = pg ->
    next_link pg = Some u' ->
    paged_listing srv token u' pgs ->
    paged_listing srv token u ((u, pg) :: pgs).

(** The request [getAssociations] issues for a page of a listing. *)
Definition page_request (token : jsstring) (p : jsstring * assoc_page)
  : request :=
  mk_request token (fst p) GET None.

(** The request was answered with a non-success status. *)
Definition failed (srv : remote) (req : request) : Prop :=
  response_ok srv req = false.

Definition succeeded (srv : remote) (req : request) : Prop :=
  response_ok srv req = true.

Definition all_ok (srv : remote) (reqs : list request) : Prop :=
  Forall (succeeded srv) reqs.

(** The requests end with the only one that failed, and [message] reports
    its status. *)
Definition ends_in_failure (srv : remote) (reqs : list request)
  (message : jsstring) : Prop :=
  exists pre r,
    reqs = pre ++ [r] /\ all_ok srv pre /\ failed srv r /\
    message = api_error (response_status srv r).

(** An operation of the client: it only appends to the log, and either all
    its requests succeed and it throws nothing, or its last request is the
    one that failed and it throws the error of that request. *)
Definition fetch_disciplined {A : Type} (srv : remote) (m : M A) : Prop :=
  forall log, exists reqs,
    snd (m log) = log ++ reqs /\
    ((all_ok srv reqs /\ forall e, fst (m log) <> Throw e) \/
     (exists e, fst (m log) = Throw e /\ ends_in_failure srv reqs e)).

(** Nothing is requested after a request that failed. *)
Definition stops_at_failure (srv : remote) (reqs : list request) : Prop :=
  forall pre r post, reqs = pre ++ r :: post -> failed srv r -> post = [].

(** Printable ASCII text without an ampersand or a left angle bracket:
    text in which the browser finds no character reference, no tag and
    nothing to normalise. *)
Definition plain_text (s : jsstring) : bool :=
  forallb (fun c => (32 <=? code c) && (code c <=? 126)
                    && negb (Ascii.eqb c "&") && negb (Ascii.eqb c "<")) s.

Definition decodes_plain_text (textareaValue : jsstring -> jsstring) : Prop :=
  forall s, plain_text s = true -> textareaValue s = s.

(** URL collection as the specification words it: the content of a record
    is cleaned first and the URLs are taken from the cleaned text. *)
Definition collect_step_sanitized (textareaValue : jsstring -> jsstring)
  (allUrls : url_map) (eng : crm_object) : url_map :=
  let '(content, context) := content_and_context eng in
  let urls :=
    extractUrlsFromContent (stripHtml textareaValue (Some content) true) in
  fold_left (push_context context) urls allUrls.

Definition collectAllUrls_sanitized (textareaValue : jsstring -> jsstring)
  (engagements : list crm_object) : url_map :=
  fold_left (collect_step_sanitized textareaValue) engagements [].

(** The record's content yields [url] on extraction. *)
Definition mentions (url : jsstring) (eng : crm_object) : bool :=
  existsb (jsstring_eqb url) (extractUrlsFromContent (engContent eng)).

(** [allUrls[url] || []] *)
Definition contexts_of (allUrls : url_map) (url : jsstring) : list jsstring :=
  match obj_get allUrls url with
  | Some contexts => contexts
  | None => []
  end.

(** What a context label is built from. *)
Definition label_inputs (eng : crm_object)
  : option jsstring * option jsstring * option jsstring * option jsstring
    * option jsstring * option jsstring :=
  (engagement_type eng, prop eng "hs_email_subject", prop eng "hs_call_title",
   prop eng "hs_meeting_title", prop eng "hs_task_subject",
   prop eng "hs_timestamp").


Definition ts_le (a b : crm_object) : Prop := (tsOf a <= tsOf b)%Z.

Definition has_ts (k : Z) (e : crm_object) : bool := (tsOf e =? k)%Z.





(** Lines of the URL index by their leading text. *)
Definition is_found_in (line : jsstring) : bool :=
  starts_with (js "  *Found in: ") line.

Definition is_url_entry (line : jsstring) : bool :=
  starts_with (js "- ") line.

(** A URL the pattern matches in full and that ends in no punctuation:
    a scheme, then at least two admissible characters, the last of which is
    none of [.,;:]. *)
Definition url_scheme (s : jsstring) : Prop :=
  s = js "http://" \/ s = js "https://".

Definition clean_url (u : jsstring) : Prop :=
  exists scheme b0 mid last,
    u = scheme ++ b0 :: mid ++ [last] /\
    url_scheme scheme /\
    is_url_char b0 = true /\
    forallb is_url_char mid = true /\
    is_url_char last = true /\
    is_trailing_punct last = false.

(** The text ends, or goes on with a character no URL can hold. *)
Definition at_boundary (post : jsstring) : bool :=
  match post with
  | [] => true
  | x :: _ => negb (is_url_char x)
  end.

(** [w] occurs in [content] between two such boundaries. *)
Definition occurs_delimited (w content : jsstring) : Prop :=
  exists pre post,
    content = pre ++ w ++ post /\
    at_boundary (rev pre) = true /\ at_boundary post = true.

(** Property objects written as association lists. *)
Definition props_of (l : list (string * string)) : properties_t :=
  fun name =>
    match find (fun kv => String.eqb (fst kv) name) l with
    | Some kv => Some (js (snd kv))
    | None => None
    end.

Definition same_text : jsstring -> jsstring := fun s => s.

(* ------------------------------------------------------------------ *)
(** ** Sample data *)

(** Two records without a timestamp, and one dated before the epoch. *)
Definition eng_id2 : crm_object := CrmObject (js "2") None (Some (js "notes")).
Definition eng_id1 : crm_object := CrmObject (js "1") None (Some (js "notes")).
Definition eng_before_epoch : crm_object :=
  CrmObject (js "3") (Some (props_of [("hs_timestamp", "-5")]%string))
    (Some (js "notes")).


(** Two records whose timestamps, 2^53 + 1 and 2^53, are the same Number. *)
Definition eng_above_2p53 : crm_object :=
  CrmObject (js "6")
    (Some (props_of [("hs_timestamp", "9007199254740993")]%string))
    (Some (js "notes")).
Definition eng_2p53 : crm_object :=
  CrmObject (js "7")
    (Some (props_of [("hs_timestamp", "9007199254740992")]%string))
    (Some (js "notes")).

(** A deal whose answer carries no property at all. *)
Definition deal_without_properties : crm_object :=
  CrmObject (js "42") None None.

(** A collected mapping with one CRM link and one link of neither kind. *)
Definition sample_plain_urls : url_map :=
  [(js "http://example.com/y", [js "Note (Unknown date)"]);
   (js "https://app.hubspot.com/contacts/1", [js "Call: Intro (Unknown date)"])].

(** A remote that serves the contacts of deal 7 in two pages. *)
Definition sample_token : jsstring := js "pat-token".
Definition sample_dealId : jsstring := js "7".

Definition sample_page1_url : jsstring :=
  js "https://api.hubapi.com/crm/v4/objects/deals/7/associations/contacts".
Definition sample_page2_url : jsstring :=
  js "https://api.hubapi.com/crm/v4/objects/deals/7/associations/contacts?after=2".

Definition sample_page1 : assoc_page :=
  AssocPage (Some [Edge (Some 11); Edge (Some 12)])
    (Some (Paging (Some (Next (Some sample_page2_url))))).
Definition sample_page2 : assoc_page :=
  AssocPage (Some [Edge (Some 13)]) None.

Definition sample_remote : remote :=
  Remote (fun _ => true) (fun _ => 200) (fun _ => None)
    (fun req => if jsstring_eqb (url req) sample_page1_url
                then sample_page1 else sample_page2)
    (fun _ => BatchResult None).

(** A remote that serves the deal but neither listing: the contacts are
    answered with status 429, everything else with 503. *)
Definition sample_remote_listings_down : remote :=
  Remote (fun req => match body req with
                     | None => negb (includes (url req) (js "/associations/"))
                     | Some _ => false
                     end)
    (fun req => if jsstring_eqb (url req) sample_page1_url then 429 else 503)
    (fun _ => Some (CrmObject (js "7") None None))
    (fun _ => AssocPage None None) (fun _ => BatchResult None).

(** A remote that answers every request with status 503. *)
Definition unavailable_remote : remote :=
  Remote (fun _ => false) (fun _ => 503) (fun _ => None)
    (fun _ => AssocPage None None) (fun _ => BatchResult None).

(** The content of the specification's example for text cleaning. *)
Definition sample_wrapped_text : jsstring :=
  js "Check <https://docs.google.com/x> and http://example.com/y.".

(** A note whose body wraps a link in angle brackets. *)
Definition sample_wrapped_note : crm_object :=
  CrmObject (js "5")
    (Some (props_of [("hs_note_body", "See <https://docs.google.com/x>")]%string))
    (Some (js "notes")).

(** Two records that mention the same address, the second one at the end
    of a sentence. *)
Definition sample_note_bare : crm_object :=
  CrmObject (js "21")
    (Some (props_of [("hs_note_body", "http://a.com/b");
                     ("hs_timestamp", "1700000000000")]%string))
    (Some (js "notes")).

Definition sample_call_punct : crm_object :=
  CrmObject (js "22")
    (Some (props_of [("hs_call_body", "http://a.com/b.");
                     ("hs_call_title", "Kickoff")]%string))
    (Some (js "calls")).

(** Three records: two mention the same address inside a sentence, the
    second one at the end of the sentence; the third mentions another. *)
Definition sample_note_sentence : crm_object :=
  CrmObject (js "23")
    (Some (props_of [("hs_note_body", "See http://a.com/b for the figures");
                     ("hs_timestamp", "1700000000000")]%string))
    (Some (js "notes")).

Definition sample_task_other : crm_object :=
  CrmObject (js "24")
    (Some (props_of [("hs_task_body", "Slides: https://docs.google.com/x, due Friday");
                     ("hs_task_subject", "Prepare")]%string))
    (Some (js "tasks")).

Definition sample_call_sentence : crm_object :=
  CrmObject (js "25")
    (Some (props_of [("hs_call_body", "Buyer asked for http://a.com/b. Send it.");
                     ("hs_call_title", "Kickoff")]%string))
    (Some (js "calls")).

(* ------------------------------------------------------------------ *)
(** ** [extractDealId] *)

(** [String.prototype.split] with a one-character separator. *)
Fixpoint split_on (sep : ascii) (s : jsstring) : list jsstring :=
  match s with
  | [] => [[]]
  | c :: t =>
      if Ascii.eqb c sep then [] :: split_on sep t
      else match split_on sep t with
           | x :: r => (c :: x) :: r
           | [] => [[c]]
           end
  end.

(** [String.prototype.match] with a pattern without the [g] flag: the text
    of the leftmost match. *)
Fixpoint match_first_from (r : regex) (prev : option ascii) (s : jsstring)
  : option jsstring :=
  match exec r (Cursor prev s) with
  | Some c' => Some (firstn (consumed s c') s)
  | None =>
      match s with
      | [] => None
      | a :: t => match_first_from r (Some a) t
      end
  end.

Definition match_first (r : regex) (s : jsstring) : option jsstring :=
  match_first_from r None s.

(** [RegExp.prototype.test] of a pattern that starts with [^] (no [m]
    flag): only the attempt at index 0 can succeed. *)
Definition test_from_start (r : regex) (s : jsstring) : bool :=
  match exec r (Cursor None s) with
  | Some _ => true
  | None => false
  end.

(** The three patterns of [extractDealId], each with the length of the
    text that precedes its capture group: [/\/record\/0-3\/(\d+)/],
    [/\/deal\/(\d+)/] and [/\/(\d{10,})/]. *)
Definition dealIdPatterns : list (regex * nat) :=
  [(Seqs [Lit "/record/0-3/"; Plus is_digit], 12);
   (Seqs [Lit "/deal/"; Plus is_digit], 6);
   (Seqs [Chr "/"; Rep 10 (Cls is_digit); Star is_digit], 1)].

(** The [for (const pattern of patterns)] loop: group 1 of the first
    pattern that matches. *)
Fixpoint first_group (patterns : list (regex * nat)) (urlPath : jsstring)
  : option jsstring :=
  match patterns with
  | [] => None
  | (pattern, k) :: patterns' =>
      match match_first pattern urlPath with
      | Some m => Some (skipn k m)
      | None => first_group patterns' urlPath
      end
  end.

(** [/\/$/] *)
Definition re_trailing_slash : regex := Seqs [Chr "/"; End].

(** [/^\d+$/], from the position [^] admits. *)
Definition re_all_digits : regex := Seqs [Plus is_digit; End].

Definition extractDealId (url : option jsstring) : option jsstring :=
  match url with
  | Some (c :: u) =>
      let urlPath := hd [] (split_on "?" (c :: u)) in
      match first_group dealIdPatterns urlPath with
      | Some d => Some d
      | None =>
          let segments :=
            split_on "/"
              (replace_first re_trailing_slash (const_str []) urlPath) in
          let lastSegment := List.last segments [] in
          if test_from_start re_all_digits lastSegment
          then Some lastSegment else None
      end
  | _ => None
  end.

(* ------------------------------------------------------------------ *)
(** ** [parseAnalysisSections] *)

Record analysis_section := AnalysisSection {
  sec_id : jsstring;
  sec_title : jsstring;
  sec_content : jsstring
}.

Record parse_state := ParseState {
  sections : list analysis_section;
  currentSection : option analysis_section;
  currentContent : list jsstring;
  sectionCounter : nat
}.

(** [if (currentSection) { currentSection.content = ...; sections.push(...) }] *)
Definition push_current (st : parse_state) : list analysis_section :=
  match currentSection st with
  | Some cur =>
      sections st
      ++ [AnalysisSection (sec_id cur) (sec_title cur)
            (trim (join [LF] (currentContent st)))]
  | None => sections st
  end.

(** One turn of the [for (const line of lines)] loop. *)
Definition parse_line (st : parse_state) (line : jsstring) : parse_state :=
  if starts_with (js "## ") line then
    let sectionCounter' := S (sectionCounter st) in
    ParseState (push_current st)
      (Some (AnalysisSection (js "section_" ++ string_of_nat sectionCounter')
               (trim (skipn 3 line)) []))
      [] sectionCounter'
  else
    match currentSection st with
    | Some _ =>
        ParseState (sections st) (currentSection st)
          (currentContent st ++ [line]) (sectionCounter st)
    | None =>
        match trim line with
        | [] => st
        | _ =>
            if existsb (fun s => jsstring_eqb (sec_id s) (js "intro"))
                 (sections st)
            then st
            else ParseState (sections st)
                   (Some (AnalysisSection (js "intro") (js "Introduction") []))
                   [line] (sectionCounter st)
        end
    end.

Definition parseAnalysisSections (markdown : jsstring)
  : list analysis_section :=
  push_current
    (fold_left parse_line (split_on LF markdown)
       (ParseState [] None [] 0)).

(* ------------------------------------------------------------------ *)
(** ** Further notions used by the statements *)

(** The texts a pattern can consume, the anchors consuming nothing. *)
Fixpoint denotes (r : regex) (w : jsstring) : Prop :=
  match r with
  | Eps => w = []
  | Cls p => exists a, w = [a] /\ p a = true
  | Seq r1 r2 => exists w1 w2, w = w1 ++ w2 /\ denotes r1 w1 /\ denotes r2 w2
  | Alt r1 r2 => denotes r1 w \/ denotes r2 w
  | Star p => forallb p w = true
  | StarLazy p => forallb p w = true
  | BolM => w = []
  | EolM => w = []
  | End => w = []
  end.

Definition no_char (c : ascii) (s : jsstring) : bool :=
  forallb (fun a => negb (Ascii.eqb a c)) s.

(** A record page address as HubSpot writes it, with a query string. *)
Definition sample_deal_url : jsstring :=
  js "https://app.hubspot.com/contacts/4321/record/0-3/9876543210/?eschref=x".

(** Lines that open a section, and the title such a line gives. *)
Definition is_heading (line : jsstring) : bool := starts_with (js "## ") line.

Definition heading_title (line : jsstring) : jsstring := trim (skipn 3 line).

Definition section_label (k : nat) : jsstring :=
  js "section_" ++ string_of_nat k.

Definition is_intro (s : analysis_section) : bool :=
  jsstring_eqb (sec_id s) (js "intro").

Definition is_blank_line (line : jsstring) : bool :=
  match trim line with
  | [] => true
  | _ => false
  end.

(** The lines before the first heading. *)
Fixpoint preamble (lines : list jsstring) : list jsstring :=
  match lines with
  | [] => []
  | l :: t => if is_heading l then [] else l :: preamble t
  end.

(** The sections the loop of [parseAnalysisSections] yields once a section
    is open: the open section with the lines gathered so far, then one
    section per later heading. *)
Fixpoint sections_from (cur : analysis_section) (content : list jsstring)
  (k : nat) (lines : list jsstring) : list analysis_section :=
  match lines with
  | [] =>
      [AnalysisSection (sec_id cur) (sec_title cur) (trim (join [LF] content))]
  | l :: t =>
      if is_heading l then
        AnalysisSection (sec_id cur) (sec_title cur) (trim (join [LF] content))
        :: sections_from
             (AnalysisSection (section_label (S k)) (heading_title l) [])
             [] (S k) t
      else sections_from cur (content ++ [l]) k t
  end.

(** The same before any section is open. *)
Fixpoint sections_start (lines : list jsstring) : list analysis_section :=
  match lines with
  | [] => []
  | l :: t =>
      if is_heading l then
        sections_from (AnalysisSection (section_label 1) (heading_title l) [])
          [] 1 t
      else if is_blank_line l then sections_start t
      else sections_from (AnalysisSection (js "intro") (js "Introduction") [])
             [l] 0 t
  end.

(** A listing whose pages from [u] on are served successfully and lead to
    the address [u'], which has not been fetched yet. *)
Inductive paged_prefix (srv : remote) (token : jsstring)
  : jsstring -> list (jsstring * assoc_page) -> jsstring -> Prop :=
| prefix_nil : forall u, paged_prefix srv token u [] u
| prefix_cons : forall u pg u' pgs u'',
    u <> [] ->
    response_ok srv (mk_request token u GET None) = true ->
    page_json srv (mk_request token u GET None) = pg ->
    next_link pg = Some u' ->
    paged_prefix srv token u' pgs u'' ->
    paged_prefix srv token u ((u, pg) :: pgs) u''.

(** The edges of a listing. *)
Definition listing_edges (pages : list (jsstring * assoc_page)) : list edge :=
  List.concat (map (fun p => page_results (snd p)) pages).

(** The batch read [getObjectBatch] issues. *)
Definition batch_request (token objectType : jsstring) (objectIds : list nat)
  (props : list string) : request :=
  mk_request token
    (HUBSPOT_BASE_URL ++ js "/crm/v3/objects/" ++ objectType
     ++ js "/batch/read")
    POST (Some (BatchPayload (map string_of_nat objectIds) props)).

Definition contact_props : list string :=
  ["firstname"; "lastname"; "email"; "phone"; "company"]%string.

Definition company_props : list string :=
  ["name"; "domain"; "industry"]%string.

(** The single request of [getDeal]. *)
Definition deal_request (token dealId : jsstring) : request :=
  mk_request token
    (HUBSPOT_BASE_URL ++ js "/crm/v3/objects/deals/" ++ dealId
     ++ js "?properties=" ++ deal_props)
    GET None.

(** What a remote that serves every listing in one page gives for a
    related type when all its answers are successful: the targets its page
    lists, the records of the batch read of these targets, and the requests
    this takes. *)
Definition listed_ids (srv : remote) (token dealId toObject : jsstring)
  : list nat :=
  target_ids
    (page_results
       (page_json srv (mk_request token (assoc_url dealId toObject) GET None))).

Definition served_records (srv : remote) (token dealId toObject : jsstring)
  (props : list string) : list crm_object :=
  match listed_ids srv token dealId toObject with
  | [] => []
  | i :: ids =>
      match batch_results
              (batch_json srv (batch_request token toObject (i :: ids) props))
      with
      | Some r => r
      | None => []
      end
  end.

Definition served_requests (srv : remote) (token dealId toObject : jsstring)
  (props : list string) : list request :=
  mk_request token (assoc_url dealId toObject) GET None
  :: match listed_ids srv token dealId toObject with
     | [] => []
     | i :: ids => [batch_request token toObject (i :: ids) props]
     end.

(** The record carries one of the five categories. *)
Definition known_category (eng : crm_object) : bool :=
  existsb (jsstring_eqb (or_else (engagement_type eng) (js "unknown")))
    (map fst engagementConfig).

(** A remote whose second contacts page cannot be served. *)
Definition sample_remote_page2_down : remote :=
  Remote (fun req => jsstring_eqb (url req) sample_page1_url) (fun _ => 429)
    (fun _ => None)
    (fun _ => sample_page1)
    (fun _ => BatchResult None).

(** A remote whose contacts listing points back at its own address. *)
Definition sample_remote_cycle : remote :=
  Remote (fun _ => true) (fun _ => 200) (fun _ => None)
    (fun _ => AssocPage (Some [Edge (Some 11)])
                (Some (Paging (Some (Next (Some sample_page1_url))))))
    (fun _ => BatchResult None).

(** A remote that serves a deal, two contacts in one page and nothing
    else. *)
Definition sample_contact_a : crm_object :=
  CrmObject (js "11") (Some (props_of [("firstname", "Ada")]%string)) None.
Definition sample_contact_b : crm_object :=
  CrmObject (js "12") (Some (props_of [("email", "b@example.com")]%string))
    None.

Definition sample_remote_small : remote :=
  Remote (fun _ => true) (fun _ => 200)
    (fun _ => Some (CrmObject (js "7")
                      (Some (props_of [("dealname", "Acme Renewal")]%string))
                      None))
    (fun req => if jsstring_eqb (url req) sample_page1_url
                then AssocPage (Some [Edge (Some 11); Edge None; Edge (Some 12)])
                       None
                else AssocPage None None)
    (fun _ => BatchResult (Some [sample_contact_a; sample_contact_b])).

(** A schedule: the answers to the second operation arrive first. *)
Definition sample_schedule : schedule := Schedule [false; true] false.

(** A remote that answers the deal request with a null body. *)
Definition sample_remote_null_deal : remote :=
  Remote (fun _ => true) (fun _ => 200) (fun _ => None)
    (fun _ => AssocPage None None) (fun _ => BatchResult None).

(** A remote that serves one note of the deal and nothing else. *)
Definition sample_notes_url : jsstring :=
  js "https://api.hubapi.com/crm/v4/objects/deals/7/associations/notes".

Definition sample_note_record : crm_object :=
  CrmObject (js "31")
    (Some (props_of [("hs_note_body", "Met the buyer.")]%string)) None.

Definition sample_remote_notes : remote :=
  Remote (fun _ => true) (fun _ => 200) (fun _ => None)
    (fun req => if jsstring_eqb (url req) sample_notes_url
                then AssocPage (Some [Edge (Some 31)]) None
                else AssocPage None None)
    (fun _ => BatchResult (Some [sample_note_record])).

(** The message of the error [runAnalysis] throws when the deal request
    succeeds without a deal. *)
Definition no_deal_message : jsstring :=
  js "Could not fetch deal. Please check the URL and your access permissions.".

(** A collected mapping without repeated keys or empty context lists. *)
Definition url_map_ok (m : url_map) : Prop :=
  NoDup (map fst m) /\ Forall (fun e => snd e <> []) m.


(** Lines of the document by their leading text. *)
Definition is_assoc_heading (line : jsstring) : bool :=
  starts_with (js "## Associated ") line.

Definition is_rule_line (line : jsstring) : bool :=
  starts_with (js "---") line.

(** [x.length > 0 ? [line] : []] *)
Definition when_nonempty (A : Type) (l : list A) (line : jsstring)
  : list jsstring :=
  match l with
  | [] => []
  | _ :: _ => [line]
  end.

(** A record stamped with a category the assembler does not know. *)
Definition sample_unknown_eng : crm_object :=
  CrmObject (js "41") None (Some (js "sms")).

(** A request as the client builds it: it carries the bearer token, and is
    either a [GET] without body or a [POST] with a batch payload. *)
Definition client_request (token : jsstring) (r : request) : Prop :=
  authorization r = js "Bearer " ++ token /\
  ((method r = GET /\ body r = None) \/
   (method r = POST /\ exists payload, body r = Some payload)).

(** The operation only appends requests of that shape to the log. *)
Definition issues_client_requests {A : Type} (token : jsstring) (m : M A)
  : Prop :=
  forall log, exists reqs,
    snd (m log) = log ++ reqs /\ Forall (client_request token) reqs.

(* ================================================================== *)
(** * Properties *)

(* ------------------------------------------------------------------ *)
(** ** The chronological sort *)

Lemma sort_insert_perm : forall x l,
  Permutation (x :: l) (sort_insert byTimestamp x l).
Proof.
  intros x l; induction l as [|y t IH]; simpl.
  - apply Permutation_refl.
  - destruct (byTimestamp x y <=? 0)%Z.
    + apply Permutation_refl.
    + eapply perm_trans; [apply perm_swap|].
      apply perm_skip, IH.
Qed.

Lemma array_sort_perm : forall l,
  Permutation (array_sort byTimestamp l) l.
Proof.
  induction l as [|x t IH]; simpl.
  - constructor.
  - eapply perm_trans.
    + apply Permutation_sym, sort_insert_perm.
    + apply perm_skip, IH.
Qed.




Lemma sort_insert_filter : forall k x l,
  filter (has_ts k) (sort_insert byTimestamp x l)
  = if has_ts k x then x :: filter (has_ts k) l else filter (has_ts k) l.
Proof.
  intros k x l; induction l as [|y t IH]; simpl.
  - reflexivity.
  - destruct (byTimestamp x y <=? 0)%Z eqn:E; simpl.
    + reflexivity.
    + rewrite IH. apply Z.leb_gt in E. unfold byTimestamp in E.
      unfold has_ts.
      destruct (tsOf x =? k)%Z eqn:Ex; [|reflexivity].
      apply Z.eqb_eq in Ex.
      destruct (tsOf y =? k)%Z eqn:Ey; [|reflexivity].
      apply Z.eqb_eq in Ey. lia.
Qed.

Lemma array_sort_filter : forall k l,
  filter (has_ts k) (array_sort byTimestamp l) = filter (has_ts k) l.
Proof.
  intros k l; induction l as [|x t IH]; simpl.
  - reflexivity.
  - rewrite sort_insert_filter, IH. reflexivity.
Qed.

(** *** What [parseInt] reads from a timestamp *)









(** Rounding leaves the time values a [Date] can hold as they are, and
    the others out of range: [formatTimestamp] does not depend on it. *)
Lemma valid_time_number_value : forall t,
  valid_time (number_value t) = valid_time t.
Proof.
  intros t. unfold number_value.
  destruct (Z.abs t <? 2 ^ 53)%Z eqn:E; [reflexivity|].
  apply Z.ltb_ge in E.
  set (e := (Z.log2 (Z.abs t) - 52)%Z).
  set (q := (Z.abs t / 2 ^ e)%Z).
  match goal with
  | |- context [if ?b then (q + 1)%Z else q] =>
      set (q' := if b then (q + 1)%Z else q)
  end.
  assert (He : (1 <= e)%Z).
  { unfold e. assert (53 <= Z.log2 (Z.abs t))%Z; [|lia].
    change 53%Z with (Z.log2 (2 ^ 53)). apply Z.log2_le_mono. exact E. }
  assert (Hpos : (0 < Z.abs t)%Z) by lia.
  assert (Hq : (2 ^ 52 <= q)%Z).
  { unfold q. apply Z.div_le_lower_bound; [apply Z.pow_pos_nonneg; lia|].
    rewrite Z.mul_comm, <- Z.pow_add_r by lia.
    replace (52 + e)%Z with (Z.log2 (Z.abs t)) by (unfold e; lia).
    apply Z.log2_spec. exact Hpos. }
  assert (Hq' : (2 ^ 52 <= q')%Z).
  { unfold q'. destruct (_ || _); lia. }
  assert (Hpow : (2 <= 2 ^ e)%Z).
  { change 2%Z with (2 ^ 1)%Z at 1. apply Z.pow_le_mono_r; lia. }
  assert (Hbig : (2 ^ 53 <= Z.min (q' * 2 ^ e) (2 ^ 1024))%Z).
  { apply Z.min_glb; [|apply Z.pow_le_mono_r; lia].
    change (2 ^ 53)%Z with (2 ^ 52 * 2)%Z. apply Z.mul_le_mono_nonneg; lia. }
  unfold valid_time.
  set (m := Z.min (q' * 2 ^ e) (2 ^ 1024)) in *.
  assert (Habs : Z.abs (Z.sgn t * m) = m).
  { destruct t as [|p|p]; [cbn in E; lia| |]; cbn [Z.sgn]; lia. }
  rewrite Habs.
  destruct (m <=? 8640000000000000)%Z eqn:A; [apply Z.leb_le in A; lia|].
  destruct (Z.abs t <=? 8640000000000000)%Z eqn:B;
    [apply Z.leb_le in B; lia|reflexivity].
Qed.




(** C6. The timestamp sort of document assembly is stable: the sorted
    list is a rearrangement of the aggregated one in which, for every
    timestamp value (0 standing for a missing one and for one [parseInt]
    reads no number from), the records carrying it appear in the order
    they were aggregated in. *)
Theorem sortedEngagements_stable : forall engagements,
  Permutation (sortedEngagements engagements) engagements /\
  forall k, filter (has_ts k) (sortedEngagements engagements)
            = filter (has_ts k) engagements.
Proof.
  intros engagements. split.
  - apply array_sort_perm.
  - intros k. apply array_sort_filter.
Qed.



(** Timestamps beyond 2^53 that are the same Number tie, and keep their
    order: 2^53 + 1 is read as 2^53. *)
Example sortedEngagements_rounding_tie :
  tsOf eng_above_2p53 = tsOf eng_2p53 /\
  sortedEngagements [eng_above_2p53; eng_2p53] = [eng_above_2p53; eng_2p53] /\
  sortedEngagements [eng_2p53; eng_above_2p53] = [eng_2p53; eng_above_2p53].
Proof.
  split; [reflexivity|]. split; reflexivity.
Qed.


(* ------------------------------------------------------------------ *)
(** ** The header of the document *)

Lemma join_cons : forall sep x t,
  t <> [] -> join sep (x :: t) = x ++ sep ++ join sep t.
Proof.
  intros sep x t H. destruct t as [|y t']; [contradiction|reflexivity].
Qed.

Lemma timeline_lines_nonempty : forall tv fm fs engagements,
  timeline_lines tv fm fs engagements <> [].
Proof.
  intros; unfold timeline_lines; simpl; discriminate.
Qed.

Lemma app_nonempty_r : forall (A : Type) (l1 l2 : list A),
  l2 <> [] -> l1 ++ l2 <> [].
Proof.
  intros A l1 l2 H E. apply app_eq_nil in E. destruct E; contradiction.
Qed.

Lemma app_nonempty_l : forall (A : Type) (l1 l2 : list A),
  l1 <> [] -> l1 ++ l2 <> [].
Proof.
  intros A l1 l2 H E. apply app_eq_nil in E. destruct E; contradiction.
Qed.

(** C8, as stated, fails: for a deal without properties the document has
    no description line at all, and its name line reads [Unknown Deal]. *)
Lemma header_without_description_line :
  let doc := formatDealForClaude same_text same_text same_text
               deal_without_properties [] [] [] [] in
  includes doc (js "**Description:**") = false /\
  includes doc (js "# Deal: N/A") = false /\
  includes doc (js "# Deal: Unknown Deal") = true /\
  includes doc (js "**Amount:** N/A") = true.
Proof.
  vm_compute. repeat split.
Qed.

(** C8, amended.  Every document starts with the name line, which falls
    back to [Unknown Deal], followed by the amount, stage, created and close
    date lines, each falling back to [N/A]; a description line follows only
    when the description is present and not empty; a blank line ends the
    header. *)
Theorem formatDealForClaude_header :
  forall tv fm fs deal contacts companies engagements collectedUrls,
  exists rest,
    formatDealForClaude tv fm fs deal contacts companies engagements
      collectedUrls
    = js "# Deal: " ++ or_else (prop deal "dealname") (js "Unknown Deal")
      ++ [LF; LF]
      ++ js "**Amount:** " ++ or_else (prop deal "amount") (js "N/A")
      ++ [LF]
      ++ js "**Stage:** " ++ or_else (prop deal "dealstage") (js "N/A")
      ++ [LF]
      ++ js "**Created:** " ++ or_else (prop deal "createdate") (js "N/A")
      ++ [LF]
      ++ js "**Close Date:** " ++ or_else (prop deal "closedate") (js "N/A")
      ++ match prop deal "description" with
         | Some (c :: d) => LF :: js "**Description:** " ++ c :: d
         | _ => []
         end
      ++ [LF; LF] ++ rest.
Proof.
  intros.
  set (others := contacts_lines contacts ++ companies_lines companies
                 ++ timeline_lines tv fm fs engagements
                 ++ url_index_lines collectedUrls).
  assert (Hne : others <> []).
  { unfold others. apply app_nonempty_r, app_nonempty_r, app_nonempty_l,
      timeline_lines_nonempty. }
  exists (join [LF] others).
  unfold formatDealForClaude, document_lines. fold others.
  unfold header_lines.
  destruct (prop deal "description") as [[|c d]|]; cbn [truthy or_else app];
    repeat (rewrite join_cons by (try discriminate; exact Hne));
    repeat (rewrite <- app_assoc; cbn [app]);
    reflexivity.
Qed.


(* ------------------------------------------------------------------ *)
(** ** The URL index *)

Lemma filter_found_in_url_lines : forall l,
  filter is_found_in (map url_line l) = [].
Proof.
  induction l as [|e t IH]; [reflexivity|]. simpl. exact IH.
Qed.

Lemma filter_found_in_doc_lines : forall l,
  List.length (filter is_found_in (flat_map doc_url_lines l)) = List.length l.
Proof.
  induction l as [|e t IH]; [reflexivity|]. simpl. rewrite IH. reflexivity.
Qed.

Lemma filter_url_entry_url_lines : forall l,
  filter is_url_entry (map url_line l) = map url_line l.
Proof.
  induction l as [|e t IH]; [reflexivity|]. simpl. rewrite IH. reflexivity.
Qed.

Lemma filter_url_entry_doc_lines : forall l,
  List.length (filter is_url_entry (flat_map doc_url_lines l)) = List.length l.
Proof.
  induction l as [|e t IH]; [reflexivity|]. simpl. rewrite IH. reflexivity.
Qed.

Lemma doc_lines_split : forall e l,
  In e l ->
  exists l1 l2,
    flat_map doc_url_lines l = l1 ++ [url_line e; found_in_line (snd e)] ++ l2.
Proof.
  intros e l H. apply in_split in H. destruct H as [d1 [d2 ->]].
  exists (flat_map doc_url_lines d1), (flat_map doc_url_lines d2).
  rewrite flat_map_app. reflexivity.
Qed.

Lemma found_in_docs_section : forall l,
  List.length (filter is_found_in (docs_section l)) = List.length l.
Proof.
  intros [|d ds]; [reflexivity|]. unfold docs_section.
  cbn [filter]. change (is_found_in (js "### Meeting Notes & Documents"))
    with false. cbv iota. apply filter_found_in_doc_lines.
Qed.

Lemma found_in_hubspot_section : forall l,
  List.length (filter is_found_in (hubspot_section l)) = 0.
Proof.
  intros [|d ds]; [reflexivity|]. unfold hubspot_section.
  cbn [filter]. change (is_found_in (LF :: js "### HubSpot Links"))
    with false. cbv iota. rewrite filter_found_in_url_lines. reflexivity.
Qed.

Lemma found_in_other_section : forall l,
  List.length (filter is_found_in (other_section l)) = 0.
Proof.
  intros [|d ds]; [reflexivity|]. unfold other_section.
  cbn [filter]. change (is_found_in (LF :: js "### Other Links"))
    with false. cbv iota. rewrite filter_app, filter_found_in_url_lines.
  destruct (20 <? List.length (d :: ds)); reflexivity.
Qed.

Lemma url_entry_docs_section : forall l,
  List.length (filter is_url_entry (docs_section l)) = List.length l.
Proof.
  intros [|d ds]; [reflexivity|]. unfold docs_section.
  cbn [filter]. change (is_url_entry (js "### Meeting Notes & Documents"))
    with false. cbv iota. apply filter_url_entry_doc_lines.
Qed.

Lemma url_entry_hubspot_section : forall l,
  List.length (filter is_url_entry (hubspot_section l)) = List.length l.
Proof.
  intros [|d ds]; [reflexivity|]. unfold hubspot_section.
  cbn [filter]. change (is_url_entry (LF :: js "### HubSpot Links"))
    with false. cbv iota.
  rewrite filter_url_entry_url_lines, length_map. reflexivity.
Qed.

Lemma url_entry_other_section : forall l,
  List.length (filter is_url_entry (other_section l))
  = Nat.min 20 (List.length l).
Proof.
  intros [|d ds]; [reflexivity|]. unfold other_section.
  cbn [filter]. change (is_url_entry (LF :: js "### Other Links"))
    with false. cbv iota.
  rewrite filter_app, filter_url_entry_url_lines, length_app, length_map,
    length_firstn.
  assert (Hnote : forall x, is_url_entry (js "*... and " ++ x) = false)
    by reflexivity.
  destruct (20 <? List.length (d :: ds)) eqn:E; cbn [filter].
  - rewrite Hnote. cbn [List.length]. lia.
  - cbn [List.length]. lia.
Qed.

(** C9, as stated, fails: for a link of the CRM bucket and a link of the
    remaining bucket the index lists the address only; their contexts
    appear nowhere in the document. *)
Lemma url_index_without_contexts :
  let doc := formatDealForClaude same_text same_text same_text
               deal_without_properties [] [] [] sample_plain_urls in
  includes doc (js "- http://example.com/y") = true /\
  includes doc (js "- https://app.hubspot.com/contacts/1") = true /\
  includes doc (js "Found in") = false /\
  includes doc (js "Note (Unknown date)") = false /\
  includes doc (js "Call: Intro (Unknown date)") = false.
Proof.
  vm_compute. repeat split.
Qed.

(** C9, amended.  In the URL index only the links of the documents bucket
    are followed by a line of contexts: at most the first three, followed by
    an ellipsis when there are more.  The links of the CRM bucket and of
    the remaining bucket are listed by address alone, so the index has as
    many context lines as document links; the remaining bucket lists at
    most its first 20 links and, when it holds more, a note with the number
    of links left out. *)
Theorem url_index_lines_shape : forall collectedUrls,
  let docUrls := filter (is_bucket DocUrl) collectedUrls in
  let hubspotUrls := filter (is_bucket HubspotUrl) collectedUrls in
  let otherUrls := filter (is_bucket OtherUrl) collectedUrls in
  let lines := url_index_lines collectedUrls in
  (forall url contexts, In (url, contexts) docUrls ->
     exists l1 l2,
       lines = l1
         ++ [js "- " ++ url;
             js "  *Found in: " ++ join (js ", ") (firstn 3 contexts)
             ++ (if 3 <? List.length contexts then js "..." else [])
             ++ js "*"]
         ++ l2) /\
  List.length (filter is_found_in lines) = List.length docUrls /\
  List.length (filter is_url_entry lines)
    = List.length docUrls + List.length hubspotUrls
      + Nat.min 20 (List.length otherUrls) /\
  (20 < List.length otherUrls ->
     In (js "*... and " ++ string_of_nat (List.length otherUrls - 20)
         ++ js " more*") lines).
Proof.
  intros collectedUrls docUrls hubspotUrls otherUrls lines.
  assert (Hcase : collectedUrls = [] \/ collectedUrls <> [])
    by (destruct collectedUrls; [left|right]; congruence).
  destruct Hcase as [Hnil|Hne].
  { subst collectedUrls docUrls hubspotUrls otherUrls lines. simpl.
    repeat split; try reflexivity.
    - intros url contexts [].
    - intros H; inversion H. }
  assert (Hlines : lines =
    [LF :: js "## Linked Documents & URLs";
     js "*" ++ string_of_nat (List.length collectedUrls)
       ++ js " unique URLs found in deal activities*" ++ [LF]]
    ++ docs_section docUrls ++ hubspot_section hubspotUrls
    ++ other_section otherUrls ++ [[]]).
  { subst lines docUrls hubspotUrls otherUrls.
    destruct collectedUrls; [contradiction|reflexivity]. }
  clearbody docUrls hubspotUrls otherUrls lines.
  split; [|split; [|split]].
  - intros url contexts Hin.
    destruct (doc_lines_split _ _ Hin) as [d1 [d2 Hd]].
    destruct docUrls as [|d ds]; [destruct Hin|].
    rewrite Hlines. unfold docs_section. rewrite Hd.
    eexists (_ :: _ :: _ :: d1), (d2 ++ _).
    cbn [app fst snd url_line found_in_line].
    repeat rewrite <- app_assoc. cbn [app]. reflexivity.
  - rewrite Hlines. repeat rewrite filter_app. repeat rewrite length_app.
    rewrite found_in_docs_section, found_in_hubspot_section,
      found_in_other_section. cbn. lia.
  - rewrite Hlines. repeat rewrite filter_app. repeat rewrite length_app.
    rewrite url_entry_docs_section, url_entry_hubspot_section,
      url_entry_other_section. cbn. lia.
  - intros Hgt. rewrite Hlines. unfold other_section.
    destruct otherUrls as [|d ds]; [inversion Hgt|].
    apply Nat.ltb_lt in Hgt. rewrite Hgt.
    apply in_or_app; right. apply in_or_app; right. apply in_or_app; right.
    apply in_or_app; left. right. apply in_or_app; right. left. reflexivity.
Qed.


(* ------------------------------------------------------------------ *)
(** ** Pagination *)

Lemma pages_loop_listing : forall srv token u pages,
  paged_listing srv token u pages ->
  forall fuel allResults log,
    List.length pages <= fuel ->
    pages_loop srv token fuel (Some u) allResults log
    = (Done (allResults ++ List.concat (map (fun p => page_results (snd p)) pages)),
       log ++ map (page_request token) pages).
Proof.
  intros srv token u pages H.
  induction H as [u pg Hu Hok Hpg Hnext | u pg u' pgs Hu Hok Hpg Hnext Hrest IH];
    intros fuel allResults log Hfuel.
  - destruct u as [|c u0]; [contradiction|].
    destruct fuel as [|fuel']; [simpl in Hfuel; lia|].
    cbn [pages_loop]. unfold bind, client_fetch.
    rewrite Hok, Hpg, Hnext.
    destruct fuel'; cbn; rewrite app_nil_r; reflexivity.
  - destruct u as [|c u0]; [contradiction|].
    destruct fuel as [|fuel']; [simpl in Hfuel; lia|].
    cbn [pages_loop]. unfold bind, client_fetch.
    rewrite Hok, Hpg, Hnext.
    rewrite IH by (simpl in Hfuel; lia).
    cbn [map List.concat fst snd]. unfold page_request at 2. cbn [fst].
    repeat rewrite <- app_assoc. reflexivity.
Qed.

(** C1. When the remote serves the associations of one related type as a
    listing of N pages, [getAssociations] returns the concatenation of the
    result edges of all pages in page order and issues exactly N requests,
    one per page in cursor order, whatever the sizes of the pages. *)
Theorem getAssociations_all_pages :
  forall srv token dealId toObject pages fuel log,
    paged_listing srv token (assoc_url dealId toObject) pages ->
    List.length pages <= fuel ->
    getAssociations srv token dealId fuel toObject log
    = (Done (List.concat (map (fun p => page_results (snd p)) pages)),
       log ++ map (page_request token) pages)
    /\ List.length (map (page_request token) pages) = List.length pages.
Proof.
  intros srv token dealId toObject pages fuel log Hlist Hfuel. split.
  - unfold getAssociations.
    rewrite (pages_loop_listing Hlist) by exact Hfuel. reflexivity.
  - apply length_map.
Qed.

Lemma getAssociations_all_pages_witness :
  getAssociations sample_remote sample_token sample_dealId 2 (js "contacts") []
  = (Done [Edge (Some 11); Edge (Some 12); Edge (Some 13)],
     [mk_request sample_token sample_page1_url GET None;
      mk_request sample_token sample_page2_url GET None]).
Proof.
  apply (getAssociations_all_pages (srv := sample_remote)
           (token := sample_token) (dealId := sample_dealId)
           (toObject := js "contacts")
           (pages := [(sample_page1_url, sample_page1);
                      (sample_page2_url, sample_page2)])
           (fuel := 2) []).
  - apply listing_more with (u' := sample_page2_url).
    + discriminate.
    + reflexivity.
    + reflexivity.
    + reflexivity.
    + apply listing_last.
      * discriminate.
      * reflexivity.
      * reflexivity.
      * reflexivity.
  - simpl. lia.
Defined.


(* ------------------------------------------------------------------ *)
(** ** Fetch errors *)

Lemma response_ok_cases : forall srv r, succeeded srv r \/ failed srv r.
Proof.
  intros srv r. unfold succeeded, failed.
  destruct (response_ok srv r); auto.
Qed.

Lemma succeeded_not_failed : forall srv r,
  succeeded srv r -> failed srv r -> False.
Proof.
  unfold succeeded, failed. intros srv r H1 H2. congruence.
Qed.

Lemma all_ok_stops : forall srv reqs,
  all_ok srv reqs -> stops_at_failure srv reqs.
Proof.
  intros srv reqs Hok pre r post -> Hf.
  unfold all_ok in Hok. rewrite Forall_forall in Hok.
  exfalso. apply (succeeded_not_failed (srv := srv) (r := r)); [|exact Hf].
  apply Hok, in_or_app. right. left. reflexivity.
Qed.

Lemma snoc_split_last : forall (A : Type) (pre pre' post : list A) (r r' : A),
  pre ++ [r] = pre' ++ r' :: post -> post = [] \/ In r' pre.
Proof.
  intros A pre; induction pre as [|x pre IH]; intros pre' post r r' H.
  - destruct pre' as [|y pre'']; simpl in H.
    + inversion H. left. reflexivity.
    + injection H as _ H1. destruct pre''; discriminate.
  - destruct pre' as [|y pre'']; simpl in H.
    + inversion H. subst. right. left. reflexivity.
    + injection H as _ H1. apply IH in H1. destruct H1; auto.
      right. right. assumption.
Qed.

Lemma ends_in_failure_stops : forall srv reqs e,
  ends_in_failure srv reqs e -> stops_at_failure srv reqs.
Proof.
  intros srv reqs e [pre [r [-> [Hok [Hf _]]]]] pre' r' post Heq Hf'.
  apply snoc_split_last in Heq. destruct Heq as [Hnil|Hin]; [exact Hnil|].
  exfalso. unfold all_ok in Hok. rewrite Forall_forall in Hok.
  apply (succeeded_not_failed (Hok _ Hin) Hf').
Qed.

Lemma disciplined_ret : forall A srv (a : A), fetch_disciplined srv (ret a).
Proof.
  intros A srv a log. exists []. cbn. rewrite app_nil_r. split; [reflexivity|].
  left. split; [constructor|]. intros e; discriminate.
Qed.

Lemma disciplined_diverge : forall A srv,
  fetch_disciplined srv (@diverge A).
Proof.
  intros A srv log. exists []. cbn. rewrite app_nil_r. split; [reflexivity|].
  left. split; [constructor|]. intros e; discriminate.
Qed.

Lemma disciplined_fetch : forall A srv (json : request -> A) req,
  fetch_disciplined srv (client_fetch srv json req).
Proof.
  intros A srv json req log. exists [req]. unfold client_fetch.
  destruct (response_ok srv req) eqn:E; cbn.
  - split; [reflexivity|]. left. split.
    + constructor; [exact E|constructor].
    + intros e; discriminate.
  - split; [reflexivity|]. right. eexists. split; [reflexivity|].
    exists [], req. repeat split; [constructor|exact E].
Qed.

Lemma disciplined_bind : forall A B srv (m : M A) (k : A -> M B),
  fetch_disciplined srv m ->
  (forall a, fetch_disciplined srv (k a)) ->
  fetch_disciplined srv (bind m k).
Proof.
  intros A B srv m k Hm Hk log.
  destruct (Hm log) as [r1 [E1 H1]]. unfold bind.
  destruct (m log) as [[a|e|] log1] eqn:Em; cbn [fst snd] in *.
  - destruct H1 as [[Hok1 _]|[e [He _]]]; [|discriminate].
    destruct (Hk a log1) as [r2 [E2 H2]]. subst log1.
    exists (r1 ++ r2). rewrite E2, app_assoc. split; [reflexivity|].
    destruct H2 as [[Hok2 Hnt]|[e [He [pre [r [-> [Hpre [Hf Hmsg]]]]]]]].
    + left. split; [apply Forall_app; split; assumption|exact Hnt].
    + right. exists e. split; [exact He|].
      exists (r1 ++ pre), r. rewrite app_assoc. repeat split; try assumption.
      apply Forall_app; split; assumption.
  - exists r1. split; [exact E1|].
    destruct H1 as [[_ Hnt]|[e' [He Hend]]].
    + exfalso. apply (Hnt e). reflexivity.
    + right. exists e'. injection He as ->. split; [reflexivity|exact Hend].
  - exists r1. split; [exact E1|].
    destruct H1 as [[Hok _]|[e' [He _]]]; [|discriminate].
    left. split; [exact Hok|]. intros e; discriminate.
Qed.

Lemma disciplined_pages_loop : forall srv token fuel nextUrl allResults,
  fetch_disciplined srv (pages_loop srv token fuel nextUrl allResults).
Proof.
  intros srv token fuel; induction fuel as [|fuel IH];
    intros nextUrl allResults.
  - destruct nextUrl as [[|c u]|]; cbn [pages_loop];
      first [apply disciplined_ret | apply disciplined_diverge].
  - destruct nextUrl as [[|c u]|]; cbn [pages_loop];
      try apply disciplined_ret.
    apply disciplined_bind; [apply disciplined_fetch|].
    intros data. apply IH.
Qed.

Lemma disciplined_getAssociations : forall srv token dealId fuel toObject,
  fetch_disciplined srv (getAssociations srv token dealId fuel toObject).
Proof.
  intros. apply disciplined_pages_loop.
Qed.

Lemma disciplined_getObjectBatch :
  forall srv token objectType objectIds props,
  fetch_disciplined srv (getObjectBatch srv token objectType objectIds props).
Proof.
  intros srv token objectType objectIds props. unfold getObjectBatch.
  destruct objectIds; [apply disciplined_ret|].
  apply disciplined_bind; [apply disciplined_fetch|].
  intros data. apply disciplined_ret.
Qed.

Lemma disciplined_getContacts : forall srv token dealId fuel,
  fetch_disciplined srv (getContacts srv token dealId fuel).
Proof.
  intros. unfold getContacts.
  apply disciplined_bind; [apply disciplined_getAssociations|].
  intros assocs. apply disciplined_getObjectBatch.
Qed.

Lemma disciplined_getCompanies : forall srv token dealId fuel,
  fetch_disciplined srv (getCompanies srv token dealId fuel).
Proof.
  intros. unfold getCompanies.
  apply disciplined_bind; [apply disciplined_getAssociations|].
  intros assocs. apply disciplined_getObjectBatch.
Qed.

Lemma disciplined_engagements_loop :
  forall srv token dealId fuel config allEngagements,
  fetch_disciplined srv
    (engagements_loop srv token dealId fuel config allEngagements).
Proof.
  intros srv token dealId fuel config;
    induction config as [|[engType props] config' IH]; intros allEngagements.
  - apply disciplined_ret.
  - cbn [engagements_loop].
    apply disciplined_bind; [apply disciplined_getAssociations|].
    intros associations.
    destruct (target_ids associations); [apply IH|].
    apply disciplined_bind; [apply disciplined_getObjectBatch|].
    intros details. apply IH.
Qed.

Lemma disciplined_getAllEngagements : forall srv token dealId fuel,
  fetch_disciplined srv (getAllEngagements srv token dealId fuel).
Proof.
  intros. apply disciplined_engagements_loop.
Qed.

Lemma disciplined_getDeal : forall srv token dealId,
  fetch_disciplined srv (getDeal srv token dealId).
Proof.
  intros. apply disciplined_fetch.
Qed.

Lemma all_ok_no_failure : forall srv reqs,
  all_ok srv reqs -> Exists (failed srv) reqs -> False.
Proof.
  intros srv reqs Hok Hex. apply Exists_exists in Hex.
  destruct Hex as [r [Hin Hf]]. unfold all_ok in Hok.
  rewrite Forall_forall in Hok.
  apply (succeeded_not_failed (Hok _ Hin) Hf).
Qed.

Lemma ends_in_failure_in : forall srv reqs e,
  ends_in_failure srv reqs e ->
  exists r, In r reqs /\ failed srv r /\
            e = api_error (response_status srv r).
Proof.
  intros srv reqs e [pre [r [-> [_ [Hf He]]]]]. exists r.
  split; [apply in_or_app; right; left; reflexivity|]. split; assumption.
Qed.

Lemma disciplined_stops : forall A srv (m : M A) log reqs,
  snd (m log) = log ++ reqs ->
  (all_ok srv reqs /\ (forall e, fst (m log) <> Throw e)) \/
  (exists e, fst (m log) = Throw e /\ ends_in_failure srv reqs e) ->
  stops_at_failure srv reqs.
Proof.
  intros A srv m log reqs _ [[H _]|[e [_ H]]];
    [apply all_ok_stops|eapply ends_in_failure_stops]; eassumption.
Qed.

Lemma stops_at_failure_nil : forall srv, stops_at_failure srv [].
Proof.
  intros srv pre r post H. destruct pre; discriminate.
Qed.

Lemma Exists_nil_false : forall (A : Type) (P : A -> Prop),
  Exists P [] -> False.
Proof.
  intros A P H. inversion H.
Qed.


(* ------------------------------------------------------------------ *)
(** ** Text cleaning *)

(** C3, evaluated.  On the example of the specification the markup rule,
    which runs first, removes the bracketed address as if it were a tag:
    with [preserveUrls = true] only the bare address is left, with
    [preserveUrls = false] none.  The later rules alone, applied to the
    same text, do unwrap the bracketed address. *)
Theorem stripHtml_wrapped_url : forall textareaValue,
  decodes_plain_text textareaValue ->
  stripHtml textareaValue (Some sample_wrapped_text) true
    = js "Check and http://example.com/y." /\
  includes (stripHtml textareaValue (Some sample_wrapped_text) true)
    (js "https://docs.google.com/x") = false /\
  stripHtml textareaValue (Some sample_wrapped_text) false = js "Check and" /\
  stripHtml_decoded sample_wrapped_text true
    = js "Check https://docs.google.com/x and http://example.com/y.".
Proof.
  intros tv Hplain.
  assert (Htags : replace_all re_tag (const_str (js " ")) sample_wrapped_text
                  = js "Check   and http://example.com/y.")
    by (vm_compute; reflexivity).
  assert (Hstrip : forall b,
            stripHtml tv (Some sample_wrapped_text) b
            = stripHtml_decoded (js "Check   and http://example.com/y.") b).
  { intros b.
    change (stripHtml tv (Some sample_wrapped_text) b)
      with (stripHtml_decoded
              (tv (replace_all re_tag (const_str (js " "))
                     sample_wrapped_text)) b).
    rewrite Htags, Hplain by (vm_compute; reflexivity). reflexivity. }
  rewrite !Hstrip. vm_compute. repeat split.
Qed.

Lemma stripHtml_wrapped_url_witness :
  stripHtml same_text (Some sample_wrapped_text) true
    = js "Check and http://example.com/y." /\
  includes (stripHtml same_text (Some sample_wrapped_text) true)
    (js "https://docs.google.com/x") = false /\
  stripHtml same_text (Some sample_wrapped_text) false = js "Check and" /\
  stripHtml_decoded sample_wrapped_text true
    = js "Check https://docs.google.com/x and http://example.com/y.".
Proof.
  apply (stripHtml_wrapped_url (textareaValue := same_text)).
  intros s _. reflexivity.
Defined.

(* ------------------------------------------------------------------ *)
(** ** The collected URL mapping *)

Lemma jsstring_eqb_eq : forall a b, jsstring_eqb a b = true <-> a = b.
Proof.
  intros a b. unfold jsstring_eqb.
  destruct (list_eq_dec ascii_dec a b); split; congruence.
Qed.

Lemma jsstring_eqb_refl : forall a, jsstring_eqb a a = true.
Proof.
  intros a. apply jsstring_eqb_eq. reflexivity.
Qed.

Lemma jsstring_eqb_neq : forall a b, a <> b -> jsstring_eqb a b = false.
Proof.
  intros a b H. destruct (jsstring_eqb a b) eqn:E; [|reflexivity].
  apply jsstring_eqb_eq in E. contradiction.
Qed.

Lemma obj_get_set_same : forall m k v, obj_get (obj_set m k v) k = Some v.
Proof.
  induction m as [|[k' v'] t IH]; intros k v; simpl.
  - rewrite jsstring_eqb_refl. reflexivity.
  - destruct (jsstring_eqb k' k) eqn:E; simpl; rewrite E; [reflexivity|apply IH].
Qed.

Lemma obj_get_set_other : forall m k v k',
  k <> k' -> obj_get (obj_set m k v) k' = obj_get m k'.
Proof.
  induction m as [|[k0 v0] t IH]; intros k v k' Hne; simpl.
  - rewrite jsstring_eqb_neq by exact Hne. reflexivity.
  - destruct (jsstring_eqb k0 k) eqn:E; simpl.
    + apply jsstring_eqb_eq in E. subst k0.
      rewrite jsstring_eqb_neq by exact Hne. reflexivity.
    + destruct (jsstring_eqb k0 k'); [reflexivity|]. apply IH. exact Hne.
Qed.

Lemma contexts_of_push : forall context m u url,
  contexts_of (push_context context m u) url
  = if jsstring_eqb url u then contexts_of m url ++ [context]
    else contexts_of m url.
Proof.
  intros context m u url. unfold push_context, contexts_of.
  destruct (jsstring_eqb url u) eqn:E.
  - apply jsstring_eqb_eq in E. subst u.
    destruct (obj_get m url) as [old|] eqn:Eg.
    + rewrite Eg, obj_get_set_same. reflexivity.
    + rewrite obj_get_set_same, obj_get_set_same. reflexivity.
  - assert (Hne : u <> url).
    { intros ->. rewrite jsstring_eqb_refl in E. discriminate. }
    destruct (obj_get m u) as [old|] eqn:Eg.
    + rewrite Eg, obj_get_set_other by exact Hne. reflexivity.
    + rewrite obj_get_set_same, obj_get_set_other, obj_get_set_other
        by exact Hne. reflexivity.
Qed.

Lemma contexts_of_push_all : forall context urls m url,
  NoDup urls ->
  contexts_of (fold_left (push_context context) urls m) url
  = contexts_of m url
    ++ (if existsb (jsstring_eqb url) urls then [context] else []).
Proof.
  intros context urls; induction urls as [|u t IH]; intros m url Hnd; simpl.
  - rewrite app_nil_r. reflexivity.
  - inversion Hnd as [|? ? Hnotin Hnd']; subst.
    rewrite IH by exact Hnd'. rewrite contexts_of_push.
    destruct (jsstring_eqb url u) eqn:E; simpl.
    + apply jsstring_eqb_eq in E. subst u.
      destruct (existsb (jsstring_eqb url) t) eqn:Ex.
      * exfalso. apply Hnotin. apply existsb_exists in Ex.
        destruct Ex as [x [Hin Hx]]. apply jsstring_eqb_eq in Hx. subst x.
        exact Hin.
      * rewrite app_nil_r. reflexivity.
    + reflexivity.
Qed.

Lemma NoDup_snoc : forall (A : Type) (l : list A) (x : A),
  NoDup l -> ~ In x l -> NoDup (l ++ [x]).
Proof.
  intros A l x Hnd Hnotin. induction Hnd as [|y l Hy Hnd IH]; simpl.
  - constructor; [intros []|constructor].
  - constructor.
    + intros Hin. apply in_app_or in Hin. destruct Hin as [Hin|[->|[]]].
      * contradiction.
      * apply Hnotin. left. reflexivity.
    + apply IH. intros Hin. apply Hnotin. right. exact Hin.
Qed.

Lemma set_add_NoDup : forall acc x, NoDup acc -> NoDup (set_add acc x).
Proof.
  intros acc x Hnd. unfold set_add.
  destruct (existsb (jsstring_eqb x) acc) eqn:E; [exact Hnd|].
  apply NoDup_snoc; [exact Hnd|]. intros Hin.
  assert (existsb (jsstring_eqb x) acc = true).
  { apply existsb_exists. exists x. split; [exact Hin|apply jsstring_eqb_refl]. }
  congruence.
Qed.

Lemma fold_set_add_NoDup : forall l acc,
  NoDup acc -> NoDup (fold_left set_add l acc).
Proof.
  induction l as [|x t IH]; intros acc Hnd; simpl; [exact Hnd|].
  apply IH, set_add_NoDup, Hnd.
Qed.

Lemma fold_set_add_in : forall l acc x,
  In x (fold_left set_add l acc) -> In x acc \/ In x l.
Proof.
  induction l as [|y t IH]; intros acc x Hin; simpl in *; [left; exact Hin|].
  apply IH in Hin. destruct Hin as [Hin|Hin]; [|right; right; exact Hin].
  unfold set_add in Hin. destruct (existsb (jsstring_eqb y) acc).
  - left. exact Hin.
  - apply in_app_or in Hin. destruct Hin as [Hin|[->|[]]]; auto.
Qed.

Lemma extractUrlsFromContent_NoDup : forall content,
  NoDup (extractUrlsFromContent content).
Proof.
  intros [|c s]; simpl; [constructor|].
  apply fold_set_add_NoDup. constructor.
Qed.

Lemma collect_step_eq : forall m eng,
  collect_step m eng
  = fold_left (push_context (engContext eng))
      (extractUrlsFromContent (engContent eng)) m.
Proof.
  intros m eng. unfold collect_step, engContext, engContent.
  destruct (content_and_context eng). reflexivity.
Qed.

Lemma contexts_of_collect_step : forall m eng url,
  contexts_of (collect_step m eng) url
  = contexts_of m url ++ (if mentions url eng then [engContext eng] else []).
Proof.
  intros m eng url. rewrite collect_step_eq.
  apply contexts_of_push_all, extractUrlsFromContent_NoDup.
Qed.

Lemma contexts_of_collect : forall engagements m url,
  contexts_of (fold_left collect_step engagements m) url
  = contexts_of m url ++ map engContext (filter (mentions url) engagements).
Proof.
  induction engagements as [|e t IH]; intros m url; simpl.
  - rewrite app_nil_r. reflexivity.
  - rewrite IH, contexts_of_collect_step.
    destruct (mentions url e); simpl.
    + rewrite <- app_assoc. reflexivity.
    + rewrite app_nil_r. reflexivity.
Qed.

Lemma engContext_deterministic : forall e e',
  label_inputs e = label_inputs e' -> engContext e = engContext e'.
Proof.
  intros e e' H. unfold label_inputs in H.
  injection H as Hty Hes Hct Hmt Hts Htime.
  unfold engContext, content_and_context.
  rewrite Hty, Hes, Hct, Hmt, Hts, Htime.
  destruct (jsstring_eqb (or_else (engagement_type e') (js "unknown"))
              (js "emails")); [reflexivity|].
  destruct (jsstring_eqb (or_else (engagement_type e') (js "unknown"))
              (js "notes")); [reflexivity|].
  destruct (jsstring_eqb (or_else (engagement_type e') (js "unknown"))
              (js "calls")); [reflexivity|].
  destruct (jsstring_eqb (or_else (engagement_type e') (js "unknown"))
              (js "meetings")); [reflexivity|].
  destruct (jsstring_eqb (or_else (engagement_type e') (js "unknown"))
              (js "tasks")); reflexivity.
Qed.

(** C4, as stated, fails: the content of a record is not cleaned before
    the URLs are taken from it.  A link in angle brackets is collected from
    the raw content although cleaning removes it. *)
Lemma collectAllUrls_reads_raw_content :
  collectAllUrls [sample_wrapped_note]
    = [(js "https://docs.google.com/x", [js "Note (Unknown date)"])] /\
  collectAllUrls_sanitized same_text [sample_wrapped_note] = [] /\
  ~ (forall textareaValue, decodes_plain_text textareaValue ->
       forall engagements,
         collectAllUrls engagements
         = collectAllUrls_sanitized textareaValue engagements).
Proof.
  split; [vm_compute; reflexivity|]. split; [vm_compute; reflexivity|].
  intros H.
  specialize (H same_text (fun s _ => eq_refl) [sample_wrapped_note]).
  vm_compute in H. discriminate H.
Qed.

(** C4, amended.  [collectAllUrls] takes the URLs of a record from its
    content as stored, without cleaning it: the contexts collected for a
    URL are the labels of the records whose content yields that URL on
    extraction, in the order of the records; and the label of a record is
    determined by its category, its title or subject and its timestamp. *)
Theorem collectAllUrls_contexts : forall engagements url,
  contexts_of (collectAllUrls engagements) url
    = map engContext (filter (mentions url) engagements) /\
  (forall e e', label_inputs e = label_inputs e' ->
                engContext e = engContext e').
Proof.
  intros engagements url. split.
  - unfold collectAllUrls. rewrite contexts_of_collect. reflexivity.
  - exact engContext_deterministic.
Qed.

(* ------------------------------------------------------------------ *)
(** ** Extracted URLs are parts of the content *)

Lemma match_from_substring : forall r s prev skip m,
  In m (match_from r prev s skip) ->
  exists pre post, s = pre ++ m ++ post.
Proof.
  intros r s; induction s as [|a t IH]; intros prev skip m Hin.
  - destruct skip; simpl in Hin; [|destruct Hin].
    destruct (exec r (Cursor prev [])) as [c'|]; [|destruct Hin].
    destruct Hin as [<-|[]]. exists [], []. reflexivity.
  - destruct skip as [|k]; cbn [match_from] in Hin.
    + destruct (exec r (Cursor prev (a :: t))) as [c'|].
      * destruct Hin as [<-|Hin].
        -- exists [], (skipn (consumed (a :: t) c') (a :: t)).
           cbn [app]. symmetry. apply firstn_skipn.
        -- apply IH in Hin. destruct Hin as [pre [post ->]].
           exists (a :: pre), post. reflexivity.
      * apply IH in Hin. destruct Hin as [pre [post ->]].
        exists (a :: pre), post. reflexivity.
    + apply IH in Hin. destruct Hin as [pre [post ->]].
      exists (a :: pre), post. reflexivity.
Qed.

Lemma matches_end_rest : forall l c,
  In c (flat_map (matches End) l) -> rest c = [].
Proof.
  intros l c Hin. apply in_flat_map in Hin. destruct Hin as [x [_ Hx]].
  simpl in Hx. unfold at_end in Hx.
  destruct (rest x) eqn:E; [|destruct Hx].
  destruct Hx as [<-|[]]. exact E.
Qed.

Lemma exec_trailing_punct_rest : forall c c',
  exec re_trailing_punct c = Some c' -> rest c' = [].
Proof.
  intros c c' H.
  apply (matches_end_rest (matches (Plus is_trailing_punct) c)).
  change (exec re_trailing_punct c)
    with (hd_error (flat_map (matches End)
                      (matches (Plus is_trailing_punct) c))) in H.
  destruct (flat_map (matches End) (matches (Plus is_trailing_punct) c))
    as [|x l]; [discriminate|].
  injection H as ->. left. reflexivity.
Qed.

Lemma strip_trailing_punct_prefix : forall s prev,
  exists post,
    s = replace_first_from re_trailing_punct (const_str []) prev s ++ post.
Proof.
  induction s as [|a t IH]; intros prev.
  - cbn. exists []. reflexivity.
  - cbn [replace_first_from].
    destruct (exec re_trailing_punct (Cursor prev (a :: t))) as [c'|] eqn:E.
    + apply exec_trailing_punct_rest in E. rewrite E.
      exists (a :: t). reflexivity.
    + destruct (IH (Some a)) as [post Hpost].
      exists post. cbn [app]. rewrite <- Hpost. reflexivity.
Qed.

Lemma starts_with_app : forall p post, starts_with p (p ++ post) = true.
Proof.
  induction p as [|a p IH]; intros post; simpl; [reflexivity|].
  rewrite Ascii.eqb_refl. apply IH.
Qed.

Lemma includes_app : forall pre p post, includes (pre ++ p ++ post) p = true.
Proof.
  induction pre as [|a pre IH]; intros p post.
  - cbn [app]. destruct (p ++ post) eqn:E; simpl.
    + destruct p; [reflexivity|discriminate].
    + rewrite <- E, starts_with_app. reflexivity.
  - cbn [app includes]. rewrite IH. apply orb_true_r.
Qed.

Lemma extracted_url_in_content : forall content url,
  In url (extractUrlsFromContent content) -> includes content url = true.
Proof.
  intros content url Hin. unfold extractUrlsFromContent in Hin.
  destruct content as [|c s]; [destruct Hin|].
  apply fold_set_add_in in Hin. destruct Hin as [[]|Hin].
  apply in_map_iff in Hin. destruct Hin as [m [Hm Hin]].
  apply match_from_substring in Hin. destruct Hin as [pre [post Hs]].
  destruct (strip_trailing_punct_prefix m None) as [post' Hm'].
  unfold strip_trailing_punct, replace_first in Hm. rewrite Hm in Hm'.
  rewrite Hs, Hm', <- app_assoc. apply includes_app.
Qed.

Lemma mentions_includes : forall url eng,
  mentions url eng = true -> includes (engContent eng) url = true.
Proof.
  intros url eng H. unfold mentions in H. apply existsb_exists in H.
  destruct H as [x [Hin Hx]]. apply jsstring_eqb_eq in Hx. subst x.
  apply extracted_url_in_content, Hin.
Qed.

Lemma filter_length_le : forall (A : Type) (f g : A -> bool) (l : list A),
  (forall x, f x = true -> g x = true) ->
  List.length (filter f l) <= List.length (filter g l).
Proof.
  intros A f g l H. induction l as [|x t IH]; simpl; [lia|].
  destruct (f x) eqn:Ef.
  - rewrite (H x Ef). simpl. lia.
  - destruct (g x); simpl; lia.
Qed.

(** C10. The URLs extracted from one record are pairwise distinct, so a
    record adds at most one context to the list of a URL; and the number of
    contexts collected for a URL never exceeds the number of records whose
    content contains that URL. *)
Theorem collectAllUrls_contexts_bound : forall engagements url,
  (forall content, NoDup (extractUrlsFromContent content)) /\
  (forall allUrls eng,
     List.length (contexts_of (collect_step allUrls eng) url)
     <= S (List.length (contexts_of allUrls url))) /\
  List.length (contexts_of (collectAllUrls engagements) url)
  <= List.length (filter (fun eng => includes (engContent eng) url)
                    engagements).
Proof.
  intros engagements url. split; [exact extractUrlsFromContent_NoDup|]. split.
  - intros allUrls eng. rewrite contexts_of_collect_step, length_app.
    destruct (mentions url eng); simpl; lia.
  - unfold collectAllUrls. rewrite contexts_of_collect. cbn [contexts_of obj_get app].
    rewrite length_map. apply filter_length_le.
    intros eng. apply mentions_includes.
Qed.

(* ------------------------------------------------------------------ *)
(** ** The URL pattern on a URL followed by punctuation *)

Lemma hd_error_app_some : forall (A : Type) (l1 l2 : list A) (x : A),
  hd_error l1 = Some x -> hd_error (l1 ++ l2) = Some x.
Proof.
  intros A [|y l1] l2 x H; [discriminate|exact H].
Qed.

Lemma punct_cases : forall c,
  is_trailing_punct c = true ->
  c = "."%char \/ c = ","%char \/ c = ";"%char \/ c = ":"%char.
Proof.
  intros c H. unfold is_trailing_punct, one_of in H. cbn [js list_ascii_of_string existsb] in H.
  repeat (apply orb_true_iff in H; destruct H as [H|H]);
    try discriminate; apply Ascii.eqb_eq in H; auto.
Qed.

Lemma punct_is_url_char : forall c,
  is_trailing_punct c = true -> is_url_char c = true.
Proof.
  intros c H. destruct (@punct_cases _ H) as [ -> | [ -> | [ -> | -> ] ] ]; reflexivity.
Qed.

Lemma url_last_not_punct : forall c,
  is_url_char c = true -> is_trailing_punct c = false -> is_url_last c = true.
Proof.
  intros c Hc Hp. unfold is_url_last. rewrite Hc. cbn [andb].
  unfold is_trailing_punct, one_of in Hp. cbn [js list_ascii_of_string existsb] in Hp.
  apply orb_false_iff in Hp. destruct Hp as [H1 Hp].
  apply orb_false_iff in Hp. destruct Hp as [H2 _].
  rewrite H1, H2. reflexivity.
Qed.

Lemma url_last_is_url_char : forall c,
  is_url_last c = true -> is_url_char c = true.
Proof.
  intros c H. unfold is_url_last in H.
  apply andb_true_iff in H. destruct H as [H _].
  apply andb_true_iff in H. destruct H as [H _]. exact H.
Qed.

Lemma matches_after_scheme : forall (tail : regex) prev scheme w,
  url_scheme scheme ->
  matches (Seq (Lit "http") (Seq (Opt (Chr "s")) (Seq (Lit "://") tail)))
    (Cursor prev (scheme ++ w))
  = matches tail (Cursor (Some "/"%char) w).
Proof.
  intros tail prev scheme w [ -> | -> ]; cbn; repeat rewrite app_nil_r; reflexivity.
Qed.

Lemma match_from_skip : forall r x y prev,
  exists prev',
    match_from r prev (x ++ y) (List.length x) = match_from r prev' y 0.
Proof.
  intros r x; induction x as [|a x IH]; intros y prev.
  - exists prev. reflexivity.
  - cbn [app List.length match_from]. apply IH.
Qed.

Lemma match_from_at_match : forall r prev m post c',
  m <> [] ->
  exec r (Cursor prev (m ++ post)) = Some c' ->
  rest c' = post ->
  exists prev',
    match_from r prev (m ++ post) 0 = m :: match_from r prev' post 0.
Proof.
  intros r prev m post c' Hm Hexec Hrest.
  destruct m as [|a m]; [contradiction|].
  cbn [app] in *. cbn [match_from]. rewrite Hexec.
  unfold consumed. rewrite Hrest. cbn [List.length].
  rewrite length_app.
  replace (S (List.length m + List.length post) - List.length post)
    with (S (List.length m)) by lia.
  cbn [firstn Nat.pred].
  rewrite firstn_app, firstn_all, Nat.sub_diag. cbn [firstn].
  rewrite app_nil_r.
  destruct (match_from_skip r m post (Some a)) as [prev' ->].
  exists prev'. reflexivity.
Qed.

Lemma matches_first_char_fail : forall c X Y prev a t,
  Ascii.eqb c a = false ->
  matches (Seq (Seq (Chr c) X) Y) (Cursor prev (a :: t)) = [].
Proof.
  intros c X Y prev a t H.
  change (matches (Seq (Seq (Chr c) X) Y) (Cursor prev (a :: t)))
    with (flat_map (matches Y)
            (flat_map (matches X)
               (if Ascii.eqb c a then [Cursor (Some a) t] else []))).
  rewrite H. reflexivity.
Qed.

Lemma star_greedy_to_end : forall p s prev,
  forallb p s = true ->
  exists prev' l, star_greedy p prev s = Cursor prev' [] :: l.
Proof.
  intros p s; induction s as [|a t IH]; intros prev H.
  - exists prev, []. reflexivity.
  - cbn [forallb] in H. apply andb_true_iff in H. destruct H as [Ha Ht].
    cbn [star_greedy]. rewrite Ha.
    destruct (IH (Some a) Ht) as [prev' [l ->]].
    exists prev', (l ++ [Cursor prev (a :: t)]). reflexivity.
Qed.

Lemma star_greedy_blocked : forall p y last q prev c,
  p last = false ->
  In c (star_greedy p prev (y ++ last :: q)) -> rest c <> [].
Proof.
  intros p y; induction y as [|a y IH]; intros last q prev c Hlast Hin.
  - cbn [app star_greedy] in Hin. rewrite Hlast in Hin.
    destruct Hin as [<-|[]]. discriminate.
  - cbn [app star_greedy] in Hin. destruct (p a).
    + apply in_app_or in Hin. destruct Hin as [Hin|[<-|[]]].
      * eapply IH; eassumption.
      * discriminate.
    + destruct Hin as [<-|[]]. discriminate.
Qed.

Lemma flat_map_end_blocked : forall l,
  (forall c, In c l -> rest c <> []) -> flat_map (matches End) l = [].
Proof.
  induction l as [|x l IH]; intros H; [reflexivity|].
  cbn [flat_map]. rewrite IH by (intros c Hc; apply H; right; exact Hc).
  rewrite app_nil_r. cbn. unfold at_end.
  destruct (rest x) eqn:E; [|reflexivity].
  exfalso. apply (H x); [left; reflexivity|exact E].
Qed.

Lemma exec_trailing_punct_all : forall a t prev,
  forallb is_trailing_punct (a :: t) = true ->
  exists c', exec re_trailing_punct (Cursor prev (a :: t)) = Some c'
             /\ rest c' = [].
Proof.
  intros a t prev H. cbn [forallb] in H.
  apply andb_true_iff in H. destruct H as [Ha Ht].
  unfold exec.
  change (matches re_trailing_punct (Cursor prev (a :: t)))
    with (flat_map (matches End)
            (flat_map (matches (Star is_trailing_punct))
               (if is_trailing_punct a then [Cursor (Some a) t] else []))).
  rewrite Ha. cbn [flat_map]. rewrite app_nil_r.
  change (matches (Star is_trailing_punct) (Cursor (Some a) t))
    with (star_greedy is_trailing_punct (Some a) t).
  destruct (@star_greedy_to_end is_trailing_punct t (Some a) Ht)
    as [prev' [l ->]].
  exists (Cursor prev' []). split; reflexivity.
Qed.

Lemma exec_trailing_punct_blocked : forall y last q prev,
  is_trailing_punct last = false ->
  exec re_trailing_punct (Cursor prev (y ++ last :: q)) = None.
Proof.
  intros y last q prev Hlast. unfold exec.
  destruct y as [|a y].
  - cbn [app].
    change (matches re_trailing_punct (Cursor prev (last :: q)))
      with (flat_map (matches End)
              (flat_map (matches (Star is_trailing_punct))
                 (if is_trailing_punct last
                  then [Cursor (Some last) q] else []))).
    rewrite Hlast. reflexivity.
  - cbn [app].
    change (matches re_trailing_punct (Cursor prev (a :: y ++ last :: q)))
      with (flat_map (matches End)
              (flat_map (matches (Star is_trailing_punct))
                 (if is_trailing_punct a
                  then [Cursor (Some a) (y ++ last :: q)] else []))).
    destruct (is_trailing_punct a); [|reflexivity].
    cbn [flat_map]. rewrite app_nil_r.
    rewrite flat_map_end_blocked; [reflexivity|].
    intros c Hc.
    change (matches (Star is_trailing_punct) (Cursor (Some a) (y ++ last :: q)))
      with (star_greedy is_trailing_punct (Some a) (y ++ last :: q)) in Hc.
    eapply star_greedy_blocked; eassumption.
Qed.

Lemma strip_all_punct : forall p prev,
  forallb is_trailing_punct p = true ->
  replace_first_from re_trailing_punct (const_str []) prev p = [].
Proof.
  intros [|a t] prev H.
  - reflexivity.
  - destruct (@exec_trailing_punct_all a t prev H) as [c' [E Hrest]].
    cbn [replace_first_from]. rewrite E, Hrest. reflexivity.
Qed.

Lemma strip_after_clean : forall x last p prev,
  is_trailing_punct last = false ->
  forallb is_trailing_punct p = true ->
  replace_first_from re_trailing_punct (const_str []) prev (x ++ last :: p)
  = x ++ [last].
Proof.
  induction x as [|a x IH]; intros last p prev Hlast Hp.
  - pose proof (@exec_trailing_punct_blocked [] last p prev Hlast) as E.
    cbn [app] in *. cbn [replace_first_from]. rewrite E.
    rewrite strip_all_punct by exact Hp. reflexivity.
  - pose proof (@exec_trailing_punct_blocked (a :: x) last p prev Hlast) as E.
    cbn [app] in *. cbn [replace_first_from]. rewrite E.
    rewrite IH by assumption. reflexivity.
Qed.

Lemma punct_split : forall p,
  forallb is_trailing_punct p = true ->
  exists p1 p2,
    p = p1 ++ p2 /\
    forallb is_trailing_punct p1 = true /\
    forallb is_trailing_punct p2 = true /\
    forallb (fun c => negb (is_url_last c)) p2 = true /\
    (p1 = [] \/ exists q c, p1 = q ++ [c] /\ is_url_last c = true).
Proof.
  induction p as [|a p IH] using rev_ind; intros H.
  - exists [], []. repeat split; auto.
  - rewrite forallb_app in H. apply andb_true_iff in H.
    destruct H as [Hp Ha]. cbn [forallb] in Ha. rewrite andb_true_r in Ha.
    destruct (is_url_last a) eqn:El.
    + exists (p ++ [a]), []. rewrite app_nil_r. repeat split.
      * rewrite forallb_app, Hp. cbn [forallb andb]. rewrite Ha. reflexivity.
      * right. exists p, a. split; [reflexivity|exact El].
    + destruct (IH Hp) as [p1 [p2 [-> [H1 [H2 [H3 H4]]]]]].
      exists p1, (p2 ++ [a]). rewrite <- app_assoc. repeat split.
      * exact H1.
      * rewrite forallb_app, H2. cbn [forallb andb]. rewrite Ha. reflexivity.
      * rewrite forallb_app, H3. cbn [forallb andb]. rewrite El. reflexivity.
      * exact H4.
Qed.

Lemma forallb_impl : forall (A : Type) (f g : A -> bool) (l : list A),
  (forall x, f x = true -> g x = true) ->
  forallb f l = true -> forallb g l = true.
Proof.
  intros A f g l H. induction l as [|x t IH]; [reflexivity|].
  cbn [forallb]. intros Hl. apply andb_true_iff in Hl. destruct Hl as [Hx Ht].
  rewrite (H x Hx), (IH Ht). reflexivity.
Qed.

Lemma url_scheme_nonempty : forall scheme w,
  url_scheme scheme -> scheme ++ w <> [].
Proof.
  intros scheme w [ -> | -> ]; discriminate.
Qed.

(* ------------------------------------------------------------------ *)
(** ** What a match consumes *)

Lemma star_greedy_sound : forall p s prev c',
  In c' (star_greedy p prev s) ->
  exists w, s = w ++ rest c' /\ forallb p w = true.
Proof.
  intros p s; induction s as [|a t IH]; intros prev c' Hin.
  - destruct Hin as [<-|[]]. exists []. split; reflexivity.
  - cbn [star_greedy] in Hin. destruct (p a) eqn:Ea.
    + apply in_app_or in Hin. destruct Hin as [Hin|[<-|[]]].
      * destruct (IH _ _ Hin) as [w [Hw Hp]]. exists (a :: w).
        split; [cbn [app]; rewrite <- Hw; reflexivity|].
        cbn [forallb]. rewrite Ea, Hp. reflexivity.
      * exists []. split; reflexivity.
    + destruct Hin as [<-|[]]. exists []. split; reflexivity.
Qed.

Lemma star_lazy_sound : forall p s prev c',
  In c' (star_lazy p prev s) ->
  exists w, s = w ++ rest c' /\ forallb p w = true.
Proof.
  intros p s; induction s as [|a t IH]; intros prev c' Hin.
  - destruct Hin as [<-|[]]. exists []. split; reflexivity.
  - cbn [star_lazy] in Hin. destruct Hin as [<-|Hin].
    + exists []. split; reflexivity.
    + destruct (p a) eqn:Ea; [|destruct Hin].
      destruct (IH _ _ Hin) as [w [Hw Hp]]. exists (a :: w).
      split; [cbn [app]; rewrite <- Hw; reflexivity|].
      cbn [forallb]. rewrite Ea, Hp. reflexivity.
Qed.

Lemma matches_sound : forall r c c',
  In c' (matches r c) ->
  exists w, rest c = w ++ rest c' /\ denotes r w.
Proof.
  induction r as [|p|r1 IH1 r2 IH2|r1 IH1 r2 IH2|p|p| | |];
    intros c c' Hin; cbn [matches] in Hin.
  - destruct Hin as [<-|[]]. exists []. split; reflexivity.
  - destruct (rest c) as [|a t] eqn:E; [destruct Hin|].
    destruct (p a) eqn:Ea; [|destruct Hin].
    destruct Hin as [<-|[]]. exists [a]. split; [reflexivity|].
    exists a. split; [reflexivity|exact Ea].
  - apply in_flat_map in Hin. destruct Hin as [c1 [H1 H2]].
    destruct (IH1 _ _ H1) as [w1 [E1 D1]].
    destruct (IH2 _ _ H2) as [w2 [E2 D2]].
    exists (w1 ++ w2). split.
    + rewrite E1, E2, app_assoc. reflexivity.
    + exists w1, w2. repeat split; assumption.
  - apply in_app_or in Hin. destruct Hin as [Hin|Hin].
    + destruct (IH1 _ _ Hin) as [w [E D]]. exists w. split; [exact E|].
      left. exact D.
    + destruct (IH2 _ _ Hin) as [w [E D]]. exists w. split; [exact E|].
      right. exact D.
  - apply star_greedy_sound in Hin. exact Hin.
  - apply star_lazy_sound in Hin. exact Hin.
  - destruct (at_line_start c); [|destruct Hin].
    destruct Hin as [<-|[]]. exists []. split; reflexivity.
  - destruct (at_line_end c); [|destruct Hin].
    destruct Hin as [<-|[]]. exists []. split; reflexivity.
  - destruct (at_end c); [|destruct Hin].
    destruct Hin as [<-|[]]. exists []. split; reflexivity.
Qed.

Lemma exec_sound : forall r prev s c',
  exec r (Cursor prev s) = Some c' ->
  exists w, s = w ++ rest c' /\ denotes r w /\ firstn (consumed s c') s = w.
Proof.
  intros r prev s c' H. unfold exec in H.
  assert (Hin : In c' (matches r (Cursor prev s))).
  { destruct (matches r (Cursor prev s)) as [|x l]; [discriminate|].
    injection H as ->. left. reflexivity. }
  apply matches_sound in Hin. cbn [rest] in Hin.
  destruct Hin as [w [E D]]. exists w. split; [exact E|]. split; [exact D|].
  unfold consumed. clear H. subst s. rewrite length_app.
  replace (List.length w + List.length (rest c') - List.length (rest c'))
    with (List.length w) by lia.
  rewrite firstn_app, firstn_all, Nat.sub_diag. cbn [firstn].
  apply app_nil_r.
Qed.

Lemma match_first_from_eq : forall r prev s,
  match_first_from r prev s
  = match exec r (Cursor prev s) with
    | Some c' => Some (firstn (consumed s c') s)
    | None =>
        match s with
        | [] => None
        | a :: t => match_first_from r (Some a) t
        end
    end.
Proof.
  intros r prev [|a t]; reflexivity.
Qed.

Lemma match_first_sound : forall r s prev m,
  match_first_from r prev s = Some m ->
  denotes r m /\ exists pre post, s = pre ++ m ++ post.
Proof.
  intros r s; induction s as [|a t IH]; intros prev m H;
    rewrite match_first_from_eq in H.
  - destruct (exec r (Cursor prev [])) as [c'|] eqn:E; [|discriminate].
    destruct (exec_sound _ _ _ E) as [w [Hs [D Hw]]].
    assert (m = w) by congruence. subst m.
    split; [exact D|]. exists [], (rest c'). exact Hs.
  - destruct (exec r (Cursor prev (a :: t))) as [c'|] eqn:E.
    + destruct (exec_sound _ _ _ E) as [w [Hs [D Hw]]].
      assert (m = w) by congruence. subst m. split; [exact D|].
      exists [], (rest c'). exact Hs.
    + destruct (IH _ _ H) as [D [pre [post ->]]]. split; [exact D|].
      exists (a :: pre), post. reflexivity.
Qed.

(* ------------------------------------------------------------------ *)
(** ** [extractDealId] *)

Lemma denotes_lit : forall l w, denotes (Lit_chars l) w -> w = l.
Proof.
  induction l as [|c t IH]; intros w H.
  - exact H.
  - destruct t as [|c' t'].
    + cbn in H. destruct H as [a [-> Ha]]. apply Ascii.eqb_eq in Ha.
      subst a. reflexivity.
    + change (Lit_chars (c :: c' :: t'))
        with (Seq (Chr c) (Lit_chars (c' :: t'))) in H.
      cbn [denotes Chr] in H.
      destruct H as [w1 [w2 [-> [[a [-> Ha]] H2]]]].
      apply Ascii.eqb_eq in Ha. subst a.
      rewrite (IH _ H2). reflexivity.
Qed.

Lemma denotes_plus : forall p w,
  denotes (Plus p) w -> w <> [] /\ forallb p w = true.
Proof.
  intros p w H. unfold Plus in H. cbn [denotes] in H.
  destruct H as [w1 [w2 [-> [[a [-> Ha]] H2]]]]. split; [discriminate|].
  cbn [app forallb]. rewrite Ha, H2. reflexivity.
Qed.

Lemma denotes_rep_cls : forall p n w,
  denotes (Rep n (Cls p)) w -> List.length w = n /\ forallb p w = true.
Proof.
  intros p n; induction n as [|n IH]; intros w H.
  - cbn in H. subst w. split; reflexivity.
  - destruct n as [|n'].
    + cbn in H. destruct H as [a [-> Ha]]. split; [reflexivity|].
      cbn. rewrite Ha. reflexivity.
    + change (Rep (S (S n')) (Cls p))
        with (Seq (Cls p) (Rep (S n') (Cls p))) in H.
      cbn [denotes] in H.
      destruct H as [w1 [w2 [-> [[a [-> Ha]] H2]]]].
      destruct (IH _ H2) as [Hl Hp]. split.
      * cbn [app List.length]. rewrite Hl. reflexivity.
      * cbn [app forallb]. rewrite Ha, Hp. reflexivity.
Qed.

Lemma skipn_length_app : forall (A : Type) (l x : list A),
  skipn (List.length l) (l ++ x) = x.
Proof.
  intros A l x. induction l as [|a l IH]; [reflexivity|exact IH].
Qed.

Lemma denotes_seq : forall r1 r2 w,
  denotes (Seq r1 r2) w ->
  exists w1 w2, w = w1 ++ w2 /\ denotes r1 w1 /\ denotes r2 w2.
Proof.
  intros r1 r2 w H. exact H.
Qed.

(** Group 1 of a match of one of the three patterns. *)
Lemma dealIdPatterns_group : forall pattern k m,
  In (pattern, k) dealIdPatterns ->
  denotes pattern m ->
  exists l, m = l ++ skipn k m /\ skipn k m <> [] /\
            forallb is_digit (skipn k m) = true.
Proof.
  intros pattern k m Hin D.
  destruct Hin as [E|[E|[E|[]]]]; injection E as <- <-.
  - change (Seqs [Lit "/record/0-3/"; Plus is_digit])
      with (Seq (Lit "/record/0-3/") (Plus is_digit)) in D.
    apply denotes_seq in D. destruct D as [w1 [w2 [-> [D1 D2]]]].
    apply denotes_lit in D1. subst w1. apply denotes_plus in D2.
    change 12 with (List.length (js "/record/0-3/")).
    rewrite skipn_length_app. exists (js "/record/0-3/").
    split; [reflexivity|exact D2].
  - change (Seqs [Lit "/deal/"; Plus is_digit])
      with (Seq (Lit "/deal/") (Plus is_digit)) in D.
    apply denotes_seq in D. destruct D as [w1 [w2 [-> [D1 D2]]]].
    apply denotes_lit in D1. subst w1. apply denotes_plus in D2.
    change 6 with (List.length (js "/deal/")).
    rewrite skipn_length_app. exists (js "/deal/").
    split; [reflexivity|exact D2].
  - change (Seqs [Chr "/"; Rep 10 (Cls is_digit); Star is_digit])
      with (Seq (Lit "/") (Seq (Rep 10 (Cls is_digit)) (Star is_digit))) in D.
    apply denotes_seq in D. destruct D as [w1 [w2 [-> [D1 D2]]]].
    apply denotes_seq in D2. destruct D2 as [w3 [w4 [-> [D3 D4]]]].
    apply (denotes_lit (js "/")) in D1. subst w1.
    apply (denotes_rep_cls is_digit 10) in D3.
    destruct D3 as [Hl Hp].
    change 1 with (List.length (js "/")).
    rewrite skipn_length_app. exists (js "/").
    split; [reflexivity|]. split.
    + destruct w3; [discriminate|discriminate].
    + rewrite forallb_app, Hp, D4. reflexivity.
Qed.

Lemma first_group_sound : forall patterns urlPath d,
  (forall pattern k, In (pattern, k) patterns ->
                     In (pattern, k) dealIdPatterns) ->
  first_group patterns urlPath = Some d ->
  d <> [] /\ forallb is_digit d = true /\
  exists pre post, urlPath = pre ++ d ++ post.
Proof.
  induction patterns as [|[pattern k] ps IH]; intros urlPath d Hsub H;
    cbn [first_group] in H; [discriminate|].
  unfold match_first in H.
  destruct (match_first_from pattern None urlPath) as [m|] eqn:E.
  - injection H as <-.
    destruct (match_first_sound _ _ _ E) as [D [pre [post ->]]].
    destruct (@dealIdPatterns_group _ _ _ (Hsub _ _ (or_introl eq_refl)) D)
      as [l [Hm [Hne Hd]]].
    split; [exact Hne|]. split; [exact Hd|].
    exists (pre ++ l), post. rewrite Hm at 1.
    repeat rewrite <- app_assoc. reflexivity.
  - apply IH; [|exact H]. intros p' k' Hin. apply Hsub. right. exact Hin.
Qed.

Lemma split_on_nonempty : forall sep s, split_on sep s <> [].
Proof.
  intros sep s. induction s as [|c t IH]; cbn [split_on]; [discriminate|].
  destruct (Ascii.eqb c sep); [discriminate|].
  destruct (split_on sep t); discriminate.
Qed.

Lemma hd_split_on_prefix : forall sep s,
  exists post, s = hd [] (split_on sep s) ++ post.
Proof.
  intros sep s. induction s as [|c t IH]; cbn [split_on].
  - exists []. reflexivity.
  - destruct (Ascii.eqb c sep).
    + exists (c :: t). reflexivity.
    + destruct IH as [post Hpost].
      destruct (split_on sep t) as [|x r] eqn:E.
      * exists t. reflexivity.
      * exists post. cbn [hd app] in *. rewrite <- Hpost. reflexivity.
Qed.

Lemma join_split_on : forall sep s, join [sep] (split_on sep s) = s.
Proof.
  intros sep s. induction s as [|c t IH]; cbn [split_on]; [reflexivity|].
  pose proof (split_on_nonempty sep t) as Hne.
  destruct (Ascii.eqb c sep) eqn:E.
  - apply Ascii.eqb_eq in E. subst c.
    rewrite join_cons by exact Hne. rewrite IH. reflexivity.
  - destruct (split_on sep t) as [|x r]; [contradiction|].
    rewrite <- IH. destruct r; reflexivity.
Qed.

Lemma join_last_suffix : forall sep l,
  exists pre, join sep l = pre ++ List.last l [].
Proof.
  intros sep l. induction l as [|x t IH].
  - exists []. reflexivity.
  - destruct t as [|y t'].
    + exists []. reflexivity.
    + destruct IH as [pre Hpre]. exists (x ++ sep ++ pre).
      rewrite join_cons by discriminate. rewrite Hpre.
      repeat rewrite <- app_assoc. reflexivity.
Qed.

Lemma last_split_on_suffix : forall sep s,
  exists pre, s = pre ++ List.last (split_on sep s) [].
Proof.
  intros sep s. destruct (join_last_suffix [sep] (split_on sep s)) as [pre H].
  rewrite join_split_on in H. exists pre. exact H.
Qed.

Lemma replace_first_end_prefix : forall r,
  (forall c c', exec r c = Some c' -> rest c' = []) ->
  forall s prev,
    exists post, s = replace_first_from r (const_str []) prev s ++ post.
Proof.
  intros r Hend s; induction s as [|a t IH]; intros prev.
  - cbn [replace_first_from].
    destruct (exec r (Cursor prev [])) as [c'|] eqn:E.
    + rewrite (Hend _ _ E). exists []. reflexivity.
    + exists []. reflexivity.
  - cbn [replace_first_from].
    destruct (exec r (Cursor prev (a :: t))) as [c'|] eqn:E.
    + rewrite (Hend _ _ E). exists (a :: t). reflexivity.
    + destruct (IH (Some a)) as [post Hpost].
      exists post. cbn [app]. rewrite <- Hpost. reflexivity.
Qed.

Lemma exec_seq_end_rest : forall r c c',
  exec (Seq r End) c = Some c' -> rest c' = [].
Proof.
  intros r c c' H. apply (matches_end_rest (matches r c)).
  change (exec (Seq r End) c)
    with (hd_error (flat_map (matches End) (matches r c))) in H.
  destruct (flat_map (matches End) (matches r c)) as [|x l]; [discriminate|].
  injection H as ->. left. reflexivity.
Qed.

Lemma includes_app_assoc : forall a b c d e,
  includes (a ++ (b ++ c ++ d) ++ e) c = true.
Proof.
  intros a b c d e.
  replace (a ++ (b ++ c ++ d) ++ e) with ((a ++ b) ++ c ++ (d ++ e))
    by (repeat rewrite <- app_assoc; reflexivity).
  apply includes_app.
Qed.

Lemma extractDealId_sound : forall u d,
  extractDealId (Some u) = Some d ->
  d <> [] /\ forallb is_digit d = true /\ includes u d = true.
Proof.
  intros u d H. unfold extractDealId in H.
  destruct u as [|c u']; [discriminate|].
  destruct (hd_split_on_prefix "?" (c :: u')) as [query Hu].
  set (urlPath := hd [] (split_on "?" (c :: u'))) in *.
  destruct (first_group dealIdPatterns urlPath) as [d'|] eqn:E.
  - injection H as ->.
    destruct (first_group_sound dealIdPatterns urlPath
                (fun _ _ Hin => Hin) E) as [Hne [Hd [pre [post Hp]]]].
    split; [exact Hne|]. split; [exact Hd|].
    clearbody urlPath. rewrite Hu, Hp.
    apply (includes_app_assoc [] pre d post query).
  - set (stripped := replace_first re_trailing_slash (const_str []) urlPath)
      in *.
    destruct (test_from_start re_all_digits
                (List.last (split_on "/" stripped) [])) eqn:T; [|discriminate].
    injection H as <-.
    unfold test_from_start in T.
    destruct (exec re_all_digits
                (Cursor None (List.last (split_on "/" stripped) [])))
      as [c'|] eqn:Ex; [|discriminate].
    pose proof (exec_seq_end_rest (Plus is_digit) _ Ex) as Hrest.
    destruct (exec_sound _ _ _ Ex) as [w [Hw [D _]]].
    rewrite Hrest, app_nil_r in Hw.
    change re_all_digits with (Seq (Plus is_digit) End) in D.
    apply denotes_seq in D. destruct D as [w1 [w2 [Hw12 [D1 D2]]]].
    cbn [denotes] in D2. subst w2.
    rewrite app_nil_r in Hw12. subst w1.
    apply denotes_plus in D1. rewrite <- Hw in D1.
    split; [apply D1|]. split; [apply D1|].
    destruct (last_split_on_suffix "/" stripped) as [pre Hpre].
    destruct (replace_first_end_prefix re_trailing_slash
                (exec_seq_end_rest (Chr "/")) urlPath None) as [post Hpost].
    fold (replace_first re_trailing_slash (const_str []) urlPath) in Hpost.
    fold stripped in Hpost.
    set (seg := List.last (split_on "/" stripped) []) in *.
    clearbody seg. clearbody stripped. clearbody urlPath.
    rewrite Hu, Hpost, Hpre.
    replace ((pre ++ seg) ++ post) with (pre ++ seg ++ post)
      by (rewrite <- app_assoc; reflexivity).
    apply (includes_app_assoc [] pre seg post query).
Qed.

(** X1. When [extractDealId] returns an identifier, it is a non-empty run
    of decimal digits that occurs in the address given. *)
Theorem extractDealId_digits : forall url d,
  extractDealId url = Some d ->
  d <> [] /\ forallb is_digit d = true /\
  exists u, url = Some u /\ includes u d = true.
Proof.
  intros [u|] d H; [|discriminate].
  destruct (extractDealId_sound _ H) as [Hne [Hd Hin]].
  split; [exact Hne|]. split; [exact Hd|]. exists u. split; [reflexivity|exact Hin].
Qed.

Lemma extractDealId_digits_witness :
  js "9876543210" <> [] /\ forallb is_digit (js "9876543210") = true /\
  exists u, Some sample_deal_url = Some u /\ includes u (js "9876543210") = true.
Proof.
  apply (@extractDealId_digits (Some sample_deal_url) (js "9876543210")).
  vm_compute. reflexivity.
Defined.

Lemma hd_split_on_no_sep : forall sep u,
  no_char sep u = true -> hd [] (split_on sep u) = u.
Proof.
  intros sep u; induction u as [|c t IH]; intros H; [reflexivity|].
  cbn [no_char forallb] in H. apply andb_true_iff in H. destruct H as [Hc Ht].
  apply negb_true_iff in Hc. cbn [split_on]. rewrite Hc.
  specialize (IH Ht). destruct (split_on sep t) as [|x r]; cbn [hd] in *.
  - subst t. reflexivity.
  - subst x. reflexivity.
Qed.

Lemma hd_split_on_at_sep : forall sep u q,
  no_char sep u = true -> hd [] (split_on sep (u ++ sep :: q)) = u.
Proof.
  intros sep u q; induction u as [|c t IH]; intros H.
  - cbn [app split_on]. rewrite Ascii.eqb_refl. reflexivity.
  - cbn [no_char forallb] in H. apply andb_true_iff in H.
    destruct H as [Hc Ht]. apply negb_true_iff in Hc.
    cbn [app split_on]. rewrite Hc. specialize (IH Ht).
    destruct (split_on sep (t ++ sep :: q)) as [|x r]; cbn [hd] in *.
    + subst t. reflexivity.
    + subst x. reflexivity.
Qed.

(** X2. What follows the first question mark of the address has no
    influence on the identifier [extractDealId] returns. *)
Theorem extractDealId_ignores_query : forall u q,
  no_char "?" u = true ->
  extractDealId (Some (u ++ "?"%char :: q)) = extractDealId (Some u).
Proof.
  intros u q H. destruct u as [|c t].
  - vm_compute. reflexivity.
  - unfold extractDealId. cbn [app].
    change (c :: t ++ "?"%char :: q) with ((c :: t) ++ "?"%char :: q).
    rewrite hd_split_on_at_sep by exact H.
    rewrite hd_split_on_no_sep by exact H. reflexivity.
Qed.

Lemma extractDealId_ignores_query_witness :
  extractDealId (Some (js "https://app.hubspot.com/contacts/4321/deal/77?tab=notes"))
  = extractDealId (Some (js "https://app.hubspot.com/contacts/4321/deal/77")).
Proof.
  apply (@extractDealId_ignores_query
           (js "https://app.hubspot.com/contacts/4321/deal/77")
           (js "tab=notes")).
  vm_compute. reflexivity.
Defined.

(* ------------------------------------------------------------------ *)
(** ** [trim] *)

Lemma trimStart_head : forall s,
  trimStart s = [] \/ exists c t, trimStart s = c :: t /\ is_space c = false.
Proof.
  induction s as [|c t IH]; [left; reflexivity|].
  cbn [trimStart]. destruct (is_space c) eqn:E; [exact IH|].
  right. exists c, t. split; [reflexivity|exact E].
Qed.

Lemma trimStart_suffix : forall s, exists w, s = w ++ trimStart s.
Proof.
  induction s as [|c t IH]; [exists []; reflexivity|].
  cbn [trimStart]. destruct (is_space c).
  - destruct IH as [w Hw]. exists (c :: w). cbn [app]. rewrite <- Hw.
    reflexivity.
  - exists []. reflexivity.
Qed.

Lemma trimStart_fixed : forall c t,
  is_space c = false -> trimStart (c :: t) = c :: t.
Proof.
  intros c t H. cbn [trimStart]. rewrite H. reflexivity.
Qed.

Lemma trim_idempotent : forall s, trim (trim s) = trim s.
Proof.
  intros s. unfold trim.
  set (a := trimStart s).
  destruct (trimStart_head (rev a)) as [Hb|[c [b' [Hb Hc]]]].
  - rewrite Hb. reflexivity.
  - destruct (trimStart_suffix (rev a)) as [w Hw]. rewrite Hb in *.
    assert (Ha : a = rev (c :: b') ++ rev w).
    { rewrite <- (rev_involutive a), Hw, rev_app_distr. reflexivity. }
    destruct (trimStart_head s) as [Hnil|[x [a' [Hx Hsp]]]].
    + fold a in Hnil. rewrite Hnil in Ha.
      symmetry in Ha. apply app_eq_nil in Ha. destruct Ha as [Ha _].
      apply (f_equal (@List.length ascii)) in Ha.
      rewrite length_rev in Ha. discriminate.
    + fold a in Hx. rewrite Hx in Ha.
      destruct (rev (c :: b')) as [|y t'] eqn:Er.
      * apply (f_equal (@List.length ascii)) in Er.
        rewrite length_rev in Er. discriminate.
      * cbn [app] in Ha. injection Ha as <- _.
        rewrite (@trimStart_fixed _ t' Hsp).
        rewrite <- Er, rev_involutive.
        rewrite (@trimStart_fixed _ b' Hc). reflexivity.
Qed.

(* ------------------------------------------------------------------ *)
(** ** [parseAnalysisSections] *)

Lemma parse_open_section : forall lines secs cur content k,
  push_current
    (fold_left parse_line lines (ParseState secs (Some cur) content k))
  = secs ++ sections_from cur content k lines.
Proof.
  induction lines as [|l t IH]; intros secs cur content k.
  - reflexivity.
  - cbn [fold_left sections_from]. unfold parse_line at 2.
    fold (is_heading l). destruct (is_heading l).
    + cbn [sectionCounter push_current currentSection sections currentContent].
      rewrite IH, <- app_assoc. reflexivity.
    + cbn [sectionCounter push_current currentSection sections currentContent].
      apply IH.
Qed.

Lemma parse_from_start : forall lines,
  push_current (fold_left parse_line lines (ParseState [] None [] 0))
  = sections_start lines.
Proof.
  induction lines as [|l t IH]; [reflexivity|].
  cbn [fold_left sections_start]. unfold parse_line at 2.
  fold (is_heading l). destruct (is_heading l).
  - cbn [sectionCounter push_current currentSection sections currentContent].
    rewrite parse_open_section. reflexivity.
  - cbn [sectionCounter currentSection sections currentContent existsb].
    unfold is_blank_line. destruct (trim l) as [|c r].
    + exact IH.
    + rewrite parse_open_section. reflexivity.
Qed.

Lemma parseAnalysisSections_eq : forall markdown,
  parseAnalysisSections markdown = sections_start (split_on LF markdown).
Proof.
  intros markdown. apply parse_from_start.
Qed.

Lemma sections_from_ids : forall lines cur content k,
  map sec_id (sections_from cur content k lines)
  = sec_id cur
    :: map section_label (seq (S k) (List.length (filter is_heading lines))).
Proof.
  induction lines as [|l t IH]; intros cur content k; [reflexivity|].
  cbn [sections_from filter]. destruct (is_heading l).
  - cbn [map List.length seq sec_id]. rewrite IH. reflexivity.
  - apply IH.
Qed.

Lemma sections_from_titles : forall lines cur content k,
  map sec_title (sections_from cur content k lines)
  = sec_title cur :: map heading_title (filter is_heading lines).
Proof.
  induction lines as [|l t IH]; intros cur content k; [reflexivity|].
  cbn [sections_from filter]. destruct (is_heading l).
  - cbn [map sec_title]. rewrite IH. reflexivity.
  - apply IH.
Qed.

Lemma sections_from_trimmed : forall lines cur content k,
  Forall (fun s => trim (sec_content s) = sec_content s)
    (sections_from cur content k lines).
Proof.
  induction lines as [|l t IH]; intros cur content k; cbn [sections_from].
  - constructor; [apply trim_idempotent|constructor].
  - destruct (is_heading l).
    + constructor; [apply trim_idempotent|apply IH].
    + apply IH.
Qed.

Lemma sections_from_head : forall lines cur content k,
  exists c tl,
    sections_from cur content k lines
    = AnalysisSection (sec_id cur) (sec_title cur) c :: tl.
Proof.
  induction lines as [|l t IH]; intros cur content k; cbn [sections_from].
  - eexists _, _. reflexivity.
  - destruct (is_heading l).
    + eexists _, _. reflexivity.
    + apply IH.
Qed.

Lemma section_label_not_intro : forall k,
  jsstring_eqb (section_label k) (js "intro") = false.
Proof.
  intros k. apply jsstring_eqb_neq. unfold section_label. discriminate.
Qed.

Lemma labels_without_intro : forall ks,
  existsb (fun i => jsstring_eqb i (js "intro")) (map section_label ks) = false.
Proof.
  induction ks as [|k t IH]; [reflexivity|].
  cbn [map existsb]. rewrite section_label_not_intro, IH. reflexivity.
Qed.

Lemma existsb_is_intro_ids : forall secs,
  existsb is_intro secs
  = existsb (fun i => jsstring_eqb i (js "intro")) (map sec_id secs).
Proof.
  induction secs as [|s t IH]; [reflexivity|].
  cbn [map existsb]. rewrite IH. reflexivity.
Qed.

Lemma sections_start_shape : forall lines,
  exists hs,
    (sections_start lines = hs \/
     exists c, sections_start lines
               = AnalysisSection (js "intro") (js "Introduction") c :: hs) /\
    map sec_id hs
    = map section_label (seq 1 (List.length (filter is_heading lines))) /\
    map sec_title hs = map heading_title (filter is_heading lines).
Proof.
  induction lines as [|l t IH].
  - exists []. split; [left; reflexivity|]. split; reflexivity.
  - cbn [sections_start filter]. destruct (is_heading l) eqn:Eh.
    + eexists. split; [left; reflexivity|]. split.
      * rewrite sections_from_ids. reflexivity.
      * rewrite sections_from_titles. reflexivity.
    + destruct (is_blank_line l); [exact IH|].
      pose proof (sections_from_ids t
        (AnalysisSection (js "intro") (js "Introduction") []) [l] 0) as Hid.
      pose proof (sections_from_titles t
        (AnalysisSection (js "intro") (js "Introduction") []) [l] 0) as Htt.
      destruct (sections_from_head t
        (AnalysisSection (js "intro") (js "Introduction") []) [l] 0)
        as [c [tl Etl]].
      rewrite Etl in *. cbn [map sec_id sec_title] in Hid, Htt.
      injection Hid as Hid. injection Htt as Htt.
      exists tl. split; [right; exists c; reflexivity|].
      split; assumption.
Qed.

(** X3. [parseAnalysisSections] yields one section per line that starts with
    [## ], in the order of these lines: the k-th one has the identifier
    [section_k] and the trimmed text after the marker as its title.  At
    most one further section, the introduction, comes before them. *)
Theorem parseAnalysisSections_headings : forall markdown,
  let headings := filter is_heading (split_on LF markdown) in
  exists hs,
    (parseAnalysisSections markdown = hs \/
     exists c, parseAnalysisSections markdown
               = AnalysisSection (js "intro") (js "Introduction") c :: hs) /\
    map sec_id hs = map section_label (seq 1 (List.length headings)) /\
    map sec_title hs = map heading_title headings.
Proof.
  intros markdown headings. rewrite parseAnalysisSections_eq.
  apply sections_start_shape.
Qed.

Lemma sections_start_trimmed : forall lines,
  Forall (fun s => trim (sec_content s) = sec_content s)
    (sections_start lines).
Proof.
  induction lines as [|l t IH]; cbn [sections_start]; [constructor|].
  destruct (is_heading l); [apply sections_from_trimmed|].
  destruct (is_blank_line l); [exact IH|apply sections_from_trimmed].
Qed.

(** X4. The content of every section [parseAnalysisSections] returns is
    trimmed: trimming it again changes nothing. *)
Theorem parseAnalysisSections_trimmed : forall markdown,
  Forall (fun s => trim (sec_content s) = sec_content s)
    (parseAnalysisSections markdown).
Proof.
  intros markdown. rewrite parseAnalysisSections_eq.
  apply sections_start_trimmed.
Qed.

Lemma sections_from_intro : forall lines cur content k,
  existsb is_intro (sections_from cur content k lines) = is_intro cur.
Proof.
  intros lines cur content k.
  rewrite existsb_is_intro_ids, sections_from_ids. cbn [existsb].
  rewrite labels_without_intro. apply orb_false_r.
Qed.

(** X5. The result has an introduction section exactly when some line
    before the first heading is not blank. *)
Theorem parseAnalysisSections_intro : forall markdown,
  existsb is_intro (parseAnalysisSections markdown)
  = negb (forallb is_blank_line (preamble (split_on LF markdown))).
Proof.
  intros markdown. rewrite parseAnalysisSections_eq.
  induction (split_on LF markdown) as [|l t IH]; [reflexivity|].
  cbn [sections_start preamble]. destruct (is_heading l).
  - rewrite sections_from_intro. reflexivity.
  - cbn [forallb]. destruct (is_blank_line l).
    + exact IH.
    + rewrite sections_from_intro. reflexivity.
Qed.

(* ------------------------------------------------------------------ *)
(** ** White space at the ends of cleaned text *)

Lemma trimStart_length : forall s,
  List.length (trimStart s) <= List.length s.
Proof.
  induction s as [|c t IH]; [apply le_n|].
  cbn [trimStart]. destruct (is_space c); cbn [List.length]; lia.
Qed.

Lemma trim_length : forall s, List.length (trim s) <= List.length s.
Proof.
  intros s. unfold trim. rewrite length_rev.
  pose proof (trimStart_length (rev (trimStart s))) as H1.
  rewrite length_rev in H1. pose proof (trimStart_length s). lia.
Qed.

Lemma rev_last_head : forall (t : jsstring) (d : ascii),
  t <> [] -> exists r, rev t = List.last t d :: r.
Proof.
  intros t d Hne.
  destruct (exists_last Hne) as [t' [x ->]].
  rewrite rev_app_distr, last_last. exists (rev t'). reflexivity.
Qed.

Lemma trimmed_ends : forall c t,
  trim (c :: t) = c :: t ->
  is_space c = false /\ is_space (List.last (c :: t) c) = false.
Proof.
  intros c t H.
  assert (Hc : is_space c = false).
  { destruct (is_space c) eqn:E; [|reflexivity]. exfalso.
    apply (f_equal (@List.length ascii)) in H. unfold trim in H.
    rewrite length_rev in H. cbn [trimStart] in H. rewrite E in H.
    pose proof (trimStart_length (rev (trimStart t))) as H1.
    rewrite length_rev in H1. pose proof (trimStart_length t).
    cbn [List.length] in H. lia. }
  split; [exact Hc|].
  destruct (is_space (List.last (c :: t) c)) eqn:E; [|reflexivity]. exfalso.
  unfold trim in H. rewrite (@trimStart_fixed c t Hc) in H.
  destruct (@rev_last_head (c :: t) c) as [r Hr]; [discriminate|].
  rewrite Hr in H. cbn [trimStart] in H. rewrite E in H.
  apply (f_equal (@List.length ascii)) in H. rewrite length_rev in H.
  pose proof (trimStart_length r) as H1.
  apply (f_equal (@List.length ascii)) in Hr. rewrite length_rev in Hr.
  cbn [List.length] in *. lia.
Qed.

Lemma stripHtml_trim_fixed : forall tv htmlContent preserveUrls,
  trim (stripHtml tv htmlContent preserveUrls)
  = stripHtml tv htmlContent preserveUrls.
Proof.
  intros tv [[|c s]|] b; try reflexivity.
  unfold stripHtml, stripHtml_decoded. apply trim_idempotent.
Qed.

(** X6. Text cleaned by [stripHtml] neither starts nor ends with white
    space, whatever the input and the flag. *)
Theorem stripHtml_no_outer_space :
  forall textareaValue htmlContent preserveUrls c t,
    stripHtml textareaValue htmlContent preserveUrls = c :: t ->
    is_space c = false /\ is_space (List.last (c :: t) c) = false.
Proof.
  intros tv h b c t H. apply trimmed_ends.
  rewrite <- H. apply stripHtml_trim_fixed.
Qed.

Lemma stripHtml_no_outer_space_witness :
  is_space "H" = false /\ is_space (List.last (js "Hello") "H"%char) = false.
Proof.
  apply (@stripHtml_no_outer_space same_text
           (Some (js "  <p> Hello </p>  ")) true "H"%char (js "ello")).
  vm_compute. reflexivity.
Defined.

(* ------------------------------------------------------------------ *)
(** ** Associations followed by one batch read *)

Lemma associations_then_batch :
  forall srv token dealId toObject props pages fuel log,
    paged_listing srv token (assoc_url dealId toObject) pages ->
    List.length pages <= fuel ->
    bind (getAssociations srv token dealId fuel toObject)
      (fun assocs =>
         getObjectBatch srv token toObject (target_ids assocs) props) log
    = match target_ids (listing_edges pages) with
      | [] => (Done [], log ++ map (page_request token) pages)
      | _ :: _ =>
          let breq := batch_request token toObject
                        (target_ids (listing_edges pages)) props in
          if response_ok srv breq
          then (Done (match batch_results (batch_json srv breq) with
                      | Some r => r
                      | None => []
                      end),
                log ++ map (page_request token) pages ++ [breq])
          else (Throw (api_error (response_status srv breq)),
                log ++ map (page_request token) pages ++ [breq])
      end.
Proof.
  intros srv token dealId toObject props pages fuel log Hlist Hfuel.
  unfold bind at 1, getAssociations.
  rewrite (pages_loop_listing Hlist) by exact Hfuel.
  cbn [app]. fold (listing_edges pages).
  unfold getObjectBatch.
  destruct (target_ids (listing_edges pages)) as [|i ids] eqn:E.
  - reflexivity.
  - unfold bind, client_fetch. fold (batch_request token toObject (i :: ids) props).
    cbn zeta.
    destruct (response_ok srv (batch_request token toObject (i :: ids) props));
      rewrite <- app_assoc; reflexivity.
Qed.

(** X7. Given the listing of the deal's contacts, [getContacts] fetches its
    pages and then reads all targets in one batch request: no request at
    all when no edge carries a usable target, exactly one otherwise, whose
    failure is the failure of the call. *)
Theorem getContacts_requests :
  forall srv token dealId pages fuel log,
    paged_listing srv token (assoc_url dealId (js "contacts")) pages ->
    List.length pages <= fuel ->
    getContacts srv token dealId fuel log
    = match target_ids (listing_edges pages) with
      | [] => (Done [], log ++ map (page_request token) pages)
      | _ :: _ =>
          let breq := batch_request token (js "contacts")
                        (target_ids (listing_edges pages)) contact_props in
          if response_ok srv breq
          then (Done (match batch_results (batch_json srv breq) with
                      | Some r => r
                      | None => []
                      end),
                log ++ map (page_request token) pages ++ [breq])
          else (Throw (api_error (response_status srv breq)),
                log ++ map (page_request token) pages ++ [breq])
      end.
Proof.
  intros srv token dealId pages fuel log Hlist Hfuel.
  apply (associations_then_batch contact_props log Hlist Hfuel).
Qed.

Lemma getContacts_requests_witness :
  getContacts sample_remote_small sample_token sample_dealId 1 []
  = (Done [sample_contact_a; sample_contact_b],
     [mk_request sample_token sample_page1_url GET None;
      batch_request sample_token (js "contacts") [11; 12] contact_props]).
Proof.
  apply (@getContacts_requests sample_remote_small sample_token sample_dealId
           [(sample_page1_url,
             AssocPage (Some [Edge (Some 11); Edge None; Edge (Some 12)]) None)]
           1 []).
  - apply listing_last; [discriminate|reflexivity|reflexivity|reflexivity].
  - apply le_n.
Defined.

(** X8. [getCompanies] behaves in the same way on the listing of the deal's
    companies, with the company properties. *)
Theorem getCompanies_requests :
  forall srv token dealId pages fuel log,
    paged_listing srv token (assoc_url dealId (js "companies")) pages ->
    List.length pages <= fuel ->
    getCompanies srv token dealId fuel log
    = match target_ids (listing_edges pages) with
      | [] => (Done [], log ++ map (page_request token) pages)
      | _ :: _ =>
          let breq := batch_request token (js "companies")
                        (target_ids (listing_edges pages)) company_props in
          if response_ok srv breq
          then (Done (match batch_results (batch_json srv breq) with
                      | Some r => r
                      | None => []
                      end),
                log ++ map (page_request token) pages ++ [breq])
          else (Throw (api_error (response_status srv breq)),
                log ++ map (page_request token) pages ++ [breq])
      end.
Proof.
  intros srv token dealId pages fuel log Hlist Hfuel.
  apply (associations_then_batch company_props log Hlist Hfuel).
Qed.

Lemma getCompanies_requests_witness :
  getCompanies sample_remote_small sample_token sample_dealId 1 []
  = (Done [],
     [mk_request sample_token
        (js "https://api.hubapi.com/crm/v4/objects/deals/7/associations/companies")
        GET None]).
Proof.
  apply (@getCompanies_requests sample_remote_small sample_token sample_dealId
           [(js "https://api.hubapi.com/crm/v4/objects/deals/7/associations/companies",
             AssocPage None None)]
           1 []).
  - apply listing_last; [discriminate|reflexivity|reflexivity|reflexivity].
  - apply le_n.
Defined.

(* ------------------------------------------------------------------ *)
(** ** Pagination that fails or does not end *)

Lemma pages_loop_failing : forall srv token u pages u',
  paged_prefix srv token u pages u' ->
  u' <> [] ->
  failed srv (mk_request token u' GET None) ->
  forall fuel allResults log,
    List.length pages < fuel ->
    pages_loop srv token fuel (Some u) allResults log
    = (Throw (api_error
                (response_status srv (mk_request token u' GET None))),
       log ++ map (page_request token) pages
       ++ [mk_request token u' GET None]).
Proof.
  intros srv token u pages u' H.
  induction H as [u | u pg u' pgs u'' Hu Hok Hpg Hnext Hrest IH];
    intros Hne Hfail fuel allResults log Hfuel.
  - destruct u as [|c u0]; [contradiction|].
    destruct fuel as [|fuel']; [inversion Hfuel|].
    cbn [pages_loop]. unfold bind, client_fetch.
    unfold failed in Hfail. rewrite Hfail. reflexivity.
  - destruct u as [|c u0]; [contradiction|].
    destruct fuel as [|fuel']; [inversion Hfuel|].
    cbn [pages_loop]. unfold bind, client_fetch.
    rewrite Hok, Hpg, Hnext.
    rewrite IH by (try assumption; cbn [List.length] in Hfuel; lia).
    cbn [map]. unfold page_request at 2. cbn [fst app].
    rewrite <- app_assoc. reflexivity.
Qed.

(** X9. When the pages of a listing are served up to some page and that
    page is answered with a non-success status, [getAssociations] throws the
    error of that status after one request per page reached; the edges
    gathered from the earlier pages are not returned. *)
Theorem getAssociations_failing_page :
  forall srv token dealId toObject pages u' fuel log,
    paged_prefix srv token (assoc_url dealId toObject) pages u' ->
    u' <> [] ->
    failed srv (mk_request token u' GET None) ->
    List.length pages < fuel ->
    getAssociations srv token dealId fuel toObject log
    = (Throw (api_error
                (response_status srv (mk_request token u' GET None))),
       log ++ map (page_request token) pages
       ++ [mk_request token u' GET None]).
Proof.
  intros srv token dealId toObject pages u' fuel log Hpre Hne Hfail Hfuel.
  unfold getAssociations. apply (pages_loop_failing Hpre Hne Hfail). exact Hfuel.
Qed.

Lemma getAssociations_failing_page_witness :
  getAssociations sample_remote_page2_down sample_token sample_dealId 5
    (js "contacts") []
  = (Throw (js "HubSpot API error: 429"),
     [mk_request sample_token sample_page1_url GET None;
      mk_request sample_token sample_page2_url GET None]).
Proof.
  apply (@getAssociations_failing_page sample_remote_page2_down sample_token
           sample_dealId (js "contacts")
           [(sample_page1_url, sample_page1)] sample_page2_url 5 []).
  - apply prefix_cons with (u' := sample_page2_url);
      [discriminate|reflexivity|reflexivity|reflexivity|apply prefix_nil].
  - discriminate.
  - reflexivity.
  - cbn. lia.
Defined.

Lemma pages_loop_cycle : forall srv token c u fuel allResults log,
  response_ok srv (mk_request token (c :: u) GET None) = true ->
  next_link (page_json srv (mk_request token (c :: u) GET None))
    = Some (c :: u) ->
  pages_loop srv token fuel (Some (c :: u)) allResults log
  = (Diverge, log ++ repeat (mk_request token (c :: u) GET None) fuel).
Proof.
  intros srv token c u fuel; induction fuel as [|fuel IH];
    intros allResults log Hok Hnext.
  - cbn. rewrite app_nil_r. reflexivity.
  - cbn [pages_loop]. unfold bind, client_fetch. rewrite Hok, Hnext.
    rewrite IH by assumption.
    cbn [repeat]. rewrite <- app_assoc. reflexivity.
Qed.

(** X10. [getAssociations] does not detect a cursor that points back at the
    page it came from: when the first page of a listing names its own
    address as the next one, the loop requests that address again at every
    turn and never returns, however many turns it is given. *)
Theorem getAssociations_cycle_never_returns :
  forall srv token dealId toObject fuel log,
    let req := mk_request token (assoc_url dealId toObject) GET None in
    response_ok srv req = true ->
    next_link (page_json srv req) = Some (assoc_url dealId toObject) ->
    getAssociations srv token dealId fuel toObject log
    = (Diverge, log ++ repeat req fuel).
Proof.
  intros srv token dealId toObject fuel log req Hok Hnext.
  unfold getAssociations. subst req.
  remember (assoc_url dealId toObject) as u eqn:Eu.
  destruct u as [|c u0]; [unfold assoc_url in Eu; discriminate|].
  apply pages_loop_cycle; assumption.
Qed.

Lemma getAssociations_cycle_never_returns_witness :
  getAssociations sample_remote_cycle sample_token sample_dealId 3
    (js "contacts") []
  = (Diverge,
     [mk_request sample_token sample_page1_url GET None;
      mk_request sample_token sample_page1_url GET None;
      mk_request sample_token sample_page1_url GET None]).
Proof.
  apply (@getAssociations_cycle_never_returns sample_remote_cycle sample_token
           sample_dealId (js "contacts") 3 []).
  - reflexivity.
  - reflexivity.
Defined.

(* ------------------------------------------------------------------ *)
(** ** The engagement catalogue *)

Lemma engagements_loop_grouped :
  forall srv token dealId fuel config allEngagements log,
    match fst (engagements_loop srv token dealId fuel config allEngagements log)
    with
    | Done engs =>
        exists groups,
          engs = allEngagements ++ List.concat groups /\
          Forall2 (fun g cfg =>
                     Forall (fun e => engagement_type e = Some (fst cfg)) g)
            groups config
    | _ => True
    end.
Proof.
  intros srv token dealId fuel config;
    induction config as [|[engType props] config' IH];
    intros allEngagements log.
  - cbn. exists []. split; [rewrite app_nil_r; reflexivity|constructor].
  - cbn [engagements_loop]. unfold bind at 1.
    destruct (getAssociations srv token dealId fuel engType log)
      as [[assocs|e|] log1]; cbn [fst]; try exact I.
    destruct (target_ids assocs) as [|i ids].
    + specialize (IH allEngagements log1).
      destruct (fst (engagements_loop srv token dealId fuel config'
                       allEngagements log1)) as [engs|e|]; try exact I.
      destruct IH as [groups [-> HF]].
      exists ([] :: groups). split; [reflexivity|].
      constructor; [constructor|exact HF].
    + unfold bind at 1.
      destruct (getObjectBatch srv token engType (i :: ids) props log1)
        as [[details|e|] log2]; cbn [fst]; try exact I.
      specialize (IH (allEngagements ++ map (stamp engType) details) log2).
      destruct (fst (engagements_loop srv token dealId fuel config'
                       (allEngagements ++ map (stamp engType) details) log2))
        as [engs|e|]; try exact I.
      destruct IH as [groups [-> HF]].
      exists (map (stamp engType) details :: groups). split.
      * cbn [List.concat]. rewrite <- app_assoc. reflexivity.
      * constructor; [|exact HF].
        apply Forall_forall. intros x Hx. apply in_map_iff in Hx.
        destruct Hx as [d [<- _]]. reflexivity.
Qed.

Lemma grouped_known : forall groups config,
  Forall2 (fun g (cfg : jsstring * list string) =>
             Forall (fun e => engagement_type e = Some (fst cfg)) g)
    groups config ->
  (forall cfg, In cfg config -> In (fst cfg) (map fst engagementConfig)) ->
  Forall (fun e => known_category e = true) (List.concat groups).
Proof.
  intros groups config H; induction H as [|g cfg gs cfgs Hg Hrest IH];
    intros Hsub.
  - constructor.
  - cbn [List.concat]. apply Forall_app. split.
    + rewrite Forall_forall in *. intros e He.
      unfold known_category. rewrite (Hg e He).
      specialize (Hsub cfg (or_introl eq_refl)).
      apply existsb_exists. exists (fst cfg). split; [exact Hsub|].
      destruct (fst cfg) as [|c t] eqn:E.
      * exfalso. clear -Hsub. cbn in Hsub.
        repeat (destruct Hsub as [Hsub|Hsub]; [discriminate|]).
        exact Hsub.
      * cbn [or_else]. apply jsstring_eqb_refl.
    + apply IH. intros c Hc. apply Hsub. right. exact Hc.
Qed.

(** X11. The records [getAllEngagements] returns come in five groups, in
    the order emails, notes, calls, meetings, tasks, and every record of a
    group carries the name of that category as its stamp; so every record
    carries one of the five categories. *)
Theorem getAllEngagements_stamped :
  forall srv token dealId fuel log engs,
    fst (getAllEngagements srv token dealId fuel log) = Done engs ->
    (exists groups,
       engs = List.concat groups /\
       Forall2 (fun g cfg =>
                  Forall (fun e => engagement_type e = Some (fst cfg)) g)
         groups engagementConfig) /\
    Forall (fun e => known_category e = true) engs.
Proof.
  intros srv token dealId fuel log engs H.
  pose proof (engagements_loop_grouped srv token dealId fuel
                engagementConfig [] log) as G.
  unfold getAllEngagements in H. rewrite H in G.
  destruct G as [groups [-> HF]]. cbn [app]. split.
  - exists groups. split; [reflexivity|exact HF].
  - apply (grouped_known HF). intros cfg Hin. apply in_map. exact Hin.
Qed.

Lemma getAllEngagements_stamped_witness :
  (exists groups,
     [stamp (js "notes") sample_note_record] = List.concat groups /\
     Forall2 (fun g cfg =>
                Forall (fun e => engagement_type e = Some (fst cfg)) g)
       groups engagementConfig) /\
  Forall (fun e => known_category e = true)
    [stamp (js "notes") sample_note_record].
Proof.
  apply (@getAllEngagements_stamped sample_remote_notes sample_token
           sample_dealId 1 []).
  vm_compute. reflexivity.
Defined.

(* ------------------------------------------------------------------ *)
(** ** Runs that end without a failed request *)

Lemma interleave_perm : forall t qa qb,
  Permutation (interleave t qa qb) (qa ++ qb).
Proof.
  induction t as [|[|] t IH]; intros qa qb; cbn [interleave].
  - apply Permutation_refl.
  - destruct qa as [|x qa']; [apply Permutation_refl|].
    cbn [app]. apply perm_skip, IH.
  - destruct qb as [|y qb'].
    + rewrite app_nil_r. apply Permutation_refl.
    + eapply perm_trans; [apply perm_skip, IH|]. apply Permutation_middle.
Qed.

(** The requests of two operations started together are those of the one
    and those of the other, each once. *)
Lemma issue_order_perm : forall sched qa qb,
  Permutation (issue_order sched qa qb) (qa ++ qb).
Proof.
  intros sched qa qb. unfold issue_order.
  destruct qa as [|x qa']; destruct qb as [|y qb']; cbn [firstn skipn app].
  - apply interleave_perm.
  - apply perm_skip. apply (interleave_perm (turns sched) [] qb').
  - apply perm_skip, interleave_perm.
  - apply perm_skip.
    eapply perm_trans; [apply perm_skip, interleave_perm|].
    apply Permutation_middle.
Qed.

Lemma issue_order_length : forall sched qa qb,
  List.length (issue_order sched qa qb) = List.length qa + List.length qb.
Proof.
  intros sched qa qb.
  rewrite (Permutation_length (issue_order_perm sched qa qb)).
  apply length_app.
Qed.

(** [Promise.all] of two operations whose outcomes and requests are
    known. *)
Lemma promise_all_eq : forall A B sched (a : M A) (b : M B) log ra rb qa qb,
  a log = (ra, log ++ qa) -> b log = (rb, log ++ qb) ->
  promise_all sched a b log
  = (match ra, rb with
     | Throw ea, Throw eb => Throw (if first_settles sched then ea else eb)
     | Throw ea, _ => Throw ea
     | _, Throw eb => Throw eb
     | Done x, Done y => Done (x, y)
     | _, _ => Diverge
     end, log ++ issue_order sched qa qb).
Proof.
  intros A B sched a b log ra rb qa qb Ha Hb. unfold promise_all.
  rewrite Ha, Hb, !skipn_length_app. reflexivity.
Qed.

(** X12. When the deal request succeeds but its body holds no deal, the
    run stops there: it throws the could-not-fetch error and issues no
    further request. *)
Theorem runAnalysis_null_deal :
  forall tv fm fs srv token dealId sched fuel log,
    response_ok srv (deal_request token dealId) = true ->
    deal_json srv (deal_request token dealId) = None ->
    runAnalysis_dealContent tv fm fs srv token dealId sched fuel log
    = (Throw no_deal_message, log ++ [deal_request token dealId]).
Proof.
  intros tv fm fs srv token dealId sched fuel log Hok Hnull.
  unfold runAnalysis_dealContent, bind, getDeal, client_fetch.
  fold (deal_request token dealId). rewrite Hok, Hnull. reflexivity.
Qed.

Lemma runAnalysis_null_deal_witness :
  runAnalysis_dealContent same_text same_text same_text
    sample_remote_null_deal sample_token sample_dealId sample_schedule 3 []
  = (Throw no_deal_message, [deal_request sample_token sample_dealId]).
Proof.
  apply (@runAnalysis_null_deal same_text same_text same_text
           sample_remote_null_deal sample_token sample_dealId
           sample_schedule 3 []).
  - reflexivity.
  - reflexivity.
Defined.

Lemma getAssociations_single_page : forall srv token dealId fuel toObject log,
  (forall req, response_ok srv req = true) ->
  (forall req, next_link (page_json srv req) = None) ->
  getAssociations srv token dealId (S fuel) toObject log
  = (Done (page_results
             (page_json srv
                (mk_request token (assoc_url dealId toObject) GET None))),
     log ++ [mk_request token (assoc_url dealId toObject) GET None]).
Proof.
  intros srv token dealId fuel toObject log Hok Hnext.
  unfold getAssociations.
  remember (assoc_url dealId toObject) as u eqn:Eu.
  destruct u as [|c u0]; [unfold assoc_url in Eu; discriminate|].
  cbn [pages_loop]. unfold bind, client_fetch. rewrite Hok, Hnext.
  destruct fuel; reflexivity.
Qed.

Lemma associations_batch_single_page :
  forall srv token dealId fuel toObject props log,
    (forall req, response_ok srv req = true) ->
    (forall req, next_link (page_json srv req) = None) ->
    bind (getAssociations srv token dealId (S fuel) toObject)
      (fun assocs =>
         getObjectBatch srv token toObject (target_ids assocs) props) log
    = (Done (served_records srv token dealId toObject props),
       log ++ served_requests srv token dealId toObject props).
Proof.
  intros srv token dealId fuel toObject props log Hok Hnext.
  unfold bind at 1. rewrite getAssociations_single_page by assumption.
  unfold served_records, served_requests.
  fold (listed_ids srv token dealId toObject).
  unfold getObjectBatch.
  destruct (listed_ids srv token dealId toObject) as [|i ids].
  - unfold ret. reflexivity.
  - unfold bind, client_fetch, ret.
    fold (batch_request token toObject (i :: ids) props).
    rewrite Hok, <- app_assoc. reflexivity.
Qed.

Lemma engagements_loop_single_page :
  forall srv token dealId fuel config allEngagements log,
    (forall req, response_ok srv req = true) ->
    (forall req, next_link (page_json srv req) = None) ->
    engagements_loop srv token dealId (S fuel) config allEngagements log
    = (Done (allEngagements
             ++ flat_map (fun c => map (stamp (fst c))
                                     (served_records srv token dealId
                                        (fst c) (snd c))) config),
       log ++ flat_map (fun c => served_requests srv token dealId
                                   (fst c) (snd c)) config).
Proof.
  intros srv token dealId fuel config;
    induction config as [|[engType props] config' IH];
    intros allEngagements log Hok Hnext.
  - cbn. rewrite !app_nil_r. reflexivity.
  - cbn [engagements_loop flat_map fst snd]. unfold bind at 1.
    rewrite getAssociations_single_page by assumption.
    unfold served_records at 1, served_requests at 1.
    fold (listed_ids srv token dealId engType).
    destruct (listed_ids srv token dealId engType) as [|i ids].
    + rewrite IH by assumption. cbn [map app].
      rewrite <- app_assoc. reflexivity.
    + unfold bind at 1, getObjectBatch at 1, bind at 1, client_fetch, ret.
      fold (batch_request token engType (i :: ids) props).
      rewrite Hok. rewrite IH by assumption.
      repeat rewrite <- app_assoc. reflexivity.
Qed.

Lemma served_requests_length : forall srv token dealId toObject props,
  1 <= List.length (served_requests srv token dealId toObject props) <= 2.
Proof.
  intros. unfold served_requests.
  destruct (listed_ids srv token dealId toObject); cbn [List.length]; lia.
Qed.

(** X13. Against a remote that answers every request successfully, serves
    every listing in a single page and returns a deal, a run with at least
    one loop turn ends with the document formatted from the deal, from the
    records the remote gives for contacts and for companies, and from the
    records it gives for the five engagement categories, in the order of
    the catalogue and stamped with their category.  The requests are the
    deal request, those for contacts and companies in the order of the
    schedule, and those of the categories in turn: between 8 and 15. *)
Theorem runAnalysis_single_page_success :
  forall tv fm fs srv token dealId sched fuel log deal,
    (forall req, response_ok srv req = true) ->
    (forall req, next_link (page_json srv req) = None) ->
    deal_json srv (deal_request token dealId) = Some deal ->
    let records := served_records srv token dealId in
    let requests := served_requests srv token dealId in
    let engagements :=
      flat_map (fun c => map (stamp (fst c)) (records (fst c) (snd c)))
        engagementConfig in
    let reqs :=
      deal_request token dealId
      :: issue_order sched (requests (js "contacts") contact_props)
           (requests (js "companies") company_props)
      ++ flat_map (fun c => requests (fst c) (snd c)) engagementConfig in
    runAnalysis_dealContent tv fm fs srv token dealId sched (S fuel) log
    = (Done (formatDealForClaude tv fm fs deal
               (records (js "contacts") contact_props)
               (records (js "companies") company_props)
               engagements (collectAllUrls engagements)),
       log ++ reqs)
    /\ 8 <= List.length reqs <= 15.
Proof.
  intros tv fm fs srv token dealId sched fuel log deal Hok Hnext Hdeal
    records requests engagements reqs.
  split.
  - unfold runAnalysis_dealContent. unfold bind at 1.
    unfold getDeal, client_fetch. fold (deal_request token dealId).
    rewrite Hok, Hdeal. unfold bind at 1.
    rewrite (@promise_all_eq _ _ sched
               (getContacts srv token dealId (S fuel))
               (getCompanies srv token dealId (S fuel))
               (log ++ [deal_request token dealId])
               (Done (records (js "contacts") contact_props))
               (Done (records (js "companies") company_props))
               (requests (js "contacts") contact_props)
               (requests (js "companies") company_props)).
    + unfold bind at 1, getAllEngagements.
      rewrite engagements_loop_single_page by assumption.
      unfold ret. cbn [app]. unfold reqs, engagements, records, requests.
      repeat rewrite <- app_assoc. reflexivity.
    + apply (associations_batch_single_page srv token dealId fuel
               (js "contacts") contact_props _ Hok Hnext).
    + apply (associations_batch_single_page srv token dealId fuel
               (js "companies") company_props _ Hok Hnext).
  - unfold reqs. cbn [List.length]. rewrite length_app, issue_order_length.
    pose proof (served_requests_length srv token dealId (js "contacts")
                  contact_props) as H1.
    pose proof (served_requests_length srv token dealId (js "companies")
                  company_props) as H2.
    fold requests in H1, H2.
    assert (H3 : 5 <= List.length
                       (flat_map (fun c => requests (fst c) (snd c))
                          engagementConfig) <= 10).
    { unfold engagementConfig. cbn [flat_map fst snd].
      repeat rewrite length_app. cbn [List.length].
      repeat match goal with
             | |- context [List.length (requests ?t ?p)] =>
                 let H := fresh in
                 pose proof (served_requests_length srv token dealId t p) as H;
                 fold requests in H;
                 generalize dependent (List.length (requests t p)); intros
             end.
      lia. }
    lia.
Qed.

Lemma runAnalysis_single_page_success_witness :
  runAnalysis_dealContent same_text same_text same_text sample_remote_small
    sample_token sample_dealId sample_schedule 1 []
  = (Done (formatDealForClaude same_text same_text same_text
             (CrmObject (js "7")
                (Some (props_of [("dealname", "Acme Renewal")]%string)) None)
             [sample_contact_a; sample_contact_b] [] [] []),
     [] ++ [deal_request sample_token sample_dealId;
            mk_request sample_token sample_page1_url GET None;
            mk_request sample_token
              (assoc_url sample_dealId (js "companies")) GET None;
            batch_request sample_token (js "contacts") [11; 12] contact_props;
            mk_request sample_token (assoc_url sample_dealId (js "emails"))
              GET None;
            mk_request sample_token (assoc_url sample_dealId (js "notes"))
              GET None;
            mk_request sample_token (assoc_url sample_dealId (js "calls"))
              GET None;
            mk_request sample_token (assoc_url sample_dealId (js "meetings"))
              GET None;
            mk_request sample_token (assoc_url sample_dealId (js "tasks"))
              GET None])
  /\ 8 <= 9 <= 15.
Proof.
  apply (@runAnalysis_single_page_success same_text same_text same_text
           sample_remote_small sample_token sample_dealId sample_schedule
           0 []).
  - intros req. reflexivity.
  - intros req. unfold sample_remote_small. cbn [page_json].
    destruct (jsstring_eqb (url req) sample_page1_url); reflexivity.
  - reflexivity.
Defined.

(* ------------------------------------------------------------------ *)
(** ** Fetch errors abort the run *)

Lemma issue_order_nil : forall sched, issue_order sched [] [] = [].
Proof.
  intros sched. unfold issue_order. cbn [firstn skipn app].
  destruct (turns sched) as [|[|] t]; reflexivity.
Qed.

Lemma all_ok_perm : forall srv l l',
  Permutation l l' -> all_ok srv l -> all_ok srv l'.
Proof.
  intros srv l l' Hp H. unfold all_ok in *.
  apply (Permutation_Forall Hp H).
Qed.

(** [Promise.all] of two operations of the client. *)
Lemma promise_all_disciplined : forall A B srv sched (a : M A) (b : M B),
  fetch_disciplined srv a -> fetch_disciplined srv b ->
  forall log, exists qa qb,
    snd (a log) = log ++ qa /\ snd (b log) = log ++ qb /\
    snd (promise_all sched a b log) = log ++ issue_order sched qa qb /\
    stops_at_failure srv qa /\ stops_at_failure srv qb /\
    ((all_ok srv (qa ++ qb) /\
      (forall e, fst (promise_all sched a b log) <> Throw e) /\
      (forall x y, fst (promise_all sched a b log) = Done (x, y) ->
                   fst (a log) = Done x /\ fst (b log) = Done y))
     \/
     (exists r, In r (qa ++ qb) /\ failed srv r /\
        fst (promise_all sched a b log)
        = Throw (api_error (response_status srv r)))).
Proof.
  intros A B srv sched a b Ha Hb log.
  destruct (Ha log) as [qa [Ea Hra]].
  destruct (a log) as [oa loga] eqn:Eqa. cbn [fst snd] in *. subst loga.
  destruct (Hb log) as [qb [Eb Hrb]].
  destruct (b log) as [ob logb] eqn:Eqb. cbn [fst snd] in *. subst logb.
  exists qa, qb.
  rewrite (@promise_all_eq _ _ sched a b log oa ob qa qb Eqa Eqb).
  cbn [fst snd].
  split; [reflexivity|]. split; [reflexivity|]. split; [reflexivity|].
  assert (Sa : stops_at_failure srv qa).
  { destruct Hra as [[H _]|[e [_ H]]];
      [apply all_ok_stops|eapply ends_in_failure_stops]; eassumption. }
  assert (Sb : stops_at_failure srv qb).
  { destruct Hrb as [[H _]|[e [_ H]]];
      [apply all_ok_stops|eapply ends_in_failure_stops]; eassumption. }
  split; [exact Sa|]. split; [exact Sb|].
  destruct Hra as [[Hoka Hnta]|[ea [Hea Henda]]].
  - destruct Hrb as [[Hokb Hntb]|[eb [Heb Hendb]]].
    + left. split; [apply Forall_app; split; assumption|]. split.
      * intros e. destruct oa as [x|e1|]; destruct ob as [y|e2|];
          try discriminate;
          try (exfalso; apply (Hnta e1); reflexivity);
          try (exfalso; apply (Hntb e2); reflexivity).
      * intros x y H. destruct oa as [x'|e1|]; destruct ob as [y'|e2|];
          try discriminate H.
        injection H as -> ->. split; reflexivity.
    + right. destruct (ends_in_failure_in Hendb) as [r [Hin [Hf He]]].
      exists r. split; [apply in_or_app; right; exact Hin|].
      split; [exact Hf|]. subst ob eb.
      destruct oa as [x|e1|]; try reflexivity.
      exfalso. apply (Hnta e1). reflexivity.
  - subst oa. destruct ob as [y|e2|].
    + right. destruct (ends_in_failure_in Henda) as [r [Hin [Hf He]]].
      exists r. split; [apply in_or_app; left; exact Hin|].
      split; [exact Hf|]. subst ea. reflexivity.
    + destruct (first_settles sched).
      * right. destruct (ends_in_failure_in Henda) as [r [Hin [Hf He]]].
        exists r. split; [apply in_or_app; left; exact Hin|].
        split; [exact Hf|]. subst ea. reflexivity.
      * destruct Hrb as [[_ Hntb]|[eb [Heb Hendb]]];
          [exfalso; apply (Hntb e2); reflexivity|].
        injection Heb as <-.
        right. destruct (ends_in_failure_in Hendb) as [r [Hin [Hf He]]].
        exists r. split; [apply in_or_app; right; exact Hin|].
        split; [exact Hf|]. subst e2. reflexivity.
    + right. destruct (ends_in_failure_in Henda) as [r [Hin [Hf He]]].
      exists r. split; [apply in_or_app; left; exact Hin|].
      split; [exact Hf|]. subst ea. reflexivity.
Qed.

Lemma In_issue_order : forall sched qa qb r,
  In r (issue_order sched qa qb) <-> In r (qa ++ qb).
Proof.
  intros sched qa qb r. split; intros H.
  - apply (Permutation_in r (issue_order_perm sched qa qb) H).
  - apply (Permutation_in r (Permutation_sym (issue_order_perm sched qa qb)) H).
Qed.

(** C2. A request answered with a non-success status makes
    [HubSpotClient.fetch] throw the error of that status, with that one
    request issued.  So does the run when the deal request is so answered,
    a listing of associations when one of its pages is, and a batch read
    when its request is; none of them issues a request after the failed
    one.  In every run the requests are those for the deal, those of the
    two operations [Promise.all] starts, in the order of the schedule, and
    those for the engagements.  If any of them is answered with a
    non-success status, the run ends with the thrown error of a failed
    request and with no document; a run that returns a document has had
    every request answered successfully, and the document is formatted from
    what the four operations returned.  No operation issues a request after
    one of its requests failed; after a failed deal request nothing else is
    requested, and after a failure of one of the two concurrent operations
    no engagement is requested: nothing is retried. *)
Theorem runAnalysis_fetch_error_aborts :
  forall tv fm fs srv token dealId sched fuel log,
    let run := runAnalysis_dealContent tv fm fs srv token dealId sched fuel in
    (forall (A : Type) (json : request -> A) req l,
       failed srv req ->
       client_fetch srv json req l
       = (Throw (api_error (response_status srv req)), l ++ [req])) /\
    (failed srv (deal_request token dealId) ->
       run log
       = (Throw (api_error
                   (response_status srv (deal_request token dealId))),
          log ++ [deal_request token dealId])) /\
    (forall toObject pages u' l,
       paged_prefix srv token (assoc_url dealId toObject) pages u' ->
       u' <> [] ->
       failed srv (mk_request token u' GET None) ->
       List.length pages < fuel ->
       getAssociations srv token dealId fuel toObject l
       = (Throw (api_error
                   (response_status srv (mk_request token u' GET None))),
          l ++ map (page_request token) pages
            ++ [mk_request token u' GET None])) /\
    (forall objectType i ids props l,
       failed srv (batch_request token objectType (i :: ids) props) ->
       getObjectBatch srv token objectType (i :: ids) props l
       = (Throw (api_error
                   (response_status srv
                      (batch_request token objectType (i :: ids) props))),
          l ++ [batch_request token objectType (i :: ids) props])) /\
    exists dDeal qContacts qCompanies dEng,
      let dBoth := issue_order sched qContacts qCompanies in
      let reqs := dDeal ++ dBoth ++ dEng in
      snd (run log) = log ++ reqs /\
      (Exists (failed srv) reqs ->
         exists r, In r reqs /\ failed srv r /\
                   fst (run log) = Throw (api_error (response_status srv r))) /\
      (forall doc, fst (run log) = Done doc ->
         all_ok srv reqs /\
         exists deal contacts companies engagements,
           fst (getDeal srv token dealId log) = Done (Some deal) /\
           fst (getContacts srv token dealId fuel (log ++ dDeal))
           = Done contacts /\
           fst (getCompanies srv token dealId fuel (log ++ dDeal))
           = Done companies /\
           fst (getAllEngagements srv token dealId fuel
                  (log ++ dDeal ++ dBoth)) = Done engagements /\
           doc = formatDealForClaude tv fm fs deal contacts companies
                   engagements (collectAllUrls engagements)) /\
      stops_at_failure srv dDeal /\ stops_at_failure srv qContacts /\
      stops_at_failure srv qCompanies /\ stops_at_failure srv dEng /\
      (Exists (failed srv) dDeal ->
         qContacts = [] /\ qCompanies = [] /\ dEng = []) /\
      (Exists (failed srv) dBoth -> dEng = []).
Proof.
  intros tv fm fs srv token dealId sched fuel log run.
  split.
  { intros A json req l Hf. unfold client_fetch. unfold failed in Hf.
    rewrite Hf. reflexivity. }
  split.
  { intros Hf. unfold run, runAnalysis_dealContent, bind, getDeal, client_fetch.
    fold (deal_request token dealId). unfold failed in Hf. rewrite Hf.
    reflexivity. }
  split.
  { intros toObject pages u' l Hpre Hne Hf Hfuel. unfold getAssociations.
    apply (pages_loop_failing Hpre Hne Hf). exact Hfuel. }
  split.
  { intros objectType i ids props l Hf.
    unfold getObjectBatch, bind, client_fetch.
    fold (batch_request token objectType (i :: ids) props).
    unfold failed in Hf. rewrite Hf. reflexivity. }
  unfold run, runAnalysis_dealContent, bind.
  destruct (disciplined_getDeal srv token dealId log) as [d1 [E1 H1]].
  pose proof (disciplined_stops _ _ E1 H1) as S1.
  destruct (getDeal srv token dealId log) as [o1 log1] eqn:Eg.
  cbn [fst snd] in *. subst log1.
  destruct o1 as [[deal|]|e1|].
  - (* the deal was fetched *)
    destruct H1 as [[Hok1 _]|[e [He _]]]; [|discriminate].
    destruct (promise_all_disciplined sched
                (disciplined_getContacts srv token dealId fuel)
                (disciplined_getCompanies srv token dealId fuel)
                (log ++ d1)) as [qa [qb [Ea [Eb [E2 [Sa [Sb H2]]]]]]].
    destruct (promise_all sched (getContacts srv token dealId fuel)
                (getCompanies srv token dealId fuel) (log ++ d1))
      as [o2 log2] eqn:Ep.
    cbn [fst snd] in *. subst log2.
    destruct o2 as [[contacts companies]|e2|].
    + (* contacts and companies were fetched *)
      destruct H2 as [[Hok2 [_ Hdone]]|[r [_ [_ Hr]]]]; [|discriminate].
      destruct (Hdone contacts companies eq_refl) as [Hca Hco].
      destruct (disciplined_getAllEngagements srv token dealId fuel
                  ((log ++ d1) ++ issue_order sched qa qb)) as [d4 [E4 H4]].
      pose proof (disciplined_stops _ _ E4 H4) as S4.
      destruct (getAllEngagements srv token dealId fuel
                  ((log ++ d1) ++ issue_order sched qa qb))
        as [o4 log4] eqn:Ee.
      cbn [fst snd] in *. subst log4.
      exists d1, qa, qb, d4. cbn zeta. cbn [fst snd].
      assert (HokB : all_ok srv (issue_order sched qa qb)).
      { apply (all_ok_perm (Permutation_sym (issue_order_perm sched qa qb))).
        exact Hok2. }
      split; [repeat rewrite <- app_assoc; destruct o4; reflexivity|].
      split; [|split; [|split; [|split; [|split; [|split; [|split]]]]]];
        try assumption.
      * intros Hex.
        destruct H4 as [[Hok4 _]|[e [He Hend]]].
        -- exfalso. apply (all_ok_no_failure (srv := srv)
             (reqs := d1 ++ issue_order sched qa qb ++ d4)); [|exact Hex].
           apply Forall_app; split; [exact Hok1|].
           apply Forall_app; split; assumption.
        -- destruct (ends_in_failure_in Hend) as [r [Hin [Hf Hmsg]]].
           exists r. split.
           ++ apply in_or_app; right. apply in_or_app; right. exact Hin.
           ++ split; [exact Hf|]. subst o4 e. reflexivity.
      * intros doc Hdoc.
        destruct H4 as [[Hok4 _]|[e [He _]]]; [|subst o4; discriminate].
        split.
        -- apply Forall_app; split; [exact Hok1|].
           apply Forall_app; split; assumption.
        -- destruct o4 as [engs| |]; try discriminate Hdoc.
           exists deal, contacts, companies, engs.
           split; [reflexivity|]. split; [exact Hca|]. split; [exact Hco|].
           rewrite app_assoc, Ee. split; [reflexivity|].
           unfold ret in Hdoc. cbn [fst] in Hdoc.
           injection Hdoc as <-. reflexivity.
      * intros Hex. exfalso. apply (all_ok_no_failure Hok1 Hex).
      * intros Hex. exfalso. apply (all_ok_no_failure HokB Hex).
    + (* one of the two concurrent operations threw *)
      exists d1, qa, qb, []. cbn zeta. cbn [fst snd].
      repeat rewrite app_nil_r.
      split; [repeat rewrite <- app_assoc; reflexivity|].
      split; [|split; [|split; [|split; [|split; [|split; [|split]]]]]];
        try assumption; try apply stops_at_failure_nil.
      * intros Hex.
        destruct H2 as [[Hok2 [Hnt _]]|[r [Hin [Hf Hr]]]].
        -- exfalso. apply (Hnt e2). reflexivity.
        -- exists r. split.
           ++ apply in_or_app; right. apply In_issue_order. exact Hin.
           ++ injection Hr as ->. split; [exact Hf|reflexivity].
      * intros doc Hdoc. discriminate.
      * intros Hex. exfalso. apply (all_ok_no_failure Hok1 Hex).
      * intros _. reflexivity.
    + (* one of the two concurrent operations did not end *)
      exists d1, qa, qb, []. cbn zeta. cbn [fst snd].
      repeat rewrite app_nil_r.
      split; [repeat rewrite <- app_assoc; reflexivity|].
      split; [|split; [|split; [|split; [|split; [|split; [|split]]]]]];
        try assumption; try apply stops_at_failure_nil.
      * intros Hex.
        destruct H2 as [[Hok2 _]|[r [_ [_ Hr]]]]; [|discriminate].
        exfalso. apply (all_ok_no_failure (srv := srv)
          (reqs := d1 ++ issue_order sched qa qb)); [|exact Hex].
        apply Forall_app; split; [exact Hok1|].
        apply (all_ok_perm (Permutation_sym (issue_order_perm sched qa qb))).
        exact Hok2.
      * intros doc Hdoc. discriminate.
      * intros Hex. exfalso. apply (all_ok_no_failure Hok1 Hex).
      * intros _. reflexivity.
  - (* the answer carried no deal *)
    destruct H1 as [[Hok1 _]|[e [He _]]]; [|discriminate].
    exists d1, [], [], []. cbn zeta. cbn [fst snd throw].
    rewrite issue_order_nil. repeat rewrite app_nil_r.
    split; [reflexivity|].
    split; [|split; [|split; [|split; [|split; [|split; [|split]]]]]];
      try assumption; try apply stops_at_failure_nil.
    + intros Hex. exfalso. apply (all_ok_no_failure Hok1 Hex).
    + intros doc Hdoc. discriminate.
    + intros _. repeat split.
    + intros _. reflexivity.
  - (* fetching the deal threw *)
    destruct H1 as [[_ Hnt]|[e [He Hend]]];
      [exfalso; apply (Hnt e1); reflexivity|].
    injection He as <-.
    exists d1, [], [], []. cbn zeta. cbn [fst snd].
    rewrite issue_order_nil. repeat rewrite app_nil_r.
    split; [reflexivity|].
    split; [|split; [|split; [|split; [|split; [|split; [|split]]]]]];
      try assumption; try apply stops_at_failure_nil.
    + intros _. destruct (ends_in_failure_in Hend) as [r [Hin [Hf Hmsg]]].
      exists r. split; [exact Hin|]. split; [exact Hf|]. subst e1. reflexivity.
    + intros doc Hdoc. discriminate.
    + intros _. repeat split.
    + intros _. reflexivity.
  - destruct H1 as [[Hok1 _]|[e [He _]]]; [|discriminate].
    exists d1, [], [], []. cbn zeta. cbn [fst snd].
    rewrite issue_order_nil. repeat rewrite app_nil_r.
    split; [reflexivity|].
    split; [|split; [|split; [|split; [|split; [|split; [|split]]]]]];
      try assumption; try apply stops_at_failure_nil.
    + intros Hex. exfalso. apply (all_ok_no_failure Hok1 Hex).
    + intros doc Hdoc. discriminate.
    + intros _. repeat split.
    + intros _. reflexivity.
Qed.

(** A run against a remote that is unavailable: one request, the error of
    its status, no document. *)
Example runAnalysis_unavailable : forall sched,
  runAnalysis_dealContent same_text same_text same_text unavailable_remote
    sample_token sample_dealId sched 5 []
  = (Throw (js "HubSpot API error: 503"),
     [mk_request sample_token
        (js "https://api.hubapi.com/crm/v3/objects/deals/7?properties=dealname,amount,dealstage,pipeline,closedate,createdate,hubspot_owner_id,description,hs_lastmodifieddate")
        GET None]).
Proof.
  intros sched. vm_compute. reflexivity.
Qed.

(** A run in which both concurrent operations fail: the listing of the
    contacts with status 429, that of the companies with status 503.  The
    run throws the error of the operation that settles first; the other
    error is lost, and no engagement is requested. *)
Example runAnalysis_both_listings_down : forall turns,
  runAnalysis_dealContent same_text same_text same_text
    sample_remote_listings_down sample_token sample_dealId
    (Schedule turns true) 5 []
  = (Throw (js "HubSpot API error: 429"),
     [deal_request sample_token sample_dealId;
      mk_request sample_token sample_page1_url GET None;
      mk_request sample_token (assoc_url sample_dealId (js "companies"))
        GET None]) /\
  runAnalysis_dealContent same_text same_text same_text
    sample_remote_listings_down sample_token sample_dealId
    (Schedule turns false) 5 []
  = (Throw (js "HubSpot API error: 503"),
     [deal_request sample_token sample_dealId;
      mk_request sample_token sample_page1_url GET None;
      mk_request sample_token (assoc_url sample_dealId (js "companies"))
        GET None]).
Proof.
  intros turns. split.
  - unfold runAnalysis_dealContent, bind, promise_all, issue_order.
    cbn [getDeal]. destruct turns as [|[|] t]; vm_compute; reflexivity.
  - unfold runAnalysis_dealContent, bind, promise_all, issue_order.
    cbn [getDeal]. destruct turns as [|[|] t]; vm_compute; reflexivity.
Qed.

(* ------------------------------------------------------------------ *)
(** ** The keys of the collected mapping *)

Lemma obj_set_twice : forall m k v1 v2,
  obj_set (obj_set m k v1) k v2 = obj_set m k v2.
Proof.
  induction m as [|[k' v'] t IH]; intros k v1 v2; cbn [obj_set].
  - rewrite jsstring_eqb_refl. reflexivity.
  - destruct (jsstring_eqb k' k) eqn:E; cbn [obj_set]; rewrite E.
    + reflexivity.
    + rewrite IH. reflexivity.
Qed.

Lemma push_context_eq : forall context m u,
  push_context context m u = obj_set m u (contexts_of m u ++ [context]).
Proof.
  intros context m u. unfold push_context, contexts_of.
  destruct (obj_get m u) as [old|] eqn:E.
  - rewrite E. reflexivity.
  - rewrite obj_get_set_same, obj_set_twice. reflexivity.
Qed.

Lemma obj_get_none_keys : forall m k,
  obj_get m k = None <-> ~ In k (map fst m).
Proof.
  induction m as [|[k' v'] t IH]; intros k; cbn [obj_get map fst In].
  - split; [intros _ []|reflexivity].
  - destruct (jsstring_eqb k' k) eqn:E.
    + apply jsstring_eqb_eq in E. subst k'. split; [discriminate|].
      intros H. exfalso. apply H. left. reflexivity.
    + rewrite IH. split.
      * intros H [Heq|Hin]; [|exact (H Hin)].
        subst k'. rewrite jsstring_eqb_refl in E. discriminate.
      * intros H Hin. apply H. right. exact Hin.
Qed.

Lemma obj_set_keys : forall m k v,
  map fst (obj_set m k v)
  = match obj_get m k with
    | Some _ => map fst m
    | None => map fst m ++ [k]
    end.
Proof.
  induction m as [|[k' v'] t IH]; intros k v; cbn [obj_set obj_get].
  - reflexivity.
  - destruct (jsstring_eqb k' k) eqn:E; cbn [map fst].
    + reflexivity.
    + rewrite IH. destruct (obj_get t k); reflexivity.
Qed.

Lemma obj_set_keys_NoDup : forall m k v,
  NoDup (map fst m) -> NoDup (map fst (obj_set m k v)).
Proof.
  intros m k v H. rewrite obj_set_keys.
  destruct (obj_get m k) eqn:E; [exact H|].
  apply NoDup_snoc; [exact H|]. apply obj_get_none_keys. exact E.
Qed.

Lemma obj_set_nonempty : forall m k v,
  Forall (fun e => snd e <> []) m -> v <> [] ->
  Forall (fun e : jsstring * list jsstring => snd e <> []) (obj_set m k v).
Proof.
  induction m as [|[k' v'] t IH]; intros k v Hm Hv; cbn [obj_set].
  - constructor; [exact Hv|constructor].
  - inversion Hm as [|? ? Hh Ht]; subst.
    destruct (jsstring_eqb k' k).
    + constructor; [exact Hv|exact Ht].
    + constructor; [exact Hh|apply IH; assumption].
Qed.

Lemma push_context_ok : forall context m u,
  url_map_ok m -> url_map_ok (push_context context m u).
Proof.
  intros context m u [Hnd Hne]. rewrite push_context_eq. split.
  - apply obj_set_keys_NoDup, Hnd.
  - apply obj_set_nonempty; [exact Hne|].
    intros E. apply app_eq_nil in E. destruct E as [_ E]. discriminate.
Qed.

Lemma collect_step_ok : forall m eng,
  url_map_ok m -> url_map_ok (collect_step m eng).
Proof.
  intros m eng H. rewrite collect_step_eq.
  generalize dependent m.
  induction (extractUrlsFromContent (engContent eng)) as [|u t IH];
    intros m H; cbn [fold_left]; [exact H|].
  apply IH, push_context_ok, H.
Qed.

Lemma collect_fold_ok : forall engagements m,
  url_map_ok m -> url_map_ok (fold_left collect_step engagements m).
Proof.
  induction engagements as [|e t IH]; intros m H; cbn [fold_left]; [exact H|].
  apply IH, collect_step_ok, H.
Qed.

(** X14. In the mapping [collectAllUrls] returns no URL is listed twice
    and every URL has at least one context. *)
Theorem collectAllUrls_wellformed : forall engagements,
  NoDup (map fst (collectAllUrls engagements)) /\
  Forall (fun e => snd e <> []) (collectAllUrls engagements).
Proof.
  intros engagements. apply collect_fold_ok. split; constructor.
Qed.

Lemma key_iff_contexts : forall m k,
  url_map_ok m -> (In k (map fst m) <-> contexts_of m k <> []).
Proof.
  intros m k [_ Hne]. unfold contexts_of.
  destruct (obj_get m k) as [v|] eqn:E.
  - split.
    + intros _ Hv. subst v.
      assert (Hin : In (k, @nil jsstring) m).
      { clear Hne. induction m as [|[k' v'] t IH]; cbn [obj_get] in E;
          [discriminate|].
        destruct (jsstring_eqb k' k) eqn:Ek.
        - apply jsstring_eqb_eq in Ek. injection E as ->. subst k'.
          left. reflexivity.
        - right. apply IH, E. }
      rewrite Forall_forall in Hne. apply (Hne _ Hin). reflexivity.
    + intros _. destruct (in_dec (list_eq_dec ascii_dec) k (map fst m))
        as [Hin|Hout]; [exact Hin|].
      apply obj_get_none_keys in Hout. congruence.
  - split.
    + intros Hin. apply obj_get_none_keys in E. contradiction.
    + intros H. contradiction H. reflexivity.
Qed.

(** X15. The URLs listed in the mapping are exactly the URLs found in the
    content of some record. *)
Theorem collectAllUrls_keys : forall engagements url,
  In url (map fst (collectAllUrls engagements)) <->
  exists eng, In eng engagements /\ mentions url eng = true.
Proof.
  intros engagements url.
  rewrite (@key_iff_contexts (collectAllUrls engagements) url)
    by (apply collect_fold_ok; split; constructor).
  unfold collectAllUrls. rewrite contexts_of_collect. cbn [contexts_of obj_get app].
  split.
  - intros H. destruct (filter (mentions url) engagements) as [|e t] eqn:E;
      [contradiction H; reflexivity|].
    exists e. apply filter_In. rewrite E. left. reflexivity.
  - intros [e He] H. apply filter_In in He.
    destruct (filter (mentions url) engagements); [destruct He|discriminate].
Qed.

Lemma match_from_denotes : forall r s prev skip m,
  In m (match_from r prev s skip) -> denotes r m.
Proof.
  intros r s; induction s as [|a t IH]; intros prev skip m Hin.
  - destruct skip; cbn [match_from] in Hin; [|destruct Hin].
    destruct (exec r (Cursor prev [])) as [c'|] eqn:E; [|destruct Hin].
    destruct Hin as [<-|[]].
    destruct (exec_sound _ _ _ E) as [w [_ [D Hw]]]. rewrite Hw. exact D.
  - destruct skip as [|k]; cbn [match_from] in Hin.
    + destruct (exec r (Cursor prev (a :: t))) as [c'|] eqn:E.
      * destruct Hin as [<-|Hin]; [|eapply IH; exact Hin].
        destruct (exec_sound _ _ _ E) as [w [_ [D Hw]]]. rewrite Hw. exact D.
      * eapply IH; exact Hin.
    + eapply IH; exact Hin.
Qed.

Lemma strip_decompose : forall s prev,
  exists suf,
    s = replace_first_from re_trailing_punct (const_str []) prev s ++ suf /\
    forallb is_trailing_punct suf = true.
Proof.
  induction s as [|a t IH]; intros prev.
  - exists []. split; reflexivity.
  - cbn [replace_first_from].
    destruct (exec re_trailing_punct (Cursor prev (a :: t))) as [c'|] eqn:E.
    + pose proof (@exec_trailing_punct_rest _ _ E) as Hrest.
      destruct (exec_sound _ _ _ E) as [w [Hs [D _]]].
      rewrite Hrest, app_nil_r in Hs.
      change re_trailing_punct with (Seq (Plus is_trailing_punct) End) in D.
      apply denotes_seq in D. destruct D as [w1 [w2 [Hw [D1 D2]]]].
      cbn [denotes] in D2. subst w2. rewrite app_nil_r in Hw. subst w1.
      apply denotes_plus in D1. destruct D1 as [_ Hp].
      rewrite Hrest. exists (a :: t). split; [reflexivity|].
      rewrite Hs. exact Hp.
    + destruct (IH (Some a)) as [suf [Hsuf Hp]].
      exists suf. split; [|exact Hp]. cbn [app]. rewrite <- Hsuf. reflexivity.
Qed.

Lemma denotes_urlPattern : forall m,
  denotes urlPattern m ->
  exists scheme body,
    m = scheme ++ body /\ (scheme = js "http://" \/ scheme = js "https://").
Proof.
  intros m D.
  change urlPattern
    with (Seq (Lit "http") (Seq (Opt (Chr "s")) (Seq (Lit "://")
            (Seq (Plus is_url_char) (Cls is_url_last))))) in D.
  apply denotes_seq in D. destruct D as [w1 [r1 [-> [D1 D]]]].
  apply denotes_seq in D. destruct D as [w2 [r2 [-> [D2 D]]]].
  apply denotes_seq in D. destruct D as [w3 [r3 [-> [D3 _]]]].
  apply (denotes_lit (js "http")) in D1.
  apply (denotes_lit (js "://")) in D3. subst w1 w3.
  destruct D2 as [[a [-> Ha]]|D2].
  - apply Ascii.eqb_eq in Ha. subst a.
    exists (js "https://"), r3. split; [reflexivity|right; reflexivity].
  - cbn [denotes] in D2. subst w2.
    exists (js "http://"), r3. split; [reflexivity|left; reflexivity].
Qed.

Lemma forallb_last : forall (p : ascii -> bool) l d,
  l <> [] -> forallb p l = true -> p (List.last l d) = true.
Proof.
  intros p l d Hne H.
  destruct (exists_last Hne) as [l' [x ->]].
  rewrite last_last. rewrite forallb_app in H.
  apply andb_true_iff in H. destruct H as [_ H]. cbn in H.
  rewrite andb_true_r in H. exact H.
Qed.

Lemma scheme_survives_strip : forall scheme body r suf,
  scheme = js "http://" \/ scheme = js "https://" ->
  scheme ++ body = r ++ suf ->
  forallb is_trailing_punct suf = true ->
  starts_with scheme r = true.
Proof.
  intros scheme body r suf Hscheme Heq Hp.
  apply app_eq_app in Heq. destruct Heq as [l [[H1 H2]|[H1 H2]]].
  - destruct l as [|x l'].
    + rewrite app_nil_r in H1. subst r. rewrite <- (app_nil_r scheme) at 2.
      apply starts_with_app.
    + exfalso. subst suf. rewrite forallb_app in Hp.
      apply andb_true_iff in Hp. destruct Hp as [Hl _].
      assert (Hlast : List.last scheme "/"%char = "/"%char)
        by (destruct Hscheme as [ -> | -> ]; reflexivity).
      rewrite H1 in Hlast.
      assert (Hll : List.last (r ++ x :: l') "/"%char
                    = List.last (x :: l') "/"%char).
      { destruct (@exists_last _ (x :: l') ltac:(discriminate))
          as [q [z Hq]].
        rewrite Hq, app_assoc, !last_last. reflexivity. }
      rewrite Hll in Hlast.
      pose proof (@forallb_last is_trailing_punct (x :: l') "/"%char
                    ltac:(discriminate) Hl) as Hbad.
      rewrite Hlast in Hbad. discriminate.
  - subst r. apply starts_with_app.
Qed.

Lemma extracted_url_scheme : forall content url,
  In url (extractUrlsFromContent content) ->
  starts_with (js "http://") url = true \/
  starts_with (js "https://") url = true.
Proof.
  intros content url Hin. unfold extractUrlsFromContent in Hin.
  destruct content as [|c s]; [destruct Hin|].
  apply fold_set_add_in in Hin. destruct Hin as [[]|Hin].
  apply in_map_iff in Hin. destruct Hin as [m [Hm Hin]].
  apply match_from_denotes in Hin.
  destruct (@denotes_urlPattern _ Hin) as [scheme [body [Hmb Hscheme]]].
  destruct (strip_decompose m None) as [suf [Hsuf Hp]].
  unfold strip_trailing_punct, replace_first in Hm. rewrite Hm in Hsuf.
  rewrite Hmb in Hsuf.
  pose proof (@scheme_survives_strip _ _ _ _ Hscheme Hsuf Hp) as H.
  destruct Hscheme as [ -> | -> ]; [left|right]; exact H.
Qed.

(** X16. Every URL listed in the mapping starts with [http://] or
    [https://], also after its trailing punctuation has been removed. *)
Theorem collectAllUrls_keys_scheme : forall engagements url,
  In url (map fst (collectAllUrls engagements)) ->
  starts_with (js "http://") url = true \/
  starts_with (js "https://") url = true.
Proof.
  intros engagements url Hin.
  assert (Hctx : contexts_of (collectAllUrls engagements) url <> []).
  { apply key_iff_contexts; [|exact Hin].
    apply collect_fold_ok. split; constructor. }
  unfold collectAllUrls in Hctx. rewrite contexts_of_collect in Hctx.
  cbn [contexts_of obj_get app] in Hctx.
  destruct (filter (mentions url) engagements) as [|e t] eqn:E;
    [contradiction Hctx; reflexivity|].
  assert (He : In e (filter (mentions url) engagements))
    by (rewrite E; left; reflexivity).
  apply filter_In in He. destruct He as [_ He].
  unfold mentions in He. apply existsb_exists in He.
  destruct He as [x [Hx Hxe]]. apply jsstring_eqb_eq in Hxe. subst x.
  eapply extracted_url_scheme. exact Hx.
Qed.

Lemma collectAllUrls_keys_scheme_witness :
  starts_with (js "http://") (js "http://a.com/b") = true \/
  starts_with (js "https://") (js "http://a.com/b") = true.
Proof.
  apply (@collectAllUrls_keys_scheme [sample_note_bare; sample_call_punct]
           (js "http://a.com/b")).
  vm_compute. left. reflexivity.
Defined.

(* ------------------------------------------------------------------ *)
(** ** A URL inside running text *)

Lemma not_url_char_not_last : forall x,
  is_url_char x = false -> is_url_last x = false.
Proof.
  intros x H. unfold is_url_last. rewrite H. reflexivity.
Qed.

Lemma star_stops_at_boundary : forall p2 post prev,
  forallb (fun c => negb (is_url_last c)) p2 = true ->
  at_boundary post = true ->
  flat_map (matches (Cls is_url_last))
    (star_greedy is_url_char prev (p2 ++ post)) = [].
Proof.
  induction p2 as [|a t IH]; intros post prev H Hb.
  - cbn [app]. destruct post as [|x w]; [reflexivity|].
    cbn [at_boundary] in Hb. apply negb_true_iff in Hb.
    cbn [star_greedy]. rewrite Hb. cbn.
    rewrite (@not_url_char_not_last x Hb). reflexivity.
  - cbn [forallb] in H. apply andb_true_iff in H. destruct H as [Ha Ht].
    apply negb_true_iff in Ha.
    cbn [app star_greedy]. destruct (is_url_char a).
    + rewrite flat_map_app, IH by assumption. cbn. rewrite Ha. reflexivity.
    + cbn. rewrite Ha. reflexivity.
Qed.

Lemma star_to_last : forall s1 c p2 post prev,
  forallb is_url_char s1 = true ->
  is_url_last c = true ->
  forallb (fun c => negb (is_url_last c)) p2 = true ->
  at_boundary post = true ->
  hd_error (flat_map (matches (Cls is_url_last))
              (star_greedy is_url_char prev (s1 ++ c :: p2 ++ post)))
  = Some (Cursor (Some c) (p2 ++ post)).
Proof.
  induction s1 as [|a s1 IH]; intros c p2 post prev Hs1 Hc Hp2 Hb.
  - cbn [app star_greedy]. rewrite (@url_last_is_url_char _ Hc).
    rewrite flat_map_app, star_stops_at_boundary by assumption.
    cbn. rewrite Hc. reflexivity.
  - cbn [forallb] in Hs1. apply andb_true_iff in Hs1. destruct Hs1 as [Ha Hs1].
    cbn [app star_greedy]. rewrite Ha, flat_map_app.
    apply hd_error_app_some. apply IH; assumption.
Qed.

Lemma exec_urlPattern_in_text : forall scheme b0 s1 c p2 post prev,
  url_scheme scheme ->
  is_url_char b0 = true ->
  forallb is_url_char s1 = true ->
  is_url_last c = true ->
  forallb (fun c => negb (is_url_last c)) p2 = true ->
  at_boundary post = true ->
  exec urlPattern (Cursor prev (scheme ++ b0 :: s1 ++ c :: p2 ++ post))
  = Some (Cursor (Some c) (p2 ++ post)).
Proof.
  intros scheme b0 s1 c p2 post prev Hscheme Hb0 Hs1 Hc Hp2 Hb.
  unfold exec.
  change urlPattern
    with (Seq (Lit "http") (Seq (Opt (Chr "s")) (Seq (Lit "://")
            (Seq (Plus is_url_char) (Cls is_url_last))))).
  rewrite matches_after_scheme by exact Hscheme.
  change (matches (Seq (Plus is_url_char) (Cls is_url_last))
            (Cursor (Some "/"%char) (b0 :: s1 ++ c :: p2 ++ post)))
    with (flat_map (matches (Cls is_url_last))
            (flat_map (matches (Star is_url_char))
               (if is_url_char b0
                then [Cursor (Some b0) (s1 ++ c :: p2 ++ post)] else []))).
  rewrite Hb0. cbn [flat_map]. rewrite app_nil_r.
  change (matches (Star is_url_char) (Cursor (Some b0) (s1 ++ c :: p2 ++ post)))
    with (star_greedy is_url_char (Some b0) (s1 ++ c :: p2 ++ post)).
  apply star_to_last; assumption.
Qed.

(** The match the pattern reports at a URL that is followed by
    punctuation and then by a boundary: the URL and the part of the
    punctuation that ends in neither a period nor a comma; stripping the
    match gives the URL. *)
Lemma first_match_at_url : forall u p post prev,
  clean_url u ->
  forallb is_trailing_punct p = true ->
  at_boundary post = true ->
  exists m tail prev',
    match_from urlPattern prev (u ++ p ++ post) 0
    = m :: match_from urlPattern prev' tail 0 /\
    strip_trailing_punct m = u.
Proof.
  intros u p post prev
    [scheme [b0 [mid [last [-> [Hscheme [Hb0 [Hmid [Hlast Hnp]]]]]]]]] Hp Hb.
  destruct (@punct_split p Hp) as [p1 [p2 [-> [H1 [H2 [H3 H4]]]]]].
  destruct H4 as [-> | [q [c [-> Hc]]]].
  - destruct (@match_from_at_match urlPattern prev
                (scheme ++ b0 :: mid ++ [last]) (p2 ++ post)
                (Cursor (Some last) (p2 ++ post))) as [prev' E].
    + apply url_scheme_nonempty, Hscheme.
    + replace ((scheme ++ b0 :: mid ++ [last]) ++ p2 ++ post)
        with (scheme ++ b0 :: mid ++ last :: p2 ++ post)
        by (repeat (rewrite <- app_assoc; cbn [app]); reflexivity).
      apply exec_urlPattern_in_text; try assumption.
      apply url_last_not_punct; assumption.
    + reflexivity.
    + exists (scheme ++ b0 :: mid ++ [last]), (p2 ++ post), prev'.
      cbn [app]. split; [exact E|].
      unfold strip_trailing_punct, replace_first.
      replace (scheme ++ b0 :: mid ++ [last])
        with ((scheme ++ b0 :: mid) ++ last :: [])
        by (rewrite <- app_assoc; reflexivity).
      apply strip_after_clean; [exact Hnp|reflexivity].
  - pose proof H1 as Hqc.
    rewrite forallb_app in H1. apply andb_true_iff in H1.
    destruct H1 as [Hq _].
    destruct (@match_from_at_match urlPattern prev
                (scheme ++ b0 :: (mid ++ last :: q) ++ [c]) (p2 ++ post)
                (Cursor (Some c) (p2 ++ post))) as [prev' E].
    + apply url_scheme_nonempty, Hscheme.
    + replace ((scheme ++ b0 :: (mid ++ last :: q) ++ [c]) ++ p2 ++ post)
        with (scheme ++ b0 :: (mid ++ last :: q) ++ c :: p2 ++ post)
        by (repeat (rewrite <- app_assoc; cbn [app]); reflexivity).
      apply exec_urlPattern_in_text; try assumption.
      rewrite forallb_app, Hmid. cbn [forallb andb]. rewrite Hlast.
      cbn [andb]. apply (@forallb_impl _ _ _ q punct_is_url_char Hq).
    + reflexivity.
    + exists (scheme ++ b0 :: (mid ++ last :: q) ++ [c]), (p2 ++ post), prev'.
      split.
      * etransitivity; [|exact E]. f_equal.
        repeat (rewrite <- app_assoc; cbn [app]). reflexivity.
      * unfold strip_trailing_punct, replace_first.
        replace (scheme ++ b0 :: (mid ++ last :: q) ++ [c])
          with ((scheme ++ b0 :: mid) ++ last :: (q ++ [c]))
          by (repeat (rewrite <- app_assoc; cbn [app]); reflexivity).
        rewrite strip_after_clean; [|exact Hnp|exact Hqc].
        rewrite <- app_assoc. reflexivity.
Qed.

Lemma denotes_urlPattern_chars : forall m,
  denotes urlPattern m -> forallb is_url_char m = true.
Proof.
  intros m D.
  change urlPattern
    with (Seq (Lit "http") (Seq (Opt (Chr "s")) (Seq (Lit "://")
            (Seq (Plus is_url_char) (Cls is_url_last))))) in D.
  apply denotes_seq in D. destruct D as [w1 [r1 [-> [D1 D]]]].
  apply denotes_seq in D. destruct D as [w2 [r2 [-> [D2 D]]]].
  apply denotes_seq in D. destruct D as [w3 [r3 [-> [D3 D]]]].
  apply denotes_seq in D. destruct D as [w4 [w5 [-> [D4 D5]]]].
  apply (denotes_lit (js "http")) in D1.
  apply (denotes_lit (js "://")) in D3. subst w1 w3.
  apply denotes_plus in D4. destruct D4 as [_ D4].
  destruct D5 as [a [-> Ha]]. apply url_last_is_url_char in Ha.
  assert (H2 : forallb is_url_char w2 = true).
  { destruct D2 as [[a' [-> Ha']]|D2].
    - apply Ascii.eqb_eq in Ha'. subst a'. reflexivity.
    - cbn [denotes] in D2. subst w2. reflexivity. }
  rewrite !forallb_app, H2, D4. cbn [forallb]. rewrite Ha. reflexivity.
Qed.

Lemma prefix_before : forall (p : ascii -> bool) w r l x s,
  forallb p w = true -> w ++ r = l ++ x :: s -> p x = false ->
  List.length w <= List.length l.
Proof.
  intros p w; induction w as [|a w IH]; intros r l x s Hw Heq Hx.
  - cbn. lia.
  - cbn [forallb] in Hw. apply andb_true_iff in Hw. destruct Hw as [Ha Hw].
    destruct l as [|b l].
    + cbn [app] in Heq. injection Heq as -> _. congruence.
    + cbn [app] in Heq. injection Heq as _ Heq.
      cbn [List.length]. apply le_n_S. eapply IH; eassumption.
Qed.

Lemma exec_urlPattern_not_url_char : forall x s prev,
  is_url_char x = false -> exec urlPattern (Cursor prev (x :: s)) = None.
Proof.
  intros x s prev Hx.
  destruct (exec urlPattern (Cursor prev (x :: s))) as [c'|] eqn:E;
    [|reflexivity].
  destruct (exec_sound _ _ _ E) as [w [Hs [D _]]].
  pose proof (@denotes_urlPattern_chars w D) as Hw.
  destruct (@denotes_urlPattern w D) as [scheme [body [-> Hsch]]].
  destruct Hsch as [ -> | -> ]; cbn [app js list_ascii_of_string] in Hs, Hw;
    injection Hs as -> _; cbn in Hx; discriminate Hx.
Qed.

(** Scanning a text that ends at a boundary leaves no match open. *)
Lemma match_from_past_boundary : forall pre0 x s prev skip,
  is_url_char x = false ->
  skip <= List.length pre0 ->
  exists ms prev',
    match_from urlPattern prev ((pre0 ++ [x]) ++ s) skip
    = ms ++ match_from urlPattern prev' s 0.
Proof.
  induction pre0 as [|a pre0 IH]; intros x s prev skip Hx Hskip.
  - cbn [List.length] in Hskip. assert (skip = 0) by lia. subst skip.
    cbn [app match_from].
    rewrite exec_urlPattern_not_url_char by exact Hx.
    exists [], (Some x). reflexivity.
  - destruct skip as [|k].
    + cbn [app match_from].
      destruct (exec urlPattern (Cursor prev (a :: (pre0 ++ [x]) ++ s)))
        as [c'|] eqn:E.
      * destruct (exec_sound _ _ _ E) as [w [Hs [D Hw]]].
        pose proof (@denotes_urlPattern_chars w D) as Hch.
        assert (Hlen : List.length w <= List.length (a :: pre0)).
        { apply (@prefix_before is_url_char w (rest c') (a :: pre0) x s);
            [exact Hch| |exact Hx].
          rewrite <- Hs. cbn [app]. rewrite <- app_assoc. reflexivity. }
        assert (Hn : consumed (a :: (pre0 ++ [x]) ++ s) c' = List.length w).
        { unfold consumed. rewrite Hs at 1. rewrite length_app. lia. }
        rewrite Hn in *.
        destruct (IH x s (Some a) (Nat.pred (List.length w)) Hx)
          as [ms [prev' Hms]].
        { cbn [List.length] in Hlen. lia. }
        exists (firstn (List.length w) (a :: (pre0 ++ [x]) ++ s) :: ms), prev'.
        rewrite Hms. reflexivity.
      * destruct (IH x s (Some a) 0 Hx) as [ms [prev' Hms]]; [lia|].
        exists ms, prev'. exact Hms.
    + cbn [app match_from].
      destruct (IH x s (Some a) k Hx) as [ms [prev' Hms]];
        [cbn [List.length] in Hskip; lia|].
      exists ms, prev'. exact Hms.
Qed.

Lemma match_all_after_boundary : forall pre s,
  at_boundary (rev pre) = true ->
  exists ms prev',
    match_all urlPattern (pre ++ s) = ms ++ match_from urlPattern prev' s 0.
Proof.
  intros pre s Hb. unfold match_all.
  destruct pre as [|a pre'] using rev_ind.
  - exists [], None. reflexivity.
  - rewrite rev_app_distr in Hb. cbn [rev app at_boundary] in Hb.
    apply negb_true_iff in Hb.
    apply match_from_past_boundary; [exact Hb|lia].
Qed.

Lemma fold_set_add_complete : forall l acc x,
  In x acc \/ In x l -> In x (fold_left set_add l acc).
Proof.
  induction l as [|y t IH]; intros acc x H; cbn [fold_left].
  - destruct H as [H|[]]. exact H.
  - apply IH. unfold set_add.
    destruct (existsb (jsstring_eqb y) acc) eqn:E.
    + destruct H as [H|[->|H]]; auto.
      left. apply existsb_exists in E. destruct E as [z [Hz Hyz]].
      apply jsstring_eqb_eq in Hyz. subst z. exact Hz.
    + destruct H as [H|[->|H]]; auto.
      * left. apply in_or_app. left. exact H.
      * left. apply in_or_app. right. left. reflexivity.
Qed.

Lemma extractUrls_delimited : forall u p content,
  clean_url u ->
  forallb is_trailing_punct p = true ->
  occurs_delimited (u ++ p) content ->
  In u (extractUrlsFromContent content).
Proof.
  intros u p content Hu Hp [pre [post [-> [Hpre Hpost]]]].
  destruct (@match_all_after_boundary pre ((u ++ p) ++ post) Hpre)
    as [ms [prev' Hms]].
  rewrite <- app_assoc in Hms.
  destruct (@first_match_at_url u p post prev' Hu Hp Hpost)
    as [m [tail [prev'' [Hm Hstrip]]]].
  rewrite Hm in Hms.
  assert (Hne : pre ++ (u ++ p) ++ post <> []).
  { destruct Hu as [scheme [b0 [mid [last [-> [Hs _]]]]]].
    destruct pre; [|discriminate]. cbn [app].
    repeat rewrite <- app_assoc. apply url_scheme_nonempty, Hs. }
  unfold extractUrlsFromContent.
  destruct (pre ++ (u ++ p) ++ post) as [|x0 xs] eqn:Ec; [contradiction|].
  rewrite <- Ec. clear Ec Hne x0 xs.
  rewrite <- app_assoc, Hms. unfold set_of.
  apply fold_set_add_complete. right.
  rewrite map_app. apply in_or_app. right. left. exact Hstrip.
Qed.

Lemma punct_or_split : forall s,
  forallb is_trailing_punct s = true \/
  exists x last p,
    s = x ++ last :: p /\ is_trailing_punct last = false /\
    forallb is_trailing_punct p = true.
Proof.
  induction s as [|a t IH] using rev_ind.
  - left. reflexivity.
  - destruct (is_trailing_punct a) eqn:Ea.
    + destruct IH as [IH|[x [last [p [-> [Hl Hp]]]]]].
      * left. rewrite forallb_app, IH. cbn [forallb andb]. rewrite Ea. reflexivity.
      * right. exists x, last, (p ++ [a]). split.
        -- rewrite <- app_assoc. reflexivity.
        -- split; [exact Hl|]. rewrite forallb_app, Hp. cbn [forallb andb].
           rewrite Ea. reflexivity.
    + right. exists t, a, []. repeat split. exact Ea.
Qed.

(** What the trailing-punctuation rule leaves does not end in one of the
    characters it removes. *)
Lemma strip_not_punctuated : forall m u q,
  strip_trailing_punct m = u ++ q ->
  forallb is_trailing_punct q = true ->
  q = [].
Proof.
  intros m u q Hs Hq. unfold strip_trailing_punct, replace_first in Hs.
  destruct q as [|z q'] using rev_ind; [reflexivity|]. exfalso.
  clear IHq'. rewrite forallb_app in Hq. apply andb_true_iff in Hq.
  destruct Hq as [_ Hz]. cbn [forallb] in Hz. rewrite andb_true_r in Hz.
  destruct (punct_or_split m) as [Hall|[x [last [p [-> [Hl Hp]]]]]].
  - rewrite strip_all_punct in Hs by exact Hall.
    symmetry in Hs. apply app_eq_nil in Hs. destruct Hs as [_ Hs].
    destruct q'; discriminate.
  - rewrite strip_after_clean in Hs by assumption.
    rewrite app_assoc in Hs. apply app_inj_tail in Hs.
    destruct Hs as [_ <-]. congruence.
Qed.

Lemma obj_get_in : forall m k v, obj_get m k = Some v -> In (k, v) m.
Proof.
  induction m as [|[k' v'] t IH]; intros k v H; cbn [obj_get] in H;
    [discriminate|].
  destruct (jsstring_eqb k' k) eqn:E.
  - apply jsstring_eqb_eq in E. injection H as ->. subst k'.
    left. reflexivity.
  - right. apply IH, H.
Qed.

Lemma obj_get_of_in : forall m k v,
  NoDup (map fst m) -> In (k, v) m -> obj_get m k = Some v.
Proof.
  induction m as [|[k' v'] t IH]; intros k v Hnd Hin; [destruct Hin|].
  cbn [map fst] in Hnd. inversion Hnd as [|? ? Hnot Hnd']; subst.
  cbn [obj_get]. destruct Hin as [Heq|Hin].
  - injection Heq as -> ->. rewrite jsstring_eqb_refl. reflexivity.
  - destruct (jsstring_eqb k' k) eqn:E.
    + apply jsstring_eqb_eq in E. subst k'. exfalso. apply Hnot.
      apply in_map_iff. exists (k, v). split; [reflexivity|exact Hin].
    + apply IH; assumption.
Qed.

Lemma filter_none : forall (A : Type) (f : A -> bool) (l : list A),
  (forall x, In x l -> f x = false) -> filter f l = [].
Proof.
  intros A f l H. induction l as [|x t IH]; [reflexivity|].
  cbn [filter]. rewrite (H x) by (left; reflexivity).
  apply IH. intros y Hy. apply H. right. exact Hy.
Qed.

Lemma collected_key_extracted : forall engagements k,
  In k (map fst (collectAllUrls engagements)) ->
  exists e, In e engagements /\ In k (extractUrlsFromContent (engContent e)).
Proof.
  intros engagements k Hin.
  assert (Hctx : contexts_of (collectAllUrls engagements) k <> []).
  { apply key_iff_contexts; [|exact Hin].
    apply collect_fold_ok. split; constructor. }
  unfold collectAllUrls in Hctx. rewrite contexts_of_collect in Hctx.
  cbn [contexts_of obj_get app] in Hctx.
  destruct (filter (mentions k) engagements) as [|e t] eqn:E;
    [contradiction Hctx; reflexivity|].
  assert (He : In e (filter (mentions k) engagements))
    by (rewrite E; left; reflexivity).
  apply filter_In in He. destruct He as [He Hm]. exists e.
  split; [exact He|].
  unfold mentions in Hm. apply existsb_exists in Hm.
  destruct Hm as [x [Hx Hxe]]. apply jsstring_eqb_eq in Hxe. subst x.
  exact Hx.
Qed.

Lemma extracted_is_stripped : forall content k,
  In k (extractUrlsFromContent content) ->
  exists m, k = strip_trailing_punct m.
Proof.
  intros content k Hin. unfold extractUrlsFromContent in Hin.
  destruct content as [|c s]; [destruct Hin|].
  apply fold_set_add_in in Hin. destruct Hin as [[]|Hin].
  apply in_map_iff in Hin. destruct Hin as [m [Hm _]].
  exists m. symmetry. exact Hm.
Qed.

Lemma mentions_delimited : forall u p e,
  clean_url u ->
  forallb is_trailing_punct p = true ->
  occurs_delimited (u ++ p) (engContent e) ->
  mentions u e = true.
Proof.
  intros u p e Hu Hp Ho. unfold mentions. apply existsb_exists.
  exists u. split; [|apply jsstring_eqb_refl].
  eapply extractUrls_delimited; eassumption.
Qed.

(** C7. A URL that ends in no punctuation and occurs in the contents of
    two of the collected records, each time between characters no URL can
    hold (or the ends of the text) and each time followed by any run,
    possibly empty, of the characters [.,;:], while the contents of the
    other records do not contain it, is collected once: the mapping has
    the entry of that URL with the labels of the two records, in their
    order, as its contexts; no key occurs twice; and no entry has the URL
    followed by punctuation as its key. *)
Theorem collectAllUrls_trailing_punct_dedup :
  forall l1 e1 l2 e2 l3 u p1 p2,
    clean_url u ->
    forallb is_trailing_punct p1 = true ->
    forallb is_trailing_punct p2 = true ->
    occurs_delimited (u ++ p1) (engContent e1) ->
    occurs_delimited (u ++ p2) (engContent e2) ->
    (forall e, In e (l1 ++ l2 ++ l3) -> includes (engContent e) u = false) ->
    let allUrls := collectAllUrls (l1 ++ e1 :: l2 ++ e2 :: l3) in
    In (u, [engContext e1; engContext e2]) allUrls /\
    NoDup (map fst allUrls) /\
    forall k v q,
      In (k, v) allUrls ->
      forallb is_trailing_punct q = true -> k = u ++ q ->
      k = u /\ v = [engContext e1; engContext e2].
Proof.
  intros l1 e1 l2 e2 l3 u p1 p2 Hu Hp1 Hp2 Ho1 Ho2 Hothers allUrls.
  pose proof (@mentions_delimited u p1 e1 Hu Hp1 Ho1) as Hm1.
  pose proof (@mentions_delimited u p2 e2 Hu Hp2 Ho2) as Hm2.
  assert (Hno : forall l, (forall e, In e l -> In e (l1 ++ l2 ++ l3)) ->
                          filter (mentions u) l = []).
  { intros l Hl. apply filter_none. intros e He.
    destruct (mentions u e) eqn:Em; [|reflexivity].
    apply mentions_includes in Em. rewrite (Hothers e (Hl e He)) in Em.
    discriminate. }
  assert (Hnd : NoDup (map fst allUrls)).
  { apply collect_fold_ok. split; constructor. }
  assert (Hctx : contexts_of allUrls u = [engContext e1; engContext e2]).
  { unfold allUrls, collectAllUrls. rewrite contexts_of_collect.
    cbn [contexts_of obj_get app].
    rewrite filter_app. cbn [filter]. rewrite Hm1.
    rewrite filter_app. cbn [filter]. rewrite Hm2.
    rewrite (Hno l1), (Hno l2), (Hno l3).
    - reflexivity.
    - intros e He. apply in_or_app. right. apply in_or_app. right. exact He.
    - intros e He. apply in_or_app. right. apply in_or_app. left. exact He.
    - intros e He. apply in_or_app. left. exact He. }
  assert (Hget : obj_get allUrls u = Some [engContext e1; engContext e2]).
  { unfold contexts_of in Hctx. destruct (obj_get allUrls u) as [v|];
      [rewrite Hctx; reflexivity|discriminate]. }
  split; [apply obj_get_in; exact Hget|]. split; [exact Hnd|].
  intros k v q Hin Hq Hk.
  assert (Hkey : In k (map fst allUrls)).
  { apply in_map_iff. exists (k, v). split; [reflexivity|exact Hin]. }
  destruct (@collected_key_extracted _ k Hkey) as [e [_ He]].
  destruct (@extracted_is_stripped _ k He) as [m Hm].
  rewrite Hk in Hm. symmetry in Hm.
  pose proof (@strip_not_punctuated m u q Hm Hq) as Hq0. subst q.
  rewrite app_nil_r in Hk. subst k. split; [reflexivity|].
  pose proof (@obj_get_of_in allUrls u v Hnd Hin) as Hv. congruence.
Qed.

Lemma collectAllUrls_trailing_punct_dedup_witness :
  let allUrls :=
    collectAllUrls
      ([] ++ sample_note_sentence :: [sample_task_other]
          ++ sample_call_sentence :: []) in
  In (js "http://a.com/b",
      [js "Note (2023-11-14 22:13)"; js "Call: Kickoff (Unknown date)"])
     allUrls /\
  NoDup (map fst allUrls) /\
  forall k v q,
    In (k, v) allUrls ->
    forallb is_trailing_punct q = true -> k = js "http://a.com/b" ++ q ->
    k = js "http://a.com/b" /\
    v = [js "Note (2023-11-14 22:13)"; js "Call: Kickoff (Unknown date)"].
Proof.
  apply (@collectAllUrls_trailing_punct_dedup [] sample_note_sentence
           [sample_task_other] sample_call_sentence []
           (js "http://a.com/b") [] (js ".")).
  - exists (js "http://"), "a"%char, (js ".com/"), "b"%char.
    repeat split; try reflexivity. left. reflexivity.
  - reflexivity.
  - reflexivity.
  - exists (js "See "), (js " for the figures"). repeat split.
  - exists (js "Buyer asked for "), (js " Send it."). repeat split.
  - intros e [<-|[]]. reflexivity.
Defined.

(* ------------------------------------------------------------------ *)
(** ** [formatTimestamp] *)

Lemma length_pad : forall w n, List.length (pad w n) = w.
Proof.
  induction w as [|w IH]; intros n; [reflexivity|].
  cbn [pad]. rewrite length_app, IH. cbn. lia.
Qed.

Lemma length_iso_year : forall y, 4 <= List.length (iso_year y).
Proof.
  intros y. unfold iso_year.
  destruct ((0 <=? y)%Z && (y <=? 9999)%Z).
  - rewrite length_pad. lia.
  - rewrite length_app, length_pad. lia.
Qed.

Lemma length_replace_char : forall a b s,
  List.length (replace_char a b s) = List.length s.
Proof.
  intros a b s; induction s as [|c t IH]; [reflexivity|].
  cbn [replace_char]. destruct (Ascii.eqb c a); cbn [List.length];
    [reflexivity|rewrite IH; reflexivity].
Qed.

(** The first sixteen characters of an ISO string are those of its date,
    hour and minute. *)
Lemma iso_prefix : forall y m d hh mm tail,
  firstn 16 (iso_year y ++ js "-" ++ pad 2 m ++ js "-" ++ pad 2 d ++ js "T"
             ++ pad 2 hh ++ js ":" ++ pad 2 mm ++ tail)
  = firstn 16 (iso_year y ++ js "-" ++ pad 2 m ++ js "-" ++ pad 2 d ++ js "T"
               ++ pad 2 hh ++ js ":" ++ pad 2 mm).
Proof.
  intros y m d hh mm tail.
  replace (iso_year y ++ js "-" ++ pad 2 m ++ js "-" ++ pad 2 d ++ js "T"
           ++ pad 2 hh ++ js ":" ++ pad 2 mm ++ tail)
    with ((iso_year y ++ js "-" ++ pad 2 m ++ js "-" ++ pad 2 d ++ js "T"
           ++ pad 2 hh ++ js ":" ++ pad 2 mm) ++ tail)
    by (repeat rewrite <- app_assoc; reflexivity).
  rewrite firstn_app.
  assert (Hlen : 16 <= List.length
            (iso_year y ++ js "-" ++ pad 2 m ++ js "-" ++ pad 2 d ++ js "T"
             ++ pad 2 hh ++ js ":" ++ pad 2 mm)).
  { repeat rewrite length_app. repeat rewrite length_pad.
    pose proof (length_iso_year y). cbn [js list_ascii_of_string List.length].
    lia. }
  replace (16 - List.length
            (iso_year y ++ js "-" ++ pad 2 m ++ js "-" ++ pad 2 d ++ js "T"
             ++ pad 2 hh ++ js ":" ++ pad 2 mm)) with 0 by lia.
  cbn [firstn]. apply app_nil_r.
Qed.

Lemma length_toISOString : forall t, 24 <= List.length (toISOString t).
Proof.
  intros t. unfold toISOString.
  destruct (civil_from_days (t / 86400000)) as [[y m] d].
  repeat rewrite length_app. repeat rewrite length_pad.
  pose proof (length_iso_year y). cbn [js list_ascii_of_string List.length].
  lia.
Qed.

Lemma formatTimestamp_valid : forall s t,
  parseInt s = Some t -> valid_time t = true ->
  formatTimestamp (Some s)
  = replace_char "T" " " (slice0 16 (toISOString t)).
Proof.
  intros s t Hp Hv. destruct s as [|c s'].
  - vm_compute in Hp. discriminate.
  - unfold formatTimestamp. rewrite Hp, Hv. reflexivity.
Qed.

(** X17. A timestamp that [parseInt] reads as a time value a [Date] can
    hold is always rendered in exactly 16 characters. *)
Theorem formatTimestamp_length : forall s t,
  parseInt s = Some t -> valid_time t = true ->
  List.length (formatTimestamp (Some s)) = 16.
Proof.
  intros s t Hp Hv. rewrite (formatTimestamp_valid _ Hp Hv).
  rewrite length_replace_char. unfold slice0. rewrite length_firstn.
  pose proof (length_toISOString t). lia.
Qed.

Lemma formatTimestamp_length_witness :
  List.length (formatTimestamp (Some (js "1700000000000"))) = 16.
Proof.
  apply (@formatTimestamp_length (js "1700000000000") 1700000000000%Z).
  - vm_compute. reflexivity.
  - vm_compute. reflexivity.
Defined.

Lemma toISOString_minute : forall t1 t2,
  (t1 / 60000 = t2 / 60000)%Z ->
  firstn 16 (toISOString t1) = firstn 16 (toISOString t2).
Proof.
  intros t1 t2 H. unfold toISOString.
  assert (Hd : (t1 / 86400000 = t2 / 86400000)%Z)
    by (Z.div_mod_to_equations; lia).
  assert (Hh : (t1 mod 86400000 / 3600000 = t2 mod 86400000 / 3600000)%Z)
    by (Z.div_mod_to_equations; lia).
  assert (Hm : (t1 mod 86400000 / 60000 mod 60
                = t2 mod 86400000 / 60000 mod 60)%Z)
    by (Z.div_mod_to_equations; lia).
  rewrite Hd, Hh, Hm.
  destruct (civil_from_days (t2 / 86400000)) as [[y m] d].
  rewrite iso_prefix. symmetry. rewrite iso_prefix. reflexivity.
Qed.

(** X18. [formatTimestamp] shows a time to the minute: two timestamps
    that fall into the same minute are rendered alike. *)
Theorem formatTimestamp_minute : forall s1 s2 t1 t2,
  parseInt s1 = Some t1 -> valid_time t1 = true ->
  parseInt s2 = Some t2 -> valid_time t2 = true ->
  (t1 / 60000 = t2 / 60000)%Z ->
  formatTimestamp (Some s1) = formatTimestamp (Some s2).
Proof.
  intros s1 s2 t1 t2 Hp1 Hv1 Hp2 Hv2 H.
  rewrite (formatTimestamp_valid _ Hp1 Hv1), (formatTimestamp_valid _ Hp2 Hv2).
  unfold slice0. rewrite (toISOString_minute _ _ H). reflexivity.
Qed.

Lemma formatTimestamp_minute_witness :
  formatTimestamp (Some (js "1700000000000"))
  = formatTimestamp (Some (js "1700000039999")).
Proof.
  apply (@formatTimestamp_minute (js "1700000000000") (js "1700000039999")
           1700000000000%Z 1700000039999%Z).
  - vm_compute. reflexivity.
  - vm_compute. reflexivity.
  - vm_compute. reflexivity.
  - vm_compute. reflexivity.
  - vm_compute. reflexivity.
Defined.

(* ------------------------------------------------------------------ *)
(** ** The entries of the URL index *)

Lemma entries_of_doc_lines : forall l,
  filter is_url_entry (flat_map doc_url_lines l) = map url_line l.
Proof.
  induction l as [|e t IH]; [reflexivity|].
  cbn [flat_map doc_url_lines app filter map].
  change (is_url_entry (url_line e)) with true.
  change (is_url_entry (found_in_line (snd e))) with false.
  cbv iota. rewrite IH. reflexivity.
Qed.

Lemma entries_of_docs_section : forall l,
  filter is_url_entry (docs_section l) = map url_line l.
Proof.
  intros [|d ds]; [reflexivity|]. unfold docs_section.
  cbn [filter]. change (is_url_entry (js "### Meeting Notes & Documents"))
    with false. cbv iota. apply entries_of_doc_lines.
Qed.

Lemma entries_of_hubspot_section : forall l,
  filter is_url_entry (hubspot_section l) = map url_line l.
Proof.
  intros [|d ds]; [reflexivity|]. unfold hubspot_section.
  cbn [filter]. change (is_url_entry (LF :: js "### HubSpot Links"))
    with false. cbv iota. apply filter_url_entry_url_lines.
Qed.

Lemma entries_of_other_section : forall l,
  filter is_url_entry (other_section l) = map url_line (firstn 20 l).
Proof.
  intros [|d ds]; [reflexivity|]. unfold other_section.
  cbn [filter]. change (is_url_entry (LF :: js "### Other Links"))
    with false. cbv iota.
  rewrite filter_app, filter_url_entry_url_lines.
  assert (Hnote : forall x, is_url_entry (js "*... and " ++ x) = false)
    by reflexivity.
  destruct (20 <? List.length (d :: ds)); cbn [filter].
  - rewrite Hnote. apply app_nil_r.
  - apply app_nil_r.
Qed.

Lemma in_one_bucket : forall e,
  is_bucket DocUrl e = true \/ is_bucket HubspotUrl e = true \/
  is_bucket OtherUrl e = true.
Proof.
  intros e. unfold is_bucket. destruct (classify (fst e)); auto.
Qed.

(** X19. The lines of the URL index that list a URL are, in this order:
    the document links, the HubSpot links and the first twenty of the other
    links, each as a hyphen, a space and the URL; no other line of the
    index starts that way.  Hence every collected URL is listed in the
    index unless it is one of the other links beyond the twentieth. *)
Theorem url_index_entries : forall collectedUrls,
  let docUrls := filter (is_bucket DocUrl) collectedUrls in
  let hubspotUrls := filter (is_bucket HubspotUrl) collectedUrls in
  let otherUrls := filter (is_bucket OtherUrl) collectedUrls in
  let lines := url_index_lines collectedUrls in
  filter is_url_entry lines
  = map url_line (docUrls ++ hubspotUrls ++ firstn 20 otherUrls) /\
  (forall e, In e collectedUrls ->
             In (url_line e) lines \/ In e (skipn 20 otherUrls)).
Proof.
  intros collectedUrls docUrls hubspotUrls otherUrls lines.
  assert (E : filter is_url_entry lines
              = map url_line (docUrls ++ hubspotUrls ++ firstn 20 otherUrls)).
  { subst docUrls hubspotUrls otherUrls lines. unfold url_index_lines.
    destruct collectedUrls as [|e0 t] eqn:Ec; [reflexivity|].
    rewrite <- Ec. cbv zeta.
    rewrite !filter_app, entries_of_docs_section, entries_of_hubspot_section,
      entries_of_other_section.
    cbn [filter app].
    change (is_url_entry (LF :: js "## Linked Documents & URLs")) with false.
    assert (Hcount : forall x y, is_url_entry (js "*" ++ x ++ y) = false)
      by reflexivity.
    rewrite Hcount. change (is_url_entry []) with false. cbv iota.
    rewrite app_nil_r, !map_app. reflexivity. }
  split; [exact E|].
  intros e He.
  assert (Hlisted : In e (docUrls ++ hubspotUrls ++ firstn 20 otherUrls)
                    -> In (url_line e) lines).
  { intros Hin. apply (in_map url_line) in Hin. rewrite <- E in Hin.
    apply filter_In in Hin. destruct Hin as [Hin _]. exact Hin. }
  destruct (in_one_bucket e) as [Hb|[Hb|Hb]].
  - left. apply Hlisted. apply in_or_app. left.
    apply filter_In. split; assumption.
  - left. apply Hlisted. apply in_or_app. right. apply in_or_app. left.
    apply filter_In. split; assumption.
  - assert (Ho : In e otherUrls) by (apply filter_In; split; assumption).
    rewrite <- (firstn_skipn 20 otherUrls) in Ho.
    apply in_app_or in Ho. destruct Ho as [Ho|Ho]; [left|right; exact Ho].
    apply Hlisted. apply in_or_app. right. apply in_or_app. right. exact Ho.
Qed.

(* ------------------------------------------------------------------ *)
(** ** Section headings and rules of the document *)

Lemma filter_flat_map_nil : forall (A : Type) (p : jsstring -> bool)
  (f : A -> list jsstring) (l : list A),
  (forall x, filter p (f x) = []) -> filter p (flat_map f l) = [].
Proof.
  intros A p f l H. induction l as [|x t IH]; [reflexivity|].
  cbn [flat_map]. rewrite filter_app, H, IH. reflexivity.
Qed.

Lemma filter_map_nil : forall (A : Type) (p : jsstring -> bool)
  (f : A -> jsstring) (l : list A),
  (forall x, p (f x) = false) -> filter p (map f l) = [].
Proof.
  intros A p f l H. induction l as [|x t IH]; [reflexivity|].
  cbn [map filter]. rewrite H. exact IH.
Qed.

Lemma body_lines_plain : forall tv body,
  filter is_assoc_heading (body_lines tv body) = [] /\
  filter is_rule_line (body_lines tv body) = [].
Proof.
  intros tv [|c s]; split; reflexivity.
Qed.

Lemma engagement_lines_no_heading : forall tv fm fs eng,
  filter is_assoc_heading (engagement_lines tv fm fs eng) = [].
Proof.
  intros tv fm fs eng. unfold engagement_lines.
  destruct (jsstring_eqb _ (js "emails")); [reflexivity|].
  destruct (jsstring_eqb _ (js "notes")); [reflexivity|].
  destruct (jsstring_eqb _ (js "calls")).
  { rewrite !filter_app, (proj1 (body_lines_plain tv _)). reflexivity. }
  destruct (jsstring_eqb _ (js "meetings")).
  { rewrite !filter_app, (proj1 (body_lines_plain tv _)).
    destruct (or_else (prop eng "hs_meeting_outcome") []); reflexivity. }
  destruct (jsstring_eqb _ (js "tasks")); [|reflexivity].
  rewrite !filter_app, (proj1 (body_lines_plain tv _)). reflexivity.
Qed.

Lemma header_lines_no_heading : forall deal,
  filter is_assoc_heading (header_lines deal) = [].
Proof.
  intros deal. unfold header_lines.
  destruct (truthy (prop deal "description")); reflexivity.
Qed.

Lemma contacts_lines_heading : forall contacts,
  filter is_assoc_heading (contacts_lines contacts)
  = when_nonempty contacts (js "## Associated Contacts").
Proof.
  intros [|c t]; [reflexivity|]. unfold contacts_lines.
  rewrite !filter_app, filter_map_nil by (intros x; reflexivity).
  reflexivity.
Qed.

Lemma companies_lines_heading : forall companies,
  filter is_assoc_heading (companies_lines companies)
  = when_nonempty companies (js "## Associated Companies").
Proof.
  intros [|c t]; [reflexivity|]. unfold companies_lines.
  rewrite !filter_app, filter_map_nil by (intros x; reflexivity).
  reflexivity.
Qed.

Lemma timeline_lines_no_heading : forall tv fm fs engagements,
  filter is_assoc_heading (timeline_lines tv fm fs engagements) = [].
Proof.
  intros tv fm fs engagements. unfold timeline_lines. cbn zeta.
  rewrite filter_app, filter_flat_map_nil
    by (intros x; apply engagement_lines_no_heading).
  reflexivity.
Qed.

Lemma url_index_lines_no_heading : forall collectedUrls,
  filter is_assoc_heading (url_index_lines collectedUrls) = [].
Proof.
  intros [|e t]; [reflexivity|]. unfold url_index_lines. cbn zeta.
  rewrite !filter_app.
  assert (H1 : forall l, filter is_assoc_heading (docs_section l) = []).
  { intros [|d ds]; [reflexivity|]. unfold docs_section. cbn [filter].
    change (is_assoc_heading (js "### Meeting Notes & Documents")) with false.
    cbv iota. apply filter_flat_map_nil. intros x. reflexivity. }
  assert (H2 : forall l, filter is_assoc_heading (hubspot_section l) = []).
  { intros [|d ds]; [reflexivity|]. unfold hubspot_section. cbn [filter].
    change (is_assoc_heading (LF :: js "### HubSpot Links")) with false.
    cbv iota. apply filter_map_nil. intros x. reflexivity. }
  assert (H3 : forall l, filter is_assoc_heading (other_section l) = []).
  { intros [|d ds]; [reflexivity|]. unfold other_section. cbn [filter].
    change (is_assoc_heading (LF :: js "### Other Links")) with false.
    cbv iota. rewrite filter_app, filter_map_nil by (intros x; reflexivity).
    destruct (20 <? List.length (d :: ds)); reflexivity. }
  rewrite H1, H2, H3. reflexivity.
Qed.

(** X20. Among the lines of the document, the only ones that start with
    [## Associated ] are the contacts heading, present exactly when there
    is a contact, and the companies heading, present exactly when there is
    a company, in this order. *)
Theorem document_association_headings :
  forall tv fm fs deal contacts companies engagements collectedUrls,
    filter is_assoc_heading
      (document_lines tv fm fs deal contacts companies engagements
         collectedUrls)
    = when_nonempty contacts (js "## Associated Contacts")
      ++ when_nonempty companies (js "## Associated Companies").
Proof.
  intros. unfold document_lines. rewrite !filter_app.
  rewrite header_lines_no_heading, contacts_lines_heading,
    companies_lines_heading, timeline_lines_no_heading,
    url_index_lines_no_heading.
  cbn [app]. rewrite app_nil_r. reflexivity.
Qed.





(** An engagement of an unknown category is counted in the heading of the
    timeline and leaves no block. *)
Example timeline_unknown_category :
  timeline_lines same_text same_text same_text [sample_unknown_eng]
  = [js "## Activity Timeline (Chronological)";
     js "*1 total activities*" ++ [LF]].
Proof.
  vm_compute. reflexivity.
Qed.

(* ------------------------------------------------------------------ *)
(** ** Input that is already in order *)

Lemma sort_insert_front : forall x l,
  Forall (ts_le x) l -> sort_insert byTimestamp x l = x :: l.
Proof.
  intros x [|y t] H; [reflexivity|].
  inversion H as [|? ? Hxy _]; subst. cbn [sort_insert].
  unfold ts_le in Hxy. unfold byTimestamp.
  destruct (tsOf x - tsOf y <=? 0)%Z eqn:E; [reflexivity|].
  apply Z.leb_gt in E. lia.
Qed.

(** X22. Engagements that are already in ascending order of timestamp are
    left exactly as they are by the sort of the timeline. *)
Theorem sortedEngagements_sorted_input : forall engagements,
  StronglySorted ts_le engagements ->
  sortedEngagements engagements = engagements.
Proof.
  intros engagements H. unfold sortedEngagements.
  induction H as [|x t Ht IH Hx]; [reflexivity|].
  cbn [array_sort fold_right]. fold (array_sort byTimestamp t).
  rewrite IH. apply sort_insert_front, Hx.
Qed.

Lemma sortedEngagements_sorted_input_witness :
  sortedEngagements [eng_before_epoch; eng_id2; eng_id1]
  = [eng_before_epoch; eng_id2; eng_id1].
Proof.
  apply (@sortedEngagements_sorted_input [eng_before_epoch; eng_id2; eng_id1]).
  repeat constructor; unfold ts_le; vm_compute; discriminate.
Defined.

(* ------------------------------------------------------------------ *)
(** ** The shape of the requests *)

Lemma client_request_get : forall token u,
  client_request token (mk_request token u GET None).
Proof.
  intros token u. split; [reflexivity|]. left. split; reflexivity.
Qed.

Lemma client_request_post : forall token u payload,
  client_request token (mk_request token u POST (Some payload)).
Proof.
  intros token u payload. split; [reflexivity|]. right.
  split; [reflexivity|]. exists payload. reflexivity.
Qed.

Lemma issues_ret : forall A token (a : A), issues_client_requests token (ret a).
Proof.
  intros A token a log. exists []. cbn. rewrite app_nil_r.
  split; [reflexivity|constructor].
Qed.

Lemma issues_diverge : forall A token,
  issues_client_requests token (@diverge A).
Proof.
  intros A token log. exists []. cbn. rewrite app_nil_r.
  split; [reflexivity|constructor].
Qed.

Lemma issues_throw : forall A token e,
  issues_client_requests token (@throw A e).
Proof.
  intros A token e log. exists []. cbn. rewrite app_nil_r.
  split; [reflexivity|constructor].
Qed.

Lemma issues_fetch : forall A srv token (json : request -> A) req,
  client_request token req ->
  issues_client_requests token (client_fetch srv json req).
Proof.
  intros A srv token json req Hreq log. exists [req]. unfold client_fetch.
  destruct (response_ok srv req); cbn [snd];
    (split; [reflexivity|constructor; [exact Hreq|constructor]]).
Qed.

Lemma issues_bind : forall A B token (m : M A) (k : A -> M B),
  issues_client_requests token m ->
  (forall a, issues_client_requests token (k a)) ->
  issues_client_requests token (bind m k).
Proof.
  intros A B token m k Hm Hk log.
  destruct (Hm log) as [r1 [E1 H1]]. unfold bind.
  destruct (m log) as [[a|e|] log1]; cbn [snd] in *.
  - destruct (Hk a log1) as [r2 [E2 H2]]. subst log1.
    exists (r1 ++ r2). rewrite E2, app_assoc.
    split; [reflexivity|apply Forall_app; split; assumption].
  - exists r1. split; assumption.
  - exists r1. split; assumption.
Qed.

Lemma issues_promise_all : forall A B token sched (a : M A) (b : M B),
  issues_client_requests token a ->
  issues_client_requests token b ->
  issues_client_requests token (promise_all sched a b).
Proof.
  intros A B token sched a b Ha Hb log.
  destruct (Ha log) as [r1 [E1 H1]].
  destruct (a log) as [oa log1] eqn:Ea. cbn [snd] in E1. subst log1.
  destruct (Hb log) as [r2 [E2 H2]].
  destruct (b log) as [ob log2] eqn:Eb. cbn [snd] in E2. subst log2.
  rewrite (@promise_all_eq _ _ sched a b log oa ob r1 r2 Ea Eb). cbn [snd].
  exists (issue_order sched r1 r2). split; [reflexivity|].
  apply (Permutation_Forall (Permutation_sym (issue_order_perm sched r1 r2))).
  apply Forall_app; split; assumption.
Qed.

Lemma issues_pages_loop : forall srv token fuel nextUrl allResults,
  issues_client_requests token (pages_loop srv token fuel nextUrl allResults).
Proof.
  intros srv token fuel; induction fuel as [|fuel IH];
    intros nextUrl allResults.
  - destruct nextUrl as [[|c u]|]; cbn [pages_loop];
      first [apply issues_ret | apply issues_diverge].
  - destruct nextUrl as [[|c u]|]; cbn [pages_loop]; try apply issues_ret.
    apply issues_bind; [apply issues_fetch, client_request_get|].
    intros data. apply IH.
Qed.

Lemma issues_getObjectBatch : forall srv token objectType objectIds props,
  issues_client_requests token
    (getObjectBatch srv token objectType objectIds props).
Proof.
  intros srv token objectType objectIds props. unfold getObjectBatch.
  destruct objectIds; [apply issues_ret|].
  apply issues_bind; [apply issues_fetch, client_request_post|].
  intros data. apply issues_ret.
Qed.

Lemma issues_engagements_loop :
  forall srv token dealId fuel config allEngagements,
  issues_client_requests token
    (engagements_loop srv token dealId fuel config allEngagements).
Proof.
  intros srv token dealId fuel config;
    induction config as [|[engType props] config' IH]; intros allEngagements.
  - apply issues_ret.
  - cbn [engagements_loop].
    apply issues_bind; [apply issues_pages_loop|].
    intros associations.
    destruct (target_ids associations); [apply IH|].
    apply issues_bind; [apply issues_getObjectBatch|].
    intros details. apply IH.
Qed.

(** X23. Every request a run issues carries the bearer token of the
    client and is either a [GET] without body or a [POST] with a batch
    payload; the run only appends to the log of requests. *)
Theorem runAnalysis_requests_authorized :
  forall tv fm fs srv token dealId sched fuel log,
  exists reqs,
    snd (runAnalysis_dealContent tv fm fs srv token dealId sched fuel log)
    = log ++ reqs /\
    Forall (client_request token) reqs.
Proof.
  intros tv fm fs srv token dealId sched fuel.
  change (issues_client_requests token
            (runAnalysis_dealContent tv fm fs srv token dealId sched fuel)).
  unfold runAnalysis_dealContent.
  apply issues_bind; [apply issues_fetch, client_request_get|].
  intros [deal|]; [|apply issues_throw].
  apply issues_bind.
  - apply issues_promise_all.
    + apply issues_bind; [apply issues_pages_loop|].
      intros assocs. apply issues_getObjectBatch.
    + apply issues_bind; [apply issues_pages_loop|].
      intros assocs. apply issues_getObjectBatch.
  - intros [contacts companies].
    apply issues_bind; [apply issues_engagements_loop|].
    intros engagements. apply issues_ret.
Qed.
